(** * yalskv: an append-only key-value store, embedded in Rocq

    Shallow embedding of [src/src/lib.rs]: the record codec, [StoreFile]
    (one log file with an append/read cursor and a one-record peek cache),
    the reduce pipeline ([split] and [merge]) and [Store].

    Effects are modelled by a state-and-error monad [M T A] over a program
    state [T] (the Rust value behind [&mut self]) and a [World] holding the
    file system.  As in Rust, state mutations made before an error are kept
    (the [&mut] borrow was mutated in place).  Every system call first
    consults a fault oracle [w_fault] indexed by a clock, so that I/O
    failures can be injected anywhere. *)

From Stdlib Require Import NArith List String Lia Sorted.
From stdpp Require Import base gmap list.

Open Scope N_scope.

(** ** Bytes and big-endian integers *)

Abbreviation byte := Byte.byte.

#[global] Instance byte_eq_dec : EqDecision byte := Byte.byte_eq_dec.

Definition byte_of_N (n : N) : byte :=
  match Byte.of_N (n mod 256) with Some b => b | None => Byte.x00 end.

#[global] Program Instance byte_countable : Countable byte :=
  inj_countable' Byte.to_N byte_of_N _.
Next Obligation.
  intros b. unfold byte_of_N.
  rewrite N.mod_small by (pose proof (Byte.to_N_bounded b); lia).
  now rewrite Byte.of_to_N.
Qed.

(** [n.to_be_bytes()] for a [k]-byte unsigned integer. *)
Fixpoint to_be_bytes (k : nat) (n : N) : list byte :=
  match k with
  | O => []
  | S k' => to_be_bytes k' (n / 256) ++ [byte_of_N n]
  end.

(** [uK::from_be_bytes]. *)
Definition from_be_bytes (l : list byte) : N :=
  fold_left (fun acc b => acc * 256 + Byte.to_N b) l 0.

(** A key or value: [Vec<u8>] / [&[u8]]. *)
Abbreviation bytes := (list byte).

(** [Ord for [u8]]: lexicographic comparison. *)
Fixpoint key_cmp (a b : bytes) : comparison :=
  match a, b with
  | [], [] => Eq
  | [], _ :: _ => Lt
  | _ :: _, [] => Gt
  | x :: a', y :: b' =>
      match N.compare (Byte.to_N x) (Byte.to_N y) with
      | Eq => key_cmp a' b'
      | c => c
      end
  end.

(** ** Records (the Rust [enum Record]) *)

Inductive record :=
| Insert (key val : bytes)
| Remove (key : bytes).

Definition INSERT : N := 1.
Definition REMOVE : N := 2.

(** [Record::key] *)
Definition rkey (r : record) : bytes :=
  match r with Insert k _ => k | Remove k => k end.

(** [Record::val] *)
Definition rval (r : record) : option bytes :=
  match r with Insert _ v => Some v | Remove _ => None end.

(** [Record::len] (a [usize]) *)
Definition rlen (r : record) : nat :=
  match r with
  | Insert k v => 8 + 2 * 4 + length k + length v
  | Remove k => 8 + 4 + length k
  end%nat.

(** [Record::is_empty] *)
Definition ris_empty (r : record) : bool := Nat.eqb (rlen r) 0.

(** ** Errors and results *)

Inductive io_kind := UnexpectedEof | Unsupported | NotFound | Fault.

(** [EPanic] is a Rust panic ([unwrap] on [None], [split_off] out of
    range); [EFuel] marks the exhaustion of the iteration bound we give to
    the [while] loops (see [split] and [merge]). *)
Inductive err := EIo (k : io_kind) | EPanic | EFuel.

Inductive res (A : Type) := Ok (a : A) | Err (e : err).
Arguments Ok {A} a.
Arguments Err {A} e.

(** ** The world: file system, fault oracle and clock *)

(** A path component: the base directory, or [format!("{:020}{}", n, ext)],
    kept as the pair [(n, ext)] (20-digit zero padding of a [u64] is
    injective). *)
Inductive seg := SBase (s : string) | SNum (n : N) (ext : string).
Definition path := list seg.

#[global] Instance seg_eq_dec : EqDecision seg.
Proof. intros x y. unfold Decision. decide equality; first [apply string_dec | apply N.eq_dec]. Defined.

Record World := mkWorld {
  w_fs : path -> option bytes;
  w_dirs : path -> bool;
  w_fault : nat -> bool;
  w_clock : nat
}.

Definition tick (w : World) : World :=
  mkWorld (w_fs w) (w_dirs w) (w_fault w) (S (w_clock w)).

Definition set_fs (p : path) (c : option bytes) (w : World) : World :=
  mkWorld (fun q => if decide (q = p) then c else w_fs w q)
          (w_dirs w) (w_fault w) (w_clock w).

(** One system call: it fails with [Fault] when the oracle says so. *)
Definition syscall {A} (f : World -> res A * World) (w : World) : res A * World :=
  if w_fault w (w_clock w) then (Err (EIo Fault), tick w) else f (tick w).

(** ** The state-and-error monad *)

Definition M (T A : Type) : Type := T -> World -> res A * T * World.

Definition ret {T A} (a : A) : M T A := fun t w => (Ok a, t, w).
Definition throw {T A} (e : err) : M T A := fun t w => (Err e, t, w).
Definition bind {T A B} (m : M T A) (k : A -> M T B) : M T B :=
  fun t w =>
    match m t w with
    | (Ok a, t', w') => k a t' w'
    | (Err e, t', w') => (Err e, t', w')
    end.
Definition get {T} : M T T := fun t w => (Ok t, t, w).
Definition put {T} (t : T) : M T unit := fun _ w => (Ok tt, t, w).
Definition modify {T} (f : T -> T) : M T unit := fun t w => (Ok tt, f t, w).
Definition liftW {T A} (f : World -> res A * World) : M T A :=
  fun t w => let '(r, w') := f w in (r, t, w').

Notation "'let*' x ':=' m 'in' k" := (bind m (fun x => k))
  (at level 200, x name, m at level 100, k at level 200).
Notation "'let*' ' p ':=' m 'in' k" :=
  (bind m (fun x => match x with p => k end))
  (at level 200, p pattern, m at level 100, k at level 200).

(** Run a computation on a component of the state. *)
Definition zoom {T U A} (g : T -> U) (s : U -> T -> T) (m : M U A) : M T A :=
  fun t w => let '(r, u, w') := m (g t) w in (r, s u t, w').

(** Run a computation on a local value (a Rust local owned by the caller). *)
Definition run_on {T U A} (u : U) (m : M U A) : M T (A * U) :=
  fun t w =>
    match m u w with
    | (Ok a, u', w') => (Ok (a, u'), t, w')
    | (Err e, _, w') => (Err e, t, w')
    end.

(** [.ok()] on an [io::Result]: I/O errors become [None]; panics stay. *)
Definition try_io {T A} (m : M T A) : M T (option A) :=
  fun t w =>
    match m t w with
    | (Ok a, t', w') => (Ok (Some a), t', w')
    | (Err (EIo _), t', w') => (Ok None, t', w')
    | (Err e, t', w') => (Err e, t', w')
    end.

(** Sequencing over a list ([for x in xs { f(x)?; }]). *)
Fixpoint mapM_ {T A} (f : A -> M T unit) (xs : list A) : M T unit :=
  match xs with
  | [] => ret tt
  | x :: xs' => let* _ := f x in mapM_ f xs'
  end.

(** ** File handles ([std::fs::File]) and directory calls *)

(** An open file: its path and its OS stream position. *)
Record File := mkFile { f_path : path; f_pos : N }.

Definition contents (w : World) (h : File) : bytes := default [] (w_fs w (f_path h)).

(** Writing [bs] at [pos] (a gap past the end reads back as zeros). *)
Definition write_at (c : bytes) (pos : nat) (bs : bytes) : bytes :=
  take pos c ++ replicate (pos - length c) Byte.x00 ++ bs ++ drop (pos + length bs) c.

(** [write_all]: an empty buffer makes no system call. *)
Definition write_all (bs : bytes) : M File unit :=
  match bs with
  | [] => ret tt
  | _ :: _ =>
      let* h := get in
      let* _ := liftW (syscall (fun w =>
        (Ok tt, set_fs (f_path h)
                  (Some (write_at (contents w h) (N.to_nat (f_pos h)) bs)) w))) in
      put (mkFile (f_path h) (f_pos h + N.of_nat (length bs)))
  end.

(** [File::flush] is a no-op for [std::fs::File]. *)
Definition flush : M File unit := ret tt.

(** [FileExt::read_exact_at]: positional, the stream position is untouched;
    reading past the end fails with [UnexpectedEof]. *)
Definition read_exact_at (n off : N) : M File bytes :=
  if n =? 0 then ret [] else
  let* h := get in
  liftW (syscall (fun w =>
    let c := contents w h in
    if off + n <=? N.of_nat (length c)
    then (Ok (take (N.to_nat n) (drop (N.to_nat off) c)), w)
    else (Err (EIo UnexpectedEof), w))).

(** [Seek::stream_position] *)
Definition stream_position : M File N :=
  let* h := get in liftW (syscall (fun w => (Ok (f_pos h), w))).

(** [seek(SeekFrom::Start(p))] *)
Definition seek_start (p : N) : M File N :=
  let* _ := liftW (syscall (fun w => (Ok tt, w))) in
  let* h := get in
  let* _ := put (mkFile (f_path h) p) in
  ret p.

(** [file.metadata()?.len()] *)
Definition metadata_len : M File N :=
  let* h := get in
  liftW (syscall (fun w => (Ok (N.of_nat (length (contents w h))), w))).

(** [seek(SeekFrom::End(0))] *)
Definition seek_end : M File N :=
  let* h := get in
  let* p := liftW (syscall (fun w => (Ok (N.of_nat (length (contents w h))), w))) in
  let* _ := put (mkFile (f_path h) p) in
  ret p.

Fixpoint is_prefix (p q : path) : bool :=
  match p, q with
  | [], _ => true
  | _ :: _, [] => false
  | x :: p', y :: q' => bool_decide (x = y) && is_prefix p' q'
  end.

(** [OpenOptions::new().create(true).truncate(t).write(true).read(true).open(p)]:
    fails when the parent directory is missing. *)
Definition open_file (p : path) (truncate : bool) : World -> res File * World :=
  syscall (fun w =>
    if w_dirs w (removelast p) then
      let c := if truncate then [] else default [] (w_fs w p) in
      (Ok (mkFile p 0), set_fs p (Some c) w)
    else (Err (EIo NotFound), w)).

(** [std::fs::create_dir_all] *)
Definition create_dir_all (p : path) : World -> res unit * World :=
  syscall (fun w =>
    (Ok tt, mkWorld (w_fs w)
              (fun q => w_dirs w q || (bool_decide (q <> []) && is_prefix q p))
              (w_fault w) (w_clock w))).

(** [std::fs::remove_dir_all]: removes the directory and everything below. *)
Definition remove_dir_all (p : path) : World -> res unit * World :=
  syscall (fun w =>
    if w_dirs w p then
      (Ok tt, mkWorld (fun q => if is_prefix p q then None else w_fs w q)
                (fun q => w_dirs w q && negb (is_prefix p q))
                (w_fault w) (w_clock w))
    else (Err (EIo NotFound), w)).

(** ** [StoreFile] *)

Record IndexEntry := mkIndexEntry { ie_file : N; ie_offset : N; ie_length : N }.

Record StoreFile := mkStoreFile {
  sf_id : N;
  sf_file : File;
  sf_offset : N;
  sf_peek : option record
}.

Definition set_file (h : File) (f : StoreFile) : StoreFile :=
  mkStoreFile (sf_id f) h (sf_offset f) (sf_peek f).
Definition set_offset (o : N) (f : StoreFile) : StoreFile :=
  mkStoreFile (sf_id f) (sf_file f) o (sf_peek f).
Definition set_peek (p : option record) (f : StoreFile) : StoreFile :=
  mkStoreFile (sf_id f) (sf_file f) (sf_offset f) p.

(** A computation that owns nothing of the caller ([StoreFile::create] ...). *)
Definition call {T A} (m : M unit A) : M T A :=
  fun t w => let '(r, _, w') := m tt w in (r, t, w').

(** [self.file.<op>] *)
Definition on_handle {A} (m : M File A) : M StoreFile A := zoom sf_file set_file m.

Module StoreFile.

Definition create (id : N) (p : path) (truncate : bool) : M unit StoreFile :=
  let* h := liftW (open_file p truncate) in
  let* '(offset, h) := run_on h metadata_len in
  ret (mkStoreFile id h offset None).

Definition open (id : N) (p : path) : M unit StoreFile := create id p false.
Definition make (id : N) (p : path) : M unit StoreFile := create id p true.

Definition insert (key val : bytes) : M StoreFile IndexEntry :=
  let key_len := N.of_nat (length key) mod 2 ^ 32 in
  let val_len := N.of_nat (length val) mod 2 ^ 32 in
  let* _ := on_handle (write_all (to_be_bytes 8 INSERT)) in
  let* _ := on_handle (write_all (to_be_bytes 4 key_len)) in
  let* _ := on_handle (write_all (to_be_bytes 4 val_len)) in
  let* _ := on_handle (write_all key) in
  let* _ := on_handle (write_all val) in
  let* _ := on_handle flush in
  let length := 8 + 2 * 4 + key_len + val_len in
  let* _ := modify (fun f => set_offset (sf_offset f + length) f) in
  let* f := get in
  ret (mkIndexEntry (sf_id f) (sf_offset f - val_len) val_len).

Definition remove (key : bytes) : M StoreFile unit :=
  let key_len := N.of_nat (length key) mod 2 ^ 32 in
  let* _ := on_handle (write_all (to_be_bytes 8 REMOVE)) in
  let* _ := on_handle (write_all (to_be_bytes 4 key_len)) in
  let* _ := on_handle (write_all key) in
  let* _ := on_handle flush in
  let length := 8 + 4 + key_len in
  modify (fun f => set_offset (sf_offset f + length) f).

Definition exec (r : record) : M StoreFile unit :=
  match r with
  | Insert key val => let* _ := insert key val in ret tt
  | Remove key => remove key
  end.

(** [read(offset, buffer)]: a positional read that restores the stream
    position it found. *)
Definition read (offset length : N) : M StoreFile bytes :=
  let* pos := on_handle stream_position in
  let* buffer := on_handle (read_exact_at length offset) in
  let* _ := on_handle (seek_start pos) in
  ret buffer.

(** [read_record]: [(key_len + val_len) as usize] is a [u32] sum (wrapping
    as in a release build); [split_off] panics past the end of the buffer. *)
Definition read_record : M StoreFile record :=
  let* f := get in
  match sf_peek f with
  | Some r =>
      let* _ := put (set_peek None (set_offset (sf_offset f + N.of_nat (rlen r)) f)) in
      ret r
  | None =>
      let* buf := on_handle (read_exact_at 8 (sf_offset f)) in
      let op := from_be_bytes buf in
      let* b := on_handle (read_exact_at 4 (sf_offset f + 8)) in
      let key_len := from_be_bytes b in
      if op =? INSERT then
        let* b' := on_handle (read_exact_at 4 (sf_offset f + 12)) in
        let val_len := from_be_bytes b' in
        let* buf := on_handle (read_exact_at ((key_len + val_len) mod 2 ^ 32)
                                              (sf_offset f + 16)) in
        let* _ := modify (fun f => set_offset (sf_offset f + (16 + key_len + val_len)) f) in
        if key_len <=? N.of_nat (List.length buf)
        then ret (Insert (take (N.to_nat key_len) buf) (drop (N.to_nat key_len) buf))
        else throw EPanic
      else if op =? REMOVE then
        let* buf := on_handle (read_exact_at key_len (sf_offset f + 12)) in
        let* _ := modify (fun f => set_offset (sf_offset f + (12 + key_len)) f) in
        ret (Remove buf)
      else throw (EIo Unsupported)
  end.

Definition peek_record : M StoreFile record :=
  let* f := get in
  match sf_peek f with
  | Some r => ret r
  | None =>
      let* r := read_record in
      let* _ := modify (fun f => set_peek (Some r) (set_offset (sf_offset f - N.of_nat (rlen r)) f)) in
      ret r
  end.

Definition reset : M StoreFile unit :=
  let* _ := on_handle (seek_start 0) in
  modify (set_offset 0).

Definition unset : M StoreFile unit :=
  let* len := on_handle metadata_len in
  let* _ := modify (set_offset len) in
  let* _ := on_handle seek_end in
  ret tt.

End StoreFile.

(** A computation whose iteration bound is read from the world.  The bound
    is not part of the source: each pass of a [while] loop below consumes at
    least 12 bytes of a file that the loop does not grow. *)
Definition bounded {T A} (k : World -> T -> M T A) : M T A := fun t w => k w t t w.

(** A computation on [(self, local)] where [local] dies with the call. *)
Definition with_local {T L A} (l : L) (m : M (T * L) A) : M T A :=
  fun t w => let '(r, (t', _), w') := m (t, l) w in (r, t', w').

(** ** [split] *)

(** [records.sort_by(|a, b| a.key().cmp(b.key()))]: [sort_by] is a stable
    sort, and all stable sorts agree; this one is insertion sort. *)
Fixpoint insert_sorted (r : record) (l : list record) : list record :=
  match l with
  | [] => [r]
  | x :: l' =>
      match key_cmp (rkey r) (rkey x) with
      | Gt => x :: insert_sorted r l'
      | _ => r :: x :: l'
      end
  end.

Fixpoint sort_by_key (l : list record) : list record :=
  match l with
  | [] => []
  | r :: l' => insert_sorted r (sort_by_key l')
  end.

(** [split::make_file] *)
Definition make_file (id : N) (dir : path) : M unit StoreFile :=
  StoreFile.open id (dir ++ [SNum id ".dat"]).

(** [split::dump_file] *)
Definition dump_file (records : list record) : M StoreFile unit :=
  match records with
  | [] => ret tt
  | _ :: _ =>
      let* _ := mapM_ StoreFile.exec (sort_by_key records) in
      on_handle flush
  end.

(** The [while let Ok(record) = src.read_record()] loop of [split]. *)
Fixpoint split_loop (fuel : nat) (dir : path) (split_size_bytes : nat)
    (result : list StoreFile) (records : list record) (idx : N) (len : nat)
    : M StoreFile (list StoreFile * list record * N) :=
  match fuel with
  | O => throw EFuel
  | S fuel' =>
      let* o := try_io StoreFile.read_record in
      match o with
      | None => ret (result, records, idx)
      | Some record =>
          let* '(result, records, idx, len) :=
            if (split_size_bytes <? len + rlen record)%nat then
              let* file := call (make_file idx dir) in
              let* '(_, file) := run_on file (dump_file records) in
              ret (result ++ [file], [], idx + 1, 0%nat)
            else ret (result, records, idx, len) in
          split_loop fuel' dir split_size_bytes result (records ++ [record]) idx
                     (len + rlen record)
      end
  end.

(** [for src in result.iter_mut() { src.file.flush()?; src.reset()?; }] *)
Fixpoint reset_all {T} (l : list StoreFile) : M T (list StoreFile) :=
  match l with
  | [] => ret []
  | f :: l' =>
      let* '(_, f) := run_on f (let* _ := on_handle flush in StoreFile.reset) in
      let* l' := reset_all l' in
      ret (f :: l')
  end.

Definition split (base : string) (split_size_bytes : nat)
    : M StoreFile (list StoreFile) :=
  let* src := get in
  let dir := [SBase base; SNum (sf_id src) ""] in
  let* _ := liftW (create_dir_all dir) in
  let* _ := StoreFile.reset in
  let* '(result, records, idx) :=
    bounded (fun w src =>
      split_loop (S (length (contents w (sf_file src)))) dir split_size_bytes
                 [] [] 0 0) in
  let* file := call (make_file idx dir) in
  let* '(_, file) := run_on file (dump_file records) in
  reset_all (result ++ [file]).

(** ** [merge] *)

(** [&mut srcs[i]] *)
Definition on_nth {A} (i : nat) (m : M StoreFile A) : M (list StoreFile) A :=
  fun srcs w =>
    match srcs !! i with
    | None => (Err EPanic, srcs, w)
    | Some s => let '(r, s', w') := m s w in (r, <[i := s']> srcs, w')
    end.

(** [Iterator::min_by]: the first of several equally minimal elements. *)
Definition min_by {A} (cmp : A -> A -> comparison) (l : list A) : option A :=
  match l with
  | [] => None
  | x :: l' =>
      Some (fold_left (fun acc y => match cmp acc y with Gt => y | _ => acc end) l' x)
  end.

(** [srcs.iter_mut().flat_map(|src| src.peek_record().ok().cloned().map(..))]:
    every source is peeked, in order. *)
Fixpoint peek_all (i n : nat) : M (list StoreFile) (list (record * nat)) :=
  match n with
  | O => ret []
  | S n' =>
      let* o := try_io (on_nth i StoreFile.peek_record) in
      let* rest := peek_all (S i) n' in
      ret (match o with Some r => (r, i) :: rest | None => rest end)
  end.

(** [merge::pick]: the index of the chosen source. *)
Definition pick : M (list StoreFile) (option nat) :=
  let* srcs := get in
  let* cands := peek_all 0 (length srcs) in
  ret (option_map snd (min_by (fun a b => key_cmp (rkey a.1) (rkey b.1)) cands)).

Definition on_dst {A} (m : M StoreFile A) : M (StoreFile * list StoreFile) A :=
  zoom fst (fun d p => (d, p.2)) m.
Definition on_srcs {A} (m : M (list StoreFile) A) : M (StoreFile * list StoreFile) A :=
  zoom snd (fun s p => (p.1, s)) m.

(** The [while let Some(src) = pick(srcs)] loop of [merge], with its
    locals [index], [current_key] and [current_val]. *)
Fixpoint merge_loop (fuel : nat) (index : gmap bytes IndexEntry)
    (current_key current_val : option bytes)
    : M (StoreFile * list StoreFile) (gmap bytes IndexEntry * option bytes * option bytes) :=
  match fuel with
  | O => throw EFuel
  | S fuel' =>
      let* o := on_srcs pick in
      match o with
      | None => ret (index, current_key, current_val)
      | Some i =>
          let* record := on_srcs (on_nth i StoreFile.read_record) in
          let ck := match current_key with None => rkey record | Some k => k end in
          let* '(index, current_key) :=
            if decide (rkey record = ck) then ret (index, Some ck)
            else
              let* index :=
                match current_val with
                | Some v =>
                    let* entry := on_dst (StoreFile.insert ck v) in
                    ret (<[ck := entry]> index)
                | None => ret index
                end in
              ret (index, Some (rkey record)) in
          merge_loop fuel' index current_key (rval record)
      end
  end.

Definition merge : M (StoreFile * list StoreFile) (gmap bytes IndexEntry) :=
  let* '(index, current_key, current_val) :=
    bounded (fun w st =>
      merge_loop (S (sum_list_with (fun s => length (contents w (sf_file s))) st.2))
                 ∅ None None) in
  let* index :=
    match current_key, current_val with
    | Some k, Some v =>
        let* entry := on_dst (StoreFile.insert k v) in
        ret (<[k := entry]> index)
    | None, Some _ => throw EPanic
    | _, None => ret index
    end in
  let* _ := on_dst (on_handle flush) in
  ret index.

(** ** [Store] *)

Record Store := mkStore {
  st_id : N;
  st_base : string;
  st_files : gmap N StoreFile;
  st_index : gmap bytes IndexEntry
}.

Definition set_files (fs : gmap N StoreFile) (st : Store) : Store :=
  mkStore (st_id st) (st_base st) fs (st_index st).
Definition set_index (ix : gmap bytes IndexEntry) (st : Store) : Store :=
  mkStore (st_id st) (st_base st) (st_files st) ix.

Module Store.

Definition id_to_path (base : string) (id : N) (ext : string) : path :=
  [SBase base; SNum id ext].
Definition id_to_dir_path (base : string) (id : N) : path := id_to_path base id "".
Definition id_to_dat_path (base : string) (id : N) : path := id_to_path base id ".dat".

Definition id_to_file (base : string) (id : N) : M unit StoreFile :=
  StoreFile.open id (id_to_path base id ".dat").

Definition open (base : string) : M unit Store :=
  let id := 1 in
  let* f := id_to_file base id in
  ret (mkStore id base (<[id := f]> ∅) ∅).

(** [self.files.get_mut(&id).unwrap().<op>] *)
Definition on_file {A} (id : N) (m : M StoreFile A) : M Store A :=
  fun st w =>
    match st_files st !! id with
    | None => (Err EPanic, st, w)
    | Some f =>
        let '(r, f', w') := m f w in
        (r, set_files (<[id := f']> (st_files st)) st, w')
    end.

Definition insert (key val : bytes) : M Store unit :=
  let* st := get in
  let* entry := on_file (st_id st) (StoreFile.insert key val) in
  modify (fun st => set_index (<[key := entry]> (st_index st)) st).

Definition remove (key : bytes) : M Store bool :=
  let* st := get in
  let* _ := on_file (st_id st) (StoreFile.remove key) in
  let* st := get in
  let* _ := put (set_index (delete key (st_index st)) st) in
  ret (bool_decide (is_Some (st_index st !! key))).

Definition lookup (key : bytes) : M Store (option bytes) :=
  let* st := get in
  match st_index st !! key with
  | Some e =>
      let* _ :=
        match st_files st !! ie_file e with
        | Some _ => ret tt
        | None =>
            let* f := call (id_to_file (st_base st) (ie_file e)) in
            modify (fun st => set_files (<[ie_file e := f]> (st_files st)) st)
        end in
      let* buffer := on_file (ie_file e) (StoreFile.read (ie_offset e) (ie_length e)) in
      ret (Some buffer)
  | None => ret None
  end.

Definition reduce (limit : nat) : M Store unit :=
  let* st := get in
  let path := id_to_dat_path (st_base st) (st_id st) in
  let* chunks := on_file (st_id st) (split (st_base st) limit) in
  let* _ := on_file (st_id st) (let* f := call (StoreFile.make (st_id st) path) in put f) in
  let* index := on_file (st_id st) (with_local chunks merge) in
  let* _ := modify (set_index index) in
  let path := id_to_dir_path (st_base st) (st_id st) in
  liftW (remove_dir_all path).

(** [Store::len] and [Store::is_empty] *)
Definition len (st : Store) : nat := size (st_index st).
Definition is_empty (st : Store) : bool := Nat.eqb (len st) 0.

(** [store.file()]: [self.files.get_mut(&self.id).unwrap()] *)
Definition file {A} (m : M StoreFile A) : M Store A :=
  let* st := get in on_file (st_id st) m.

(** [Iterator for StoreFile]: [next] is [read_record().ok()];
    [collect] runs it until [None]. *)
Fixpoint collect (fuel : nat) : M StoreFile (list record) :=
  match fuel with
  | O => throw EFuel
  | S fuel' =>
      let* o := try_io StoreFile.read_record in
      match o with
      | None => ret []
      | Some r => let* rs := collect fuel' in ret (r :: rs)
      end
  end.

(** [store.file().reset()?; store.file().collect()] *)
Definition iterate_from_reset : M Store (list record) :=
  let* st := get in
  on_file (st_id st)
    (let* _ := StoreFile.reset in
     bounded (fun w f => collect (S (length (contents w (sf_file f)))))).

End Store.

(** ** Client programs *)

Inductive op := OpInsert (key val : bytes) | OpRemove (key : bytes).

Fixpoint run_ops (ops : list op) : M Store unit :=
  match ops with
  | [] => ret tt
  | OpInsert k v :: ops' => let* _ := Store.insert k v in run_ops ops'
  | OpRemove k :: ops' => let* _ := Store.remove k in run_ops ops'
  end.

(** A store reached from [Store::open(base)] by a sequence of mutations. *)
Definition reachable (base : string) (ops : list op) : M unit Store :=
  let* st := Store.open base in
  let* '(_, st) := run_on st (run_ops ops) in
  ret st.

(** [for x in xs { ys.push(f(x)?); }] *)
Fixpoint mapM {T A B} (f : A -> M T B) (xs : list A) : M T (list B) :=
  match xs with
  | [] => ret []
  | x :: xs' => let* y := f x in let* ys := mapM f xs' in ret (y :: ys)
  end.

(** The body of [main] in [src/bin/main.rs] after [Store::open]: the
    timings and [println!] lines are dropped, and what the diagnostics
    ([eprintln!]) look at is returned.  [data1] and [data2] stand for
    [mix(data, 1)] and [mix(data, 2)]: both are shuffles of [data]. *)
Definition main_body (limit : nat) (data data1 data2 : list (bytes * bytes))
    : M Store (list bytes * list bytes * list bool * nat) :=
  let* _ := mapM_ (fun kv => Store.insert kv.1 kv.2) data in
  let* _ := Store.reduce limit in
  let* found := mapM (fun kv => let* o := Store.lookup kv.1 in ret (default [] o)) data1 in
  let* recs := Store.iterate_from_reset in
  let* _ := Store.file StoreFile.unset in
  let* removed := mapM (fun kv => Store.remove kv.1) data2 in
  let* _ := Store.reduce limit in
  let* rest := Store.iterate_from_reset in
  ret (found, map rkey recs, removed, length rest).

Definition main (base : string) (limit : nat) (data data1 data2 : list (bytes * bytes))
    : M unit (list bytes * list bytes * list bool * nat) :=
  let* _ := liftW (create_dir_all [SBase base]) in
  let* st := Store.open base in
  let* '(r, _) := run_on st (main_body limit data data1 data2) in
  ret r.

(** The diagnostics [main] prints with [eprintln!] / [println!]. *)
Inductive msg :=
| MNotFound (key : bytes)
| MMismatch (key : bytes)
| MUnsorted (i : nat) (prev next : bytes)
| MNotExist (key : bytes)
| MNotEmpty (count : nat).

Fixpoint found_msgs (data : list (bytes * bytes)) (found : list bytes) : list msg :=
  match data, found with
  | (key, val) :: data', res :: found' =>
      (match res with
       | [] => [MNotFound key]
       | _ :: _ => if decide (val = res) then [] else [MMismatch key]
       end) ++ found_msgs data' found'
  | _, _ => []
  end.

Fixpoint sorted_msgs (i : nat) (prev : bytes) (found : list bytes) : list msg :=
  match found with
  | [] => []
  | next :: found' =>
      match prev with
      | [] => sorted_msgs (S i) next found'
      | _ :: _ =>
          (match key_cmp prev next with Gt => [MUnsorted i prev next] | _ => [] end)
          ++ sorted_msgs (S i) next found'
      end
  end.

Fixpoint removed_msgs (data : list (bytes * bytes)) (removed : list bool) : list msg :=
  match data, removed with
  | (key, _) :: data', r :: removed' =>
      (if r then [] else [MNotExist key]) ++ removed_msgs data' removed'
  | _, _ => []
  end.

Definition main_msgs (data1 data2 : list (bytes * bytes))
    (r : list bytes * list bytes * list bool * nat) : list msg :=
  let '(found, keys, removed, count) := r in
  found_msgs data1 found ++ sorted_msgs 0 [] keys ++ removed_msgs data2 removed ++
  (if (0 <? count)%nat then [MNotEmpty count] else []).

(** ** [util] *)

(** [format!("{:02x}", x)]: two lower-case hexadecimal digits. *)
Definition hex_digit (n : N) : Ascii.ascii :=
  Ascii.ascii_of_N (if n <? 10 then 48 + n else 87 + n).

Definition fmt_02x (x : byte) : string :=
  String (hex_digit (Byte.to_N x / 16)) (String (hex_digit (Byte.to_N x mod 16)) EmptyString).

(** [util::hex] *)
Definition hex (src : bytes) : string := String.concat EmptyString (map fmt_02x src).

(** Evaluation helpers. *)
Definition result_of {T A} (m : M T A) (t : T) (w : World) : res A :=
  let '(r, _, _) := m t w in r.
Definition state_of {T A} (m : M T A) (t : T) (w : World) : T :=
  let '(_, t', _) := m t w in t'.
Definition world_of {T A} (m : M T A) (t : T) (w : World) : World :=
  let '(_, _, w') := m t w in w'.

(** A fresh, fault-free world in which the base directory exists. *)
Definition world0 (base : string) : World :=
  mkWorld (fun _ => None) (fun p => bool_decide (p = [SBase base])) (fun _ => false) 0.

Definition b (s : string) : bytes := list_byte_of_string s.

(** ** Models used to state the properties *)

(** The bytes [StoreFile::insert] / [StoreFile::remove] append for a record. *)
Definition encode (r : record) : bytes :=
  match r with
  | Insert k v =>
      to_be_bytes 8 INSERT ++ to_be_bytes 4 (N.of_nat (length k) mod 2 ^ 32)
      ++ to_be_bytes 4 (N.of_nat (length v) mod 2 ^ 32) ++ k ++ v
  | Remove k =>
      to_be_bytes 8 REMOVE ++ to_be_bytes 4 (N.of_nat (length k) mod 2 ^ 32) ++ k
  end.

Definition encode_log (l : list record) : bytes := concat (map encode l).

(** Records whose [key_len + val_len] fits the [u32] sum of [read_record]. *)
Definition fits (r : record) : Prop :=
  match r with
  | Insert k v => N.of_nat (length k) + N.of_nat (length v) < 2 ^ 32
  | Remove _ => True
  end.

(** Keys and values of the data model: at most [2^32 - 1] bytes. *)
Definition rec_ok (r : record) : Prop :=
  N.of_nat (length (rkey r)) < 2 ^ 32 /\
  match r with Insert _ v => N.of_nat (length v) < 2 ^ 32 | Remove _ => True end.

Definition op_record (o : op) : record :=
  match o with OpInsert k v => Insert k v | OpRemove k => Remove k end.

(** No system call fails. *)
Definition ff (w : World) : Prop := forall n, w_fault w n = false.

(** Replaying a log: the last record of a key decides its value. *)
Definition model (log : list record) (k : bytes) : option bytes :=
  fold_left (fun acc r => if decide (rkey r = k) then rval r else acc) log None.

(** Lookup in a list of emitted pairs, the last one winning. *)
Definition elookup (E : list (bytes * bytes)) (k : bytes) : option bytes :=
  fold_left (fun acc kv => if decide (kv.1 = k) then Some kv.2 else acc) E None.

Definition pair_insert (kv : bytes * bytes) : record := Insert kv.1 kv.2.

(** The chunks [split] cuts the log into. *)
Fixpoint split_chunks (limit len : nat) (records todo : list record) : list (list record) :=
  match todo with
  | [] => [records]
  | r :: todo' =>
      if (limit <? len + rlen r)%nat
      then records :: split_chunks limit (rlen r) [r] todo'
      else split_chunks limit (len + rlen r) (records ++ [r]) todo'
  end.

(** The duplicate collapser of [merge]: emitted pairs, [current_key],
    [current_val]. *)
Definition cstate : Type := list (bytes * bytes) * option bytes * option bytes.

Definition cstep (s : cstate) (r : record) : cstate :=
  let '(E, current_key, current_val) := s in
  let ck := match current_key with None => rkey r | Some k => k end in
  if decide (rkey r = ck) then (E, Some ck, rval r)
  else (match current_val with Some v => E ++ [(ck, v)] | None => E end,
        Some (rkey r), rval r).

Definition cfinal (s : cstate) : list (bytes * bytes) :=
  let '(E, current_key, current_val) := s in
  match current_key, current_val with
  | Some k, Some v => E ++ [(k, v)]
  | _, _ => E
  end.

Definition collapse (P : list record) : list (bytes * bytes) :=
  cfinal (fold_left cstep P ([], None, None)).

Definition kle (a b : record) : Prop := key_cmp (rkey a) (rkey b) <> Gt.

(** The records of one key, in order. *)
Definition kf (k : bytes) (l : list record) : list record := filter (λ r, rkey r = k) l.

(** One step of [model]. *)
Definition mstep (k : bytes) (acc : option bytes) (r : record) : option bytes :=
  if decide (rkey r = k) then rval r else acc.

(** Emitted pairs with strictly ascending keys. *)
Definition ESorted (E : list (bytes * bytes)) : Prop :=
  StronglySorted (fun a b => key_cmp a.1 b.1 = Lt) E.

(** What the collapser knows after a sorted prefix [P]. *)
Definition cinv (P : list record) (s : cstate) : Prop :=
  let '(E, current_key, current_val) := s in
  ESorted E /\ (forall kv, kv ∈ E -> Insert kv.1 kv.2 ∈ P) /\
  match last P with
  | None => E = [] /\ current_key = None /\ current_val = None
  | Some r =>
      current_key = Some (rkey r) /\ current_val = rval r /\
      (forall k, k <> rkey r -> elookup E k = model P k) /\
      (forall kv, kv ∈ E -> key_cmp kv.1 (rkey r) = Lt)
  end.

(** The bytes an index entry designates. *)
Definition slice (c : bytes) (off len : N) : bytes :=
  take (N.to_nat len) (drop (N.to_nat off) c).

(** Every entry of [ix] points into file [id], whose contents are [c], at the
    value [m] gives to its key; keys without entry have no value. *)
Definition index_ok (id : N) (c : bytes) (ix : gmap bytes IndexEntry)
    (m : bytes -> option bytes) : Prop :=
  forall k,
    match ix !! k, m k with
    | None, None => True
    | Some e, Some v =>
        ie_file e = id /\ ie_offset e + ie_length e <= N.of_nat (length c) /\
        slice c (ie_offset e) (ie_length e) = v
    | _, _ => False
    end.

Definition active_path (st : Store) : path := Store.id_to_dat_path (st_base st) (st_id st).
Definition scratch_path (st : Store) : path := Store.id_to_dir_path (st_base st) (st_id st).

(** A log file positioned at its end, with nothing peeked. *)
Definition at_end (id : N) (p : path) (c : bytes) : StoreFile :=
  mkStoreFile id (mkFile p (N.of_nat (length c))) (N.of_nat (length c)) None.

(** The store invariant: the active log holds the encoded [log], the index
    agrees with replaying it, and no scratch file exists. *)
Definition SInv (log : list record) (st : Store) (w : World) : Prop :=
  st_files st !! st_id st = Some (at_end (st_id st) (active_path st) (encode_log log)) /\
  Forall rec_ok log /\
  w_fs w (active_path st) = Some (encode_log log) /\
  index_ok (st_id st) (encode_log log) (st_index st) (model log) /\
  w_dirs w [SBase (st_base st)] = true /\
  (forall q, is_prefix (scratch_path st) q = true -> w_fs w q = None) /\
  ff w.

(** Chunk files of [split]. *)
Definition cpath (dir : path) (j : nat) : path := dir ++ [SNum (N.of_nat j) ".dat"].

Fixpoint chunk_files (dir : path) (k : nat) (cs : list (list record)) : list StoreFile :=
  match cs with
  | [] => []
  | c :: cs' => at_end (N.of_nat k) (cpath dir k) (encode_log (sort_by_key c))
                :: chunk_files dir (S k) cs'
  end.

Definition chunks_in (dir : path) (done : list (list record)) (w : World) : Prop :=
  (forall j c, done !! j = Some c -> w_fs w (cpath dir j) = Some (encode_log (sort_by_key c))) /\
  (forall j, (length done <= j)%nat -> w_fs w (cpath dir j) = None).

(** A log file rewound to its start. *)
Definition reset_sf (f : StoreFile) : StoreFile :=
  mkStoreFile (sf_id f) (mkFile (f_path (sf_file f)) 0) 0 (sf_peek f).

(** [m] keeps an empty peek cache empty. *)
Definition KP {A} (m : M StoreFile A) : Prop :=
  forall f w r f' w', sf_peek f = None -> m f w = (r, f', w') -> sf_peek f' = None.

(** The merge sources: source [j] reads the chunk file [j] at an offset where
    the records [R] remain. *)
Definition src_ok (dir : path) (j : nat) (R : list record) (s : StoreFile) (w : World) : Prop :=
  exists S, w_fs w (cpath dir j) = Some (encode_log S) /\ f_path (sf_file s) = cpath dir j /\
    drop (N.to_nat (sf_offset s)) (encode_log S) = encode_log R /\
    (sf_peek s = None \/ sf_peek s = head R) /\
    Forall rec_ok R /\ Forall fits R /\ StronglySorted kle R.

Definition srcs_ok (dir : path) (Rs : list (list record)) (srcs : list StoreFile)
    (w : World) : Prop :=
  length Rs = length srcs /\
  forall j R s, Rs !! j = Some R -> srcs !! j = Some s -> src_ok dir j R s w.

(** A fault-free world whose base directory exists and holds nothing yet. *)
Definition fresh_world (base : string) (w : World) : Prop :=
  ff w /\ w_dirs w [SBase base] = true /\
  (forall q, is_prefix [SBase base] q = true -> w_fs w q = None).

(** Any number of [lookup] calls, their results dropped. *)
Definition lookups (ks : list bytes) : M Store unit :=
  mapM_ (fun k => let* _ := Store.lookup k in ret tt) ks.

(** The store [reachable base ops] builds in [w], and the world it leaves. *)
Definition reached_store (base : string) (ops : list op) (w : World) : Store :=
  match result_of (reachable base ops) tt w with
  | Ok st => st
  | Err _ => mkStore 0 base ∅ ∅
  end.
Definition reached_world (base : string) (ops : list op) (w : World) : World :=
  world_of (reachable base ops) tt w.

(** The value of a result, [d] for an error. *)
Definition ok_or {A} (d : A) (r : res A) : A := match r with Ok a => a | Err _ => d end.

(** [w] with a fault injected at clock [n] only. *)
Definition fault_at (w : World) (n : nat) : World :=
  mkWorld (w_fs w) (w_dirs w) (fun m => Nat.eqb m n) (w_clock w).

Definition ops_ok (ops : list op) : Prop := Forall (fun o => rec_ok (op_record o)) ops.

Definition ops_c1 : list op :=
  [OpInsert (b "a") (b "1"); OpInsert (b "b") (b "2"); OpRemove (b "a"); OpInsert (b "c") (b "3")].

Definition src_c2 (j : nat) (r : record) : StoreFile :=
  mkStoreFile (N.of_nat j) (mkFile (cpath [SBase "db"; SNum 1 ""] j) 0) 0 (Some r).
Definition srcs_c2 : list StoreFile :=
  [src_c2 0 (Insert (b "b") (b "1")); src_c2 1 (Insert (b "a") (b "2"));
   src_c2 2 (Remove (b "a")); src_c2 3 (Insert (b "c") (b "4"))].

Definition ops_c3 : list op := [OpInsert (b "a") (b "1")].

(** A key of [2^24 + 1] zero bytes, above the recommended cap of [2^24]. *)
Definition big_key : bytes := replicate (N.to_nat (2 ^ 24 + 1)) Byte.x00.
Definition c5_path : path := [SBase "db"; SNum 1 ".dat"].
(** A log file holding the one record [Insert big_key []]. *)
Definition c5_world : World :=
  mkWorld (fun p => if decide (p = c5_path) then Some (encode (Insert big_key [])) else None)
    (fun _ => false) (fun _ => false) 0.
Definition c5_file : StoreFile := mkStoreFile 1 (mkFile c5_path 0) 0 None.

Definition file1 : StoreFile := at_end 1 [SBase "db"; SNum 1 ".dat"] [].
Definition world1 : World := reached_world "db" [] (world0 "db").

(** ** Worlds, logs and files used by the statements below *)

(** Reading two hexadecimal digits back. *)
Definition digit_val (a : Ascii.ascii) : N :=
  let n := Ascii.N_of_ascii a in if n <? 97 then n - 48 else n - 87.

Definition unfmt (s : string) : N :=
  match s with
  | String a (String c _) => digit_val a * 16 + digit_val c
  | _ => 0
  end.

(** A fault-free world holding the one file [p], with contents [c], and
    its directory. *)
Definition one_file_world (p : path) (c : bytes) : World :=
  mkWorld (fun q => if decide (q = p) then Some c else None)
          (fun d => bool_decide (d = removelast p)) (fun _ => false) 0.

(** Logs whose only record is cut short: an insert announcing a 2-byte key
    and a 1-byte value, followed by the key alone; a remove announcing a
    3-byte key, followed by two bytes. *)
Definition trunc_ins : bytes := to_be_bytes 8 INSERT ++ to_be_bytes 4 2 ++ to_be_bytes 4 1 ++ b "ab".
Definition trunc_rem : bytes := to_be_bytes 8 REMOVE ++ to_be_bytes 4 3 ++ b "ab".

(** The active log file after [reset()] and a full iteration: the offset is
    at the end, the stream position at the start. *)
Definition iterated (id : N) (p : path) (c : bytes) : StoreFile :=
  mkStoreFile id (mkFile p 0) (N.of_nat (length c)) None.

(** * Proofs *)

(** ** Bytes *)

Lemma from_be_bytes_snoc l x :
  from_be_bytes (l ++ [x]) = from_be_bytes l * 256 + Byte.to_N x.
Proof. unfold from_be_bytes. now rewrite fold_left_app. Qed.

Lemma to_N_byte_of_N n : Byte.to_N (byte_of_N n) = n mod 256.
Proof.
  unfold byte_of_N. destruct (Byte.of_N (n mod 256)) eqn:E.
  - now apply Byte.to_of_N.
  - apply Byte.of_N_None_iff in E. pose proof (N.mod_lt n 256). lia.
Qed.

Lemma from_to_be_bytes k n : from_be_bytes (to_be_bytes k n) = n mod 256 ^ N.of_nat k.
Proof.
  revert n. induction k as [|k IH]; intros n.
  - simpl. now rewrite N.mod_1_r.
  - simpl to_be_bytes. rewrite from_be_bytes_snoc, IH, to_N_byte_of_N.
    rewrite Nat2N.inj_succ, N.pow_succ_r'.
    rewrite (N.Div0.mod_mul_r n 256 (256 ^ N.of_nat k)).
    lia.
Qed.

Lemma length_to_be_bytes k n : length (to_be_bytes k n) = k.
Proof.
  revert n. induction k; intros n; simpl; [done|].
  rewrite length_app, IHk. simpl. lia.
Qed.

Lemma to_N_inj x y : Byte.to_N x = Byte.to_N y -> x = y.
Proof.
  intros H. pose proof (Byte.of_to_N x) as Hx. pose proof (Byte.of_to_N y) as Hy.
  rewrite H in Hx. congruence.
Qed.

(** ** Lexicographic order *)

Lemma key_cmp_eq a b : key_cmp a b = Eq <-> a = b.
Proof.
  revert b. induction a as [|x a IH]; intros [|y b]; simpl; try easy.
  destruct (N.compare_spec (Byte.to_N x) (Byte.to_N y)) as [H|H|H].
  - apply to_N_inj in H. subst. rewrite IH. split; congruence.
  - split; [easy|]. intros E. injection E as -> ->. lia.
  - split; [easy|]. intros E. injection E as -> ->. lia.
Qed.

Lemma key_cmp_refl a : key_cmp a a = Eq.
Proof. now apply key_cmp_eq. Qed.

Lemma key_cmp_opp a b : key_cmp b a = CompOpp (key_cmp a b).
Proof.
  revert b. induction a as [|x a IH]; intros [|y b]; simpl; try easy.
  rewrite (N.compare_antisym (Byte.to_N x) (Byte.to_N y)).
  destruct (N.compare (Byte.to_N x) (Byte.to_N y)); simpl; [apply IH|done|done].
Qed.

Lemma key_cmp_lt_trans a b c :
  key_cmp a b = Lt -> key_cmp b c = Lt -> key_cmp a c = Lt.
Proof.
  revert b c. induction a as [|x a IH]; intros [|y b] [|z c]; simpl; try easy.
  destruct (N.compare_spec (Byte.to_N x) (Byte.to_N y)) as [H1|H1|H1];
  destruct (N.compare_spec (Byte.to_N y) (Byte.to_N z)) as [H2|H2|H2];
  destruct (N.compare_spec (Byte.to_N x) (Byte.to_N z)) as [H3|H3|H3];
  try easy; try lia. eauto.
Qed.

Lemma key_cmp_le_trans a b c :
  key_cmp a b <> Gt -> key_cmp b c <> Gt -> key_cmp a c <> Gt.
Proof.
  intros H1 H2.
  destruct (key_cmp a b) eqn:E1; [apply key_cmp_eq in E1; now subst|..|done].
  destruct (key_cmp b c) eqn:E2; [apply key_cmp_eq in E2; subst; now rewrite E1|..|done].
  now rewrite (key_cmp_lt_trans a b c).
Qed.

Lemma key_cmp_le_lt a b c :
  key_cmp a b <> Gt -> key_cmp b c = Lt -> key_cmp a c = Lt.
Proof.
  intros H1 H2. destruct (key_cmp a b) eqn:E1; [apply key_cmp_eq in E1; now subst| |done].
  eauto using key_cmp_lt_trans.
Qed.

Lemma key_cmp_lt_le a b c :
  key_cmp a b = Lt -> key_cmp b c <> Gt -> key_cmp a c = Lt.
Proof.
  intros H1 H2. destruct (key_cmp b c) eqn:E2; [apply key_cmp_eq in E2; now subst| |done].
  eauto using key_cmp_lt_trans.
Qed.

Lemma key_cmp_gt_lt a b : key_cmp a b = Gt <-> key_cmp b a = Lt.
Proof. rewrite (key_cmp_opp a b). destruct (key_cmp a b); simpl; split; congruence. Qed.

Lemma key_cmp_not_gt a b : key_cmp a b <> Gt <-> key_cmp b a <> Lt.
Proof. rewrite (key_cmp_opp a b). destruct (key_cmp a b); simpl; split; congruence. Qed.

(** ** The monad *)

Lemma bind_ok_inv {T A B} (m : M T A) (k : A -> M T B) t w b t2 w2 :
  bind m k t w = (Ok b, t2, w2) ->
  exists a t1 w1, m t w = (Ok a, t1, w1) /\ k a t1 w1 = (Ok b, t2, w2).
Proof.
  unfold bind. destruct (m t w) as [[[a|e] t1] w1]; intros H; [eauto|discriminate].
Qed.

Lemma bind_ok {T A B} (m : M T A) (k : A -> M T B) t w a t1 w1 :
  m t w = (Ok a, t1, w1) -> bind m k t w = k a t1 w1.
Proof. unfold bind. now intros ->. Qed.

Lemma try_io_ok {T A} (m : M T A) t w a t' w' :
  m t w = (Ok a, t', w') -> try_io m t w = (Ok (Some a), t', w').
Proof. unfold try_io. now intros ->. Qed.

Lemma try_io_eio {T A} (m : M T A) t w e t' w' :
  m t w = (Err (EIo e), t', w') -> try_io m t w = (Ok None, t', w').
Proof. unfold try_io. now intros ->. Qed.

Lemma bind_err {T A B} (m : M T A) (k : A -> M T B) t w e t1 w1 :
  m t w = (Err e, t1, w1) -> bind m k t w = (Err e, t1, w1).
Proof. unfold bind. now intros ->. Qed.

Lemma on_handle_ok_inv {A} (m : M File A) f w a f' w' :
  on_handle m f w = (Ok a, f', w') ->
  exists h', m (sf_file f) w = (Ok a, h', w') /\ f' = set_file h' f.
Proof.
  unfold on_handle, zoom. destruct (m (sf_file f) w) as [[r h'] w1].
  intros H. injection H as -> <- ->. eauto.
Qed.

Lemma on_handle_run {A} (m : M File A) f w r h' w' :
  m (sf_file f) w = (r, h', w') -> on_handle m f w = (r, set_file h' f, w').
Proof. unfold on_handle, zoom. now intros ->. Qed.

Ltac inv_bind H :=
  let a := fresh "a" in let t := fresh "t" in let w := fresh "w" in
  let H1 := fresh "H" in
  apply bind_ok_inv in H; destruct H as (a & t & w & H1 & H).

(** ** The world *)

(** [w'] is [w] with the file at [p] holding [c]. *)
Definition wupd (p : path) (c : bytes) (w w' : World) : Prop :=
  w_fs w' p = Some c /\ (forall q, q <> p -> w_fs w' q = w_fs w q) /\
  w_dirs w' = w_dirs w /\ w_fault w' = w_fault w.

(** [w'] is [w] up to the clock. *)
Definition wsame (w w' : World) : Prop :=
  w_fs w' = w_fs w /\ w_dirs w' = w_dirs w /\ w_fault w' = w_fault w.

Lemma wsame_refl w : wsame w w.
Proof. done. Qed.

Lemma wsame_trans w1 w2 w3 : wsame w1 w2 -> wsame w2 w3 -> wsame w1 w3.
Proof. unfold wsame. intros (A1 & B1 & C1) (A2 & B2 & C2). split_and!; congruence. Qed.

Lemma wupd_trans p c1 c2 w1 w2 w3 : wupd p c1 w1 w2 -> wupd p c2 w2 w3 -> wupd p c2 w1 w3.
Proof.
  unfold wupd. intros (A1 & H1 & B1 & C1) (A2 & H2 & B2 & C2). split_and!; try congruence.
  intros q Hq. rewrite H2, H1; auto.
Qed.

Lemma wsame_wupd p c w1 w2 w3 : wsame w1 w2 -> wupd p c w2 w3 -> wupd p c w1 w3.
Proof.
  unfold wsame, wupd. intros (E & B1 & C1) (A2 & H2 & B2 & C2). split_and!; try congruence.
  intros q Hq. rewrite H2, E; auto.
Qed.

Lemma wupd_wsame p c w1 w2 w3 : wupd p c w1 w2 -> wsame w2 w3 -> wupd p c w1 w3.
Proof.
  unfold wsame, wupd. intros (A2 & H2 & B2 & C2) (E & B1 & C1). split_and!; try congruence.
  intros q Hq. rewrite E, H2; auto.
Qed.

Lemma ff_wsame w w' : ff w -> wsame w w' -> ff w'.
Proof. intros H (_ & _ & E) n. now rewrite E. Qed.

Lemma ff_wupd p c w w' : ff w -> wupd p c w w' -> ff w'.
Proof. intros H (_ & _ & _ & E) n. now rewrite E. Qed.

Lemma syscall_ff {A} (f : World -> res A * World) w : ff w -> syscall f w = f (tick w).
Proof. intros H. unfold syscall. now rewrite H. Qed.

Lemma syscall_ok_inv {A} (f : World -> res A * World) w a w' :
  syscall f w = (Ok a, w') -> f (tick w) = (Ok a, w').
Proof. unfold syscall. destruct (w_fault w (w_clock w)); [discriminate|done]. Qed.

(** ** Appending and positional reads *)

Lemma write_at_end c bs : write_at c (length c) bs = c ++ bs.
Proof.
  unfold write_at. rewrite take_ge by lia. rewrite Nat.sub_diag. simpl.
  rewrite drop_ge by lia. now rewrite app_nil_r.
Qed.

Lemma write_all_inv bs h w c r h' w' :
  w_fs w (f_path h) = Some c -> f_pos h = N.of_nat (length c) ->
  write_all bs h w = (r, h', w') ->
  (ff w -> r = Ok tt) /\
  (r = Ok tt -> h' = mkFile (f_path h) (f_pos h + N.of_nat (length bs)) /\
                wupd (f_path h) (c ++ bs) w w').
Proof.
  intros Hc Hpos. destruct bs as [|x bs'].
  - simpl. intros H. injection H as <- <- <-. split; [done|]. intros _.
    rewrite N.add_0_r, app_nil_r. split; [now destruct h|].
    split_and!; auto.
  - unfold write_all, bind, get, liftW, put.
    unfold syscall. destruct (w_fault w (w_clock w)) eqn:F.
    + intros H. injection H as <- <- <-. split; [|discriminate].
      intros Hff. now rewrite Hff in F.
    + intros H. injection H as <- <- <-. split; [done|]. intros _. split; [done|].
      unfold contents. cbn [w_fs tick]. rewrite Hc, Hpos. simpl. rewrite Nat2N.id, write_at_end.
      unfold wupd, set_fs. simpl. split_and!; auto.
      * now rewrite decide_True.
      * intros q Hq. now rewrite decide_False.
Qed.

Lemma read_exact_at_inv n off h w r h' w' :
  read_exact_at n off h w = (r, h', w') ->
  h' = h /\ wsame w w' /\
  (forall bs, r = Ok bs ->
     bs = take (N.to_nat n) (drop (N.to_nat off) (contents w h)) /\
     (n = 0 \/ off + n <= N.of_nat (length (contents w h)))) /\
  (ff w -> n <> 0 -> off + n <= N.of_nat (length (contents w h)) ->
     r = Ok (take (N.to_nat n) (drop (N.to_nat off) (contents w h)))) /\
  (ff w -> n <> 0 -> N.of_nat (length (contents w h)) < off + n ->
     r = Err (EIo UnexpectedEof)).
Proof.
  unfold read_exact_at. destruct (N.eqb_spec n 0) as [->|Hn].
  - unfold ret. intros H. injection H as <- <- <-.
    split_and!; try done. intros bs Hbs. injection Hbs as <-. auto.
  - unfold bind, get, liftW, syscall.
    destruct (w_fault w (w_clock w)) eqn:F.
    + intros H. injection H as <- <- <-. split_and!; try done.
      all: intros Hff; now rewrite Hff in F.
    + unfold contents at 1. simpl.
      destruct (N.leb_spec (off + n) (N.of_nat (length (default [] (w_fs w (f_path h))))))
        as [Hle|Hlt];
        intros H; injection H as <- <- <-; split_and!; try done.
      * intros bs Hbs. injection Hbs as <-. auto.
      * intros _ _ Hlt. unfold contents in Hlt. lia.
      * intros _ _ Hle. unfold contents in Hle. lia.
Qed.

(** A write through the handle of a [StoreFile] positioned at the end. *)
Lemma bind_write_ff {B} bs (k : unit -> M StoreFile B) f w c :
  ff w -> w_fs w (f_path (sf_file f)) = Some c ->
  f_pos (sf_file f) = N.of_nat (length c) ->
  exists w1, wupd (f_path (sf_file f)) (c ++ bs) w w1 /\
    bind (on_handle (write_all bs)) k f w =
    k tt (set_file (mkFile (f_path (sf_file f)) (N.of_nat (length (c ++ bs)))) f) w1.
Proof.
  intros Hff Hc Hpos.
  destruct (write_all bs (sf_file f) w) as [[r h1] w1] eqn:E.
  destruct (write_all_inv _ _ _ _ _ _ _ Hc Hpos E) as [Hok Hres].
  specialize (Hok Hff) as ->. destruct (Hres eq_refl) as [-> U].
  exists w1. split; [done|].
  erewrite bind_ok by (apply on_handle_run; exact E).
  rewrite Hpos, length_app, Nat2N.inj_add. done.
Qed.

Lemma bind_write_ok_inv {B} bs (k : unit -> M StoreFile B) f w c b f2 w2 :
  w_fs w (f_path (sf_file f)) = Some c ->
  f_pos (sf_file f) = N.of_nat (length c) ->
  bind (on_handle (write_all bs)) k f w = (Ok b, f2, w2) ->
  exists w1, wupd (f_path (sf_file f)) (c ++ bs) w w1 /\
    k tt (set_file (mkFile (f_path (sf_file f)) (N.of_nat (length (c ++ bs)))) f) w1
    = (Ok b, f2, w2).
Proof.
  intros Hc Hpos H. inv_bind H.
  apply on_handle_ok_inv in H0 as (h1 & E & ->). destruct a.
  destruct (write_all_inv _ _ _ _ _ _ _ Hc Hpos E) as [_ Hres].
  destruct (Hres eq_refl) as [-> U].
  exists w0. split; [done|]. rewrite length_app, Nat2N.inj_add, <- Hpos. done.
Qed.

Lemma wupd_at p c w w' : wupd p c w w' -> w_fs w' p = Some c.
Proof. now intros []. Qed.

Ltac write_ff :=
  match goal with
  | Hff : ff ?w, Hc : w_fs ?w _ = Some ?c |- context [bind (on_handle (write_all ?bs)) ?k ?f ?w] =>
      let w1 := fresh "w" in let U := fresh "U" in let E := fresh "E" in
      destruct (bind_write_ff bs k f w c Hff Hc
                  ltac:(first [assumption | reflexivity])) as (w1 & U & E);
      rewrite E; clear E;
      let Hff1 := fresh "Hff" in let Hc1 := fresh "Hc" in
      pose proof (ff_wupd _ _ _ _ Hff U) as Hff1;
      pose proof (wupd_at _ _ _ _ U) as Hc1;
      cbn [sf_file f_path set_file] in U, Hc1
  end.

Lemma length_encode r : length (encode r) = rlen r.
Proof.
  destruct r; unfold encode, rlen; rewrite !length_app, !length_to_be_bytes; lia.
Qed.

Lemma rec_ok_mod r :
  rec_ok r ->
  N.of_nat (length (rkey r)) mod 2 ^ 32 = N.of_nat (length (rkey r)) /\
  (forall v, rval r = Some v -> N.of_nat (length v) mod 2 ^ 32 = N.of_nat (length v)).
Proof.
  intros [Hk Hv]. split; [now apply N.mod_small|].
  destruct r; simpl; intros v' E; injection E as <- || discriminate. now apply N.mod_small.
Qed.

(** The entry [StoreFile::insert] returns, whatever the world. *)
Lemma insert_entry key val f w e f' w' :
  StoreFile.insert key val f w = (Ok e, f', w') ->
  let key_len := N.of_nat (length key) mod 2 ^ 32 in
  let val_len := N.of_nat (length val) mod 2 ^ 32 in
  e = mkIndexEntry (sf_id f) (sf_offset f + 16 + key_len) val_len /\
  sf_id f' = sf_id f /\ sf_offset f' = sf_offset f + 16 + key_len + val_len /\
  sf_peek f' = sf_peek f.
Proof.
  unfold StoreFile.insert. intros H.
  do 6 (inv_bind H; apply on_handle_ok_inv in H0 as (? & _ & ->)).
  unfold bind, modify, get, ret in H. simpl in H. injection H as <- <- <-.
  simpl. generalize (N.of_nat (length key) mod 2 ^ 32) (N.of_nat (length val) mod 2 ^ 32).
  intros kl vl. split_and!; try done; [f_equal|]; lia.
Qed.

Lemma insert_ff key val f w c :
  ff w -> w_fs w (f_path (sf_file f)) = Some c ->
  f_pos (sf_file f) = N.of_nat (length c) ->
  exists w', wupd (f_path (sf_file f)) (c ++ encode (Insert key val)) w w' /\
    StoreFile.insert key val f w =
      (Ok (mkIndexEntry (sf_id f)
             (sf_offset f + 16 + N.of_nat (length key) mod 2 ^ 32)
             (N.of_nat (length val) mod 2 ^ 32)),
       mkStoreFile (sf_id f)
         (mkFile (f_path (sf_file f)) (N.of_nat (length (c ++ encode (Insert key val)))))
         (sf_offset f + (8 + 2 * 4 + N.of_nat (length key) mod 2 ^ 32
                                     + N.of_nat (length val) mod 2 ^ 32))
         (sf_peek f),
       w').
Proof.
  intros Hff Hc Hpos. unfold StoreFile.insert. cbv zeta.
  do 5 write_ff. unfold flush.
  rewrite !(bind_ok _ _ _ _ tt _ _ (on_handle_run _ _ _ _ _ _ eq_refl)).
  eexists. split; [|].
  2:{ unfold bind, modify, get, ret, set_offset, set_file.
      cbn [sf_id sf_offset sf_file sf_peek f_path f_pos].
      rewrite <- !app_assoc. unfold encode.
      generalize (N.of_nat (length key) mod 2 ^ 32) (N.of_nat (length val) mod 2 ^ 32).
      intros kl vl. do 3 f_equal. f_equal. lia. }
  do 4 (eapply wupd_trans; [eassumption|]).
  unfold encode. rewrite !app_assoc. eassumption.
Qed.

Lemma remove_ff key f w c :
  ff w -> w_fs w (f_path (sf_file f)) = Some c ->
  f_pos (sf_file f) = N.of_nat (length c) ->
  exists w', wupd (f_path (sf_file f)) (c ++ encode (Remove key)) w w' /\
    StoreFile.remove key f w =
      (Ok tt,
       mkStoreFile (sf_id f)
         (mkFile (f_path (sf_file f)) (N.of_nat (length (c ++ encode (Remove key)))))
         (sf_offset f + (8 + 4 + N.of_nat (length key) mod 2 ^ 32))
         (sf_peek f),
       w').
Proof.
  intros Hff Hc Hpos. unfold StoreFile.remove. cbv zeta.
  do 3 write_ff. unfold flush.
  rewrite !(bind_ok _ _ _ _ tt _ _ (on_handle_run _ _ _ _ _ _ eq_refl)).
  eexists. split; [|].
  2:{ unfold modify, set_offset, set_file.
      cbn [sf_id sf_offset sf_file sf_peek f_path f_pos].
      rewrite <- !app_assoc. done. }
  do 2 (eapply wupd_trans; [eassumption|]).
  unfold encode. rewrite !app_assoc. eassumption.
Qed.

(** The Appending state of a log file (nothing peeked). *)
Lemma at_end_fields id p c :
  sf_id (at_end id p c) = id /\ f_path (sf_file (at_end id p c)) = p /\
  f_pos (sf_file (at_end id p c)) = N.of_nat (length c) /\
  sf_offset (at_end id p c) = N.of_nat (length c) /\ sf_peek (at_end id p c) = None.
Proof. done. Qed.

Lemma rec_ok_insert k v :
  rec_ok (Insert k v) ->
  N.of_nat (length k) mod 2 ^ 32 = N.of_nat (length k) /\
  N.of_nat (length v) mod 2 ^ 32 = N.of_nat (length v).
Proof. intros [Hk Hv]. simpl in *. split; now apply N.mod_small. Qed.

Lemma rec_ok_remove k :
  rec_ok (Remove k) -> N.of_nat (length k) mod 2 ^ 32 = N.of_nat (length k).
Proof. intros [Hk _]. simpl in *. now apply N.mod_small. Qed.

Lemma insert_at_end id p c key val w :
  ff w -> w_fs w p = Some c -> rec_ok (Insert key val) ->
  exists w', wupd p (c ++ encode (Insert key val)) w w' /\
    StoreFile.insert key val (at_end id p c) w =
      (Ok (mkIndexEntry id (N.of_nat (length c) + 16 + N.of_nat (length key))
                        (N.of_nat (length val))),
       at_end id p (c ++ encode (Insert key val)), w').
Proof.
  intros Hff Hc Hok. destruct (rec_ok_insert _ _ Hok) as [Ek Ev].
  destruct (insert_ff key val (at_end id p c) w c Hff Hc eq_refl) as (w' & U & E).
  exists w'. split; [done|]. rewrite E, Ek, Ev. unfold at_end. cbn [sf_id sf_file sf_offset sf_peek f_path f_pos].
  do 3 f_equal. rewrite length_app, length_encode. unfold rlen. lia.
Qed.

Lemma remove_at_end id p c key w :
  ff w -> w_fs w p = Some c -> rec_ok (Remove key) ->
  exists w', wupd p (c ++ encode (Remove key)) w w' /\
    StoreFile.remove key (at_end id p c) w = (Ok tt, at_end id p (c ++ encode (Remove key)), w').
Proof.
  intros Hff Hc Hok. pose proof (rec_ok_remove _ Hok) as Ek.
  destruct (remove_ff key (at_end id p c) w c Hff Hc eq_refl) as (w' & U & E).
  exists w'. split; [done|]. rewrite E, Ek. unfold at_end. cbn [sf_id sf_file sf_offset sf_peek f_path f_pos].
  do 3 f_equal. rewrite length_app, length_encode. unfold rlen. lia.
Qed.

Lemma exec_at_end id p c r w :
  ff w -> w_fs w p = Some c -> rec_ok r ->
  exists w', wupd p (c ++ encode r) w w' /\
    StoreFile.exec r (at_end id p c) w = (Ok tt, at_end id p (c ++ encode r), w').
Proof.
  intros Hff Hc Hok. destruct r as [k v|k]; simpl.
  - destruct (insert_at_end id p c k v w Hff Hc Hok) as (w' & U & E).
    exists w'. split; [done|]. now rewrite (bind_ok _ _ _ _ _ _ _ E).
  - now apply remove_at_end.
Qed.

Lemma wupd_nil p c w : w_fs w p = Some c -> wupd p c w w.
Proof. intros H. split_and!; auto. Qed.

Lemma encode_log_cons r l : encode_log (r :: l) = encode r ++ encode_log l.
Proof. done. Qed.

Lemma encode_log_app l1 l2 : encode_log (l1 ++ l2) = encode_log l1 ++ encode_log l2.
Proof. unfold encode_log. now rewrite map_app, concat_app. Qed.

Lemma mapM_exec_at_end id p c l w :
  ff w -> w_fs w p = Some c -> Forall rec_ok l ->
  exists w', wupd p (c ++ encode_log l) w w' /\
    mapM_ StoreFile.exec l (at_end id p c) w = (Ok tt, at_end id p (c ++ encode_log l), w').
Proof.
  revert c w. induction l as [|r l IH]; intros c w Hff Hc Hok; simpl.
  - exists w. rewrite app_nil_r. split; [now apply wupd_nil|done].
  - inversion Hok as [|? ? Hr Hl]; subst.
    destruct (exec_at_end id p c r w Hff Hc Hr) as (w1 & U1 & E1).
    rewrite (bind_ok _ _ _ _ _ _ _ E1).
    destruct (IH (c ++ encode r) w1 (ff_wupd _ _ _ _ Hff U1) (wupd_at _ _ _ _ U1) Hl)
      as (w2 & U2 & E2).
    exists w2. rewrite encode_log_cons, app_assoc. split; [|done].
    eapply wupd_trans; eassumption.
Qed.

(** ** Decoding records *)

Lemma drop_adv (C a X : bytes) off m :
  drop (N.to_nat off) C = a ++ X -> m = N.of_nat (length a) ->
  drop (N.to_nat (off + m)) C = X.
Proof.
  intros H ->. rewrite N2Nat.inj_add, Nat2N.id, <- drop_drop, H.
  now rewrite drop_app_length.
Qed.

Lemma read_at_ok n off h w (C bs rest : bytes) :
  ff w -> w_fs w (f_path h) = Some C ->
  drop (N.to_nat off) C = bs ++ rest -> n = N.of_nat (length bs) ->
  exists w', wsame w w' /\ read_exact_at n off h w = (Ok bs, h, w').
Proof.
  intros Hff Hc D ->. destruct bs as [|x bs'].
  - exists w. split; [apply wsame_refl|]. done.
  - destruct (read_exact_at (N.of_nat (length (x :: bs'))) off h w) as [[r h'] w'] eqn:E.
    apply read_exact_at_inv in E as (-> & Ws & _ & Hok & _).
    exists w'. split; [done|].
    assert (L : length (drop (N.to_nat off) C) = S (length bs' + length rest)).
    { rewrite D. simpl. rewrite length_app. lia. }
    rewrite length_drop in L.
    unfold contents in Hok. rewrite Hc in Hok. simpl in Hok.
    rewrite Hok; [|done|simpl; lia|simpl; lia].
    rewrite D. rewrite take_app_length'; [done|simpl; lia].
Qed.

Lemma read_at_eof n off h w (C : bytes) :
  ff w -> w_fs w (f_path h) = Some C -> n <> 0 -> N.of_nat (length C) < off + n ->
  exists w', wsame w w' /\ read_exact_at n off h w = (Err (EIo UnexpectedEof), h, w').
Proof.
  intros Hff Hc Hn Hlt.
  destruct (read_exact_at n off h w) as [[r h'] w'] eqn:E.
  apply read_exact_at_inv in E as (-> & Ws & _ & _ & Heof).
  exists w'. split; [done|]. unfold contents in Heof. rewrite Hc in Heof.
  now rewrite Heof.
Qed.

Lemma set_file_same f : set_file (sf_file f) f = f.
Proof. now destruct f. Qed.

Lemma on_handle_same {A} (m : M File A) f w r w' :
  m (sf_file f) w = (r, sf_file f, w') -> on_handle m f w = (r, f, w').
Proof. intros E. rewrite (on_handle_run _ _ _ _ _ _ E). now rewrite set_file_same. Qed.

Lemma bind_get {T B} (k : T -> M T B) t w : bind get k t w = k t t w.
Proof. done. Qed.

Lemma wsame_at w w' p c : wsame w w' -> w_fs w p = Some c -> w_fs w' p = Some c.
Proof. intros (E & _) H. now rewrite E. Qed.

(** A positional read through a [StoreFile]. *)
Ltac rd D :=
  match goal with
  | Hff : ff ?w, Hc : w_fs ?w _ = Some ?C |- context [bind (on_handle (read_exact_at ?n ?o)) ?k ?f ?w] =>
      let w1 := fresh "w" in let W := fresh "W" in let E := fresh "E" in
      destruct (read_at_ok n o (sf_file f) w C _ _ Hff Hc D) as (w1 & W & E);
      [try (rewrite ?length_to_be_bytes; reflexivity)
      |rewrite (bind_ok _ _ _ _ _ _ _ (on_handle_same _ _ _ _ _ E)); clear E;
       let Hff1 := fresh "Hff" in let Hc1 := fresh "Hc" in
       pose proof (ff_wsame _ _ Hff W) as Hff1;
       pose proof (wsame_at _ _ _ _ W Hc) as Hc1]
  end.

Lemma from_be_4 x : x < 2 ^ 32 -> from_be_bytes (to_be_bytes 4 x) = x.
Proof. intros H. rewrite from_to_be_bytes. now apply N.mod_small. Qed.

Lemma from_be_8 x : x < 2 ^ 64 -> from_be_bytes (to_be_bytes 8 x) = x.
Proof. intros H. rewrite from_to_be_bytes. now apply N.mod_small. Qed.

Lemma read_record_ok f w (C rest : bytes) r :
  ff w -> w_fs w (f_path (sf_file f)) = Some C -> sf_peek f = None ->
  drop (N.to_nat (sf_offset f)) C = encode r ++ rest -> rec_ok r -> fits r ->
  exists w', wsame w w' /\
    StoreFile.read_record f w = (Ok r, set_offset (sf_offset f + N.of_nat (rlen r)) f, w').
Proof.
  intros Hff Hc Hp D Hok Hfit. unfold StoreFile.read_record. rewrite bind_get, Hp. cbv zeta.
  destruct r as [k v|k]; unfold encode in D; rewrite <- !app_assoc in D.
  - destruct (rec_ok_insert _ _ Hok) as [Ek Ev]. rewrite Ek, Ev in D.
    rd D.
    replace (from_be_bytes (to_be_bytes 8 INSERT)) with 1 by reflexivity.
    cbn [N.eqb INSERT Pos.eqb].
    pose proof (drop_adv _ _ _ _ 8 D eq_refl) as D8.
    rd D8.
    pose proof (drop_adv _ _ _ _ 4 D8 eq_refl) as D12.
    rewrite <- N.add_assoc in D12. cbn [N.add Pos.add Pos.add_carry] in D12.
    rd D12.
    pose proof (drop_adv _ _ _ _ 4 D12 eq_refl) as D16.
    rewrite <- N.add_assoc in D16. cbn [N.add Pos.add Pos.add_carry] in D16.
    destruct Hok as [Hk Hv]; simpl in Hk, Hv, Hfit.
    rewrite !from_be_4 by done.
    rewrite (N.mod_small _ _ Hfit).
    rewrite app_assoc in D16.
    rd D16; [rewrite length_app; lia|].
    unfold bind, modify, ret. rewrite Nat2N.id, take_app_length, drop_app_length.
    rewrite (proj2 (N.leb_le _ _)) by (rewrite length_app; lia).
    exists w3. split; [eauto using wsame_trans|].
    do 3 f_equal. unfold rlen. lia.
  - rewrite (rec_ok_remove _ Hok) in D.
    rd D.
    replace (from_be_bytes (to_be_bytes 8 REMOVE)) with 2 by reflexivity.
    pose proof (drop_adv _ _ _ _ 8 D eq_refl) as D8.
    rd D8.
    pose proof (drop_adv _ _ _ _ 4 D8 eq_refl) as D12.
    rewrite <- N.add_assoc in D12. cbn [N.add Pos.add Pos.add_carry] in D12.
    destruct Hok as [Hk _]; simpl in Hk.
    rewrite !from_be_4 by done. cbn [N.eqb INSERT REMOVE Pos.eqb].
    rd D12.
    unfold bind, modify, ret.
    exists w2. split; [eauto using wsame_trans|].
    do 3 f_equal. unfold rlen. lia.
Qed.


Lemma read_record_eof f w (C : bytes) :
  ff w -> w_fs w (f_path (sf_file f)) = Some C -> sf_peek f = None ->
  N.of_nat (length C) <= sf_offset f ->
  exists w', wsame w w' /\ StoreFile.read_record f w = (Err (EIo UnexpectedEof), f, w').
Proof.
  intros Hff Hc Hp Hle. unfold StoreFile.read_record. rewrite bind_get, Hp. cbv zeta.
  destruct (read_at_eof 8 (sf_offset f) (sf_file f) w C Hff Hc ltac:(done) ltac:(lia))
    as (w' & W & E).
  exists w'. split; [done|].
  now rewrite (bind_err _ _ _ _ _ _ _ (on_handle_same _ _ _ _ _ E)).
Qed.

Lemma read_record_overflow f w (C rest : bytes) k v :
  ff w -> w_fs w (f_path (sf_file f)) = Some C -> sf_peek f = None ->
  drop (N.to_nat (sf_offset f)) C = encode (Insert k v) ++ rest ->
  rec_ok (Insert k v) -> ~ fits (Insert k v) ->
  exists f' w', StoreFile.read_record f w = (Err EPanic, f', w').
Proof.
  intros Hff Hc Hp D Hok Hfit. unfold StoreFile.read_record. rewrite bind_get, Hp. cbv zeta.
  unfold encode in D; rewrite <- !app_assoc in D.
  destruct (rec_ok_insert _ _ Hok) as [Ek Ev]. rewrite Ek, Ev in D.
  rd D.
  replace (from_be_bytes (to_be_bytes 8 INSERT)) with 1 by reflexivity.
  cbn [N.eqb INSERT Pos.eqb].
  pose proof (drop_adv _ _ _ _ 8 D eq_refl) as D8.
  rd D8.
  pose proof (drop_adv _ _ _ _ 4 D8 eq_refl) as D12.
  rewrite <- N.add_assoc in D12. cbn [N.add Pos.add Pos.add_carry] in D12.
  rd D12.
  pose proof (drop_adv _ _ _ _ 4 D12 eq_refl) as D16.
  rewrite <- N.add_assoc in D16. cbn [N.add Pos.add Pos.add_carry] in D16.
  destruct Hok as [Hk Hv]; simpl in Hk, Hv, Hfit.
  rewrite !from_be_4 by done.
  set (kl := N.of_nat (length k)) in *. set (vl := N.of_nat (length v)) in *.
  assert (Hm : (kl + vl) mod 2 ^ 32 = kl + vl - 2 ^ 32).
  { rewrite N.Div0.mod_eq.
    assert (Hd : (kl + vl) / 2 ^ 32 = 1).
    { symmetry. apply N.div_unique with (kl + vl - 2 ^ 32); lia. }
    rewrite Hd. lia. }
  assert (Hkv : k ++ v ++ rest = take (N.to_nat ((kl + vl) mod 2 ^ 32)) k ++
                 (drop (N.to_nat ((kl + vl) mod 2 ^ 32)) k ++ v ++ rest)).
  { now rewrite (app_assoc (take _ k)), take_drop. }
  rewrite Hkv in D16.
  rd D16.
  { rewrite length_take. unfold kl in *. lia. }
  unfold bind, modify, throw.
  rewrite (proj2 (N.leb_gt _ _)); [eauto|].
  rewrite length_take. unfold kl in *. lia.
Qed.

Lemma read_record_peek f w r :
  sf_peek f = Some r ->
  StoreFile.read_record f w =
    (Ok r, set_peek None (set_offset (sf_offset f + N.of_nat (rlen r)) f), w).
Proof. intros Hp. unfold StoreFile.read_record. now rewrite bind_get, Hp. Qed.

Lemma peek_record_peeked f w r :
  sf_peek f = Some r -> StoreFile.peek_record f w = (Ok r, f, w).
Proof. intros Hp. unfold StoreFile.peek_record. now rewrite bind_get, Hp. Qed.

Lemma peek_record_ok f w (C rest : bytes) r :
  ff w -> w_fs w (f_path (sf_file f)) = Some C -> sf_peek f = None ->
  drop (N.to_nat (sf_offset f)) C = encode r ++ rest -> rec_ok r -> fits r ->
  exists w', wsame w w' /\ StoreFile.peek_record f w = (Ok r, set_peek (Some r) f, w').
Proof.
  intros Hff Hc Hp D Hok Hfit. unfold StoreFile.peek_record. rewrite bind_get, Hp.
  destruct (read_record_ok f w C rest r Hff Hc Hp D Hok Hfit) as (w' & W & E).
  exists w'. split; [done|]. rewrite (bind_ok _ _ _ _ _ _ _ E).
  unfold bind, modify, ret. do 3 f_equal. destruct f; unfold set_peek, set_offset; simpl in *.
  f_equal. lia.
Qed.

Lemma peek_record_eof f w (C : bytes) :
  ff w -> w_fs w (f_path (sf_file f)) = Some C -> sf_peek f = None ->
  N.of_nat (length C) <= sf_offset f ->
  exists w', wsame w w' /\ StoreFile.peek_record f w = (Err (EIo UnexpectedEof), f, w').
Proof.
  intros Hff Hc Hp Hle. unfold StoreFile.peek_record. rewrite bind_get, Hp.
  destruct (read_record_eof f w C Hff Hc Hp Hle) as (w' & W & E).
  exists w'. split; [done|]. now rewrite (bind_err _ _ _ _ _ _ _ E).
Qed.

(** ** Sorting, replay and the duplicate collapser *)

Lemma kf_insert_sorted k r l :
  kf k (insert_sorted r l) = kf k (r :: l).
Proof.
  unfold kf. induction l as [|x l IH]; simpl; [done|].
  destruct (key_cmp (rkey r) (rkey x)) eqn:E; try done.
  rewrite !filter_cons. rewrite IH. rewrite filter_cons.
  destruct (decide (rkey x = k)) as [Hx|Hx]; destruct (decide (rkey r = k)) as [Hr|Hr]; try done.
  subst. rewrite Hr, key_cmp_refl in E. discriminate.
Qed.

Lemma kf_sort k l : kf k (sort_by_key l) = kf k l.
Proof.
  induction l as [|r l IH]; simpl; [done|].
  rewrite kf_insert_sorted. unfold kf in *. rewrite !filter_cons. now rewrite IH.
Qed.

Lemma insert_sorted_perm r l : insert_sorted r l ≡ₚ r :: l.
Proof.
  induction l as [|x l IH]; simpl; [done|].
  destruct (key_cmp (rkey r) (rkey x)); try done.
  rewrite IH. apply Permutation_swap.
Qed.

Lemma sort_perm l : sort_by_key l ≡ₚ l.
Proof.
  induction l as [|r l IH]; simpl; [done|]. now rewrite insert_sorted_perm, IH.
Qed.

Lemma insert_sorted_sorted r l :
  StronglySorted kle l -> StronglySorted kle (insert_sorted r l).
Proof.
  induction l as [|x l IH]; intros H; simpl.
  - repeat constructor.
  - inversion H as [|? ? Hl Hx]; subst.
    destruct (key_cmp (rkey r) (rkey x)) eqn:E.
    + constructor; [done|]. constructor.
      * unfold kle. now rewrite E.
      * apply Forall_forall. intros y Hy. apply key_cmp_eq in E. unfold kle. rewrite E.
        rewrite Forall_forall in Hx. now apply Hx.
    + constructor; [done|]. constructor.
      * unfold kle. now rewrite E.
      * apply Forall_forall. intros y Hy. unfold kle.
        rewrite Forall_forall in Hx. specialize (Hx y Hy). unfold kle in Hx.
        now rewrite (key_cmp_lt_le _ _ _ E Hx).
    + constructor; [now apply IH|].
      apply Forall_forall. intros y Hy.
      rewrite (insert_sorted_perm r l) in Hy.
      apply elem_of_cons in Hy as [->|Hy].
      * unfold kle. apply key_cmp_gt_lt in E. now rewrite E.
      * rewrite Forall_forall in Hx. now apply Hx.
Qed.

Lemma sort_sorted l : StronglySorted kle (sort_by_key l).
Proof. induction l; simpl; [constructor|]. now apply insert_sorted_sorted. Qed.

Lemma model_fold l k acc :
  fold_left (mstep k) l acc = fold_left (mstep k) (kf k l) acc.
Proof.
  revert acc. induction l as [|r l IH]; intros acc; simpl; [done|].
  unfold kf in *. rewrite filter_cons. destruct (decide (rkey r = k)) as [H|H].
  - simpl. apply IH.
  - rewrite IH. f_equal. unfold mstep. now rewrite decide_False.
Qed.

Lemma model_kf l k : model l k = model (kf k l) k.
Proof. apply (model_fold l k None). Qed.

Lemma model_ext P L : (forall k, kf k P = kf k L) -> forall k, model P k = model L k.
Proof. intros H k. now rewrite model_kf, H, <- model_kf. Qed.

Lemma model_snoc l r k :
  model (l ++ [r]) k = if decide (rkey r = k) then rval r else model l k.
Proof. unfold model. now rewrite fold_left_app. Qed.

Lemma elookup_snoc E k' v k :
  elookup (E ++ [(k', v)]) k = if decide (k' = k) then Some v else elookup E k.
Proof. unfold elookup. now rewrite fold_left_app. Qed.

Lemma model_pairs E k : model (map pair_insert E) k = elookup E k.
Proof.
  induction E as [|kv E IH] using rev_ind; [done|].
  rewrite map_app. cbn [map]. rewrite model_snoc, IH. destruct kv as [k' v]. now rewrite elookup_snoc.
Qed.

Lemma StronglySorted_snoc {A} (R : A -> A -> Prop) l x :
  StronglySorted R l -> (forall y, y ∈ l -> R y x) -> StronglySorted R (l ++ [x]).
Proof.
  induction l as [|y l IH]; intros H Hx; simpl.
  - repeat constructor.
  - inversion H as [|? ? Hl Hy]; subst. constructor.
    + apply IH; [done|]. intros z Hz. apply Hx. now apply elem_of_cons; right.
    + apply Forall_app; split; [done|]. constructor; [|done]. apply Hx. apply elem_of_cons; auto.
Qed.

Lemma StronglySorted_app_inv {A} (R : A -> A -> Prop) l1 l2 :
  StronglySorted R (l1 ++ l2) ->
  StronglySorted R l1 /\ StronglySorted R l2 /\ (forall x y, x ∈ l1 -> y ∈ l2 -> R x y).
Proof.
  induction l1 as [|x l1 IH]; simpl; intros H.
  - split_and!; [constructor|done|]. intros x y Hx. inversion Hx.
  - inversion H as [|? ? Hl Hx]; subst. destruct (IH Hl) as (A1 & A2 & A3).
    rewrite Forall_app in Hx. destruct Hx as [Hx1 Hx2].
    split_and!; [constructor; done|done|].
    intros a b Ha Hb. apply elem_of_cons in Ha as [->|Ha]; [|auto].
    rewrite Forall_forall in Hx2. auto.
Qed.

Lemma elookup_lt E k :
  (forall kv, kv ∈ E -> key_cmp kv.1 k = Lt) -> elookup E k = None.
Proof.
  induction E as [|kv E IH] using rev_ind; intros H; [done|].
  destruct kv as [k' v]. rewrite elookup_snoc.
  rewrite decide_False.
  - apply IH. intros kv Hkv. apply H. apply elem_of_app; auto.
  - intros ->. assert (Hk : key_cmp k k = Lt).
    { apply (H (k, v)). apply elem_of_app; right; constructor. }
    now rewrite key_cmp_refl in Hk.
Qed.

Lemma last_snoc_inv {A} (P : list A) l : last P = Some l -> exists Pl, P = Pl ++ [l].
Proof. apply last_Some. Qed.

Lemma cinv_step P s r :
  cinv P s -> (forall x, x ∈ P -> kle x r) -> cinv (P ++ [r]) (cstep s r).
Proof.
  destruct s as [[E ck] cv]. unfold cinv. intros (HS & HE & HL) Hle.
  rewrite last_snoc.
  destruct (last P) as [l|] eqn:Hlast.
  - destruct HL as (-> & -> & Hlook & Hlt). unfold cstep.
    assert (Hlr : kle l r).
    { apply Hle. destruct (last_snoc_inv P l Hlast) as [Pl HP]. subst. apply elem_of_app. right. constructor. }
    destruct (decide (rkey r = rkey l)) as [Ek|Nk].
    + split_and!; try done; [|congruence|..].
      * intros kv Hkv. apply elem_of_app. left. auto.
      * intros k Hk. rewrite model_snoc, decide_False by congruence. apply Hlook. congruence.
      * intros kv Hkv. rewrite Ek. auto.
    + assert (Hlt' : key_cmp (rkey l) (rkey r) = Lt).
      { unfold kle in Hlr. destruct (key_cmp (rkey l) (rkey r)) eqn:C; try done.
        apply key_cmp_eq in C. congruence. }
      assert (HE' : forall kv, kv ∈ E -> key_cmp kv.1 (rkey r) = Lt).
      { intros kv Hkv. eapply key_cmp_lt_trans; eauto. }
      split_and!; try done.
      * destruct (rval l) as [v|] eqn:Hv; [|done].
        unfold ESorted. apply StronglySorted_snoc; [done|]. intros y Hy. simpl. auto.
      * destruct (rval l) as [v|] eqn:Hv.
        -- intros kv Hkv. apply elem_of_app in Hkv as [Hkv|Hkv].
           ++ apply elem_of_app. left. auto.
           ++ apply list_elem_of_singleton in Hkv. subst kv. simpl.
              apply elem_of_app. left. destruct (last_snoc_inv P l Hlast) as [Pl HP].
              subst. apply elem_of_app. right. destruct l; simpl in Hv; [|discriminate].
              injection Hv as ->. constructor.
        -- intros kv Hkv. apply elem_of_app. left. auto.
      * intros k Hk. rewrite model_snoc, decide_False by congruence.
        destruct (rval l) as [v|] eqn:Hv.
        -- rewrite elookup_snoc. destruct (decide (rkey l = k)) as [<-|Hlk].
           ++ unfold model. destruct (last_snoc_inv P l Hlast) as [Pl HP]. subst.
              rewrite fold_left_app. simpl. rewrite decide_True by done. done.
           ++ auto.
        -- destruct (decide (rkey l = k)) as [<-|Hlk].
           ++ rewrite elookup_lt by done. destruct (last_snoc_inv P l Hlast) as [Pl HP]. subst.
              rewrite model_snoc, decide_True by done. congruence.
           ++ auto.
      * destruct (rval l) as [v|] eqn:Hv; [|done].
        intros kv Hkv. apply elem_of_app in Hkv as [Hkv|Hkv]; [auto|].
        apply list_elem_of_singleton in Hkv. subst kv. done.
  - apply last_None in Hlast. subst P. destruct HL as (-> & -> & ->). simpl.
    rewrite decide_True by done.
    split_and!; try done;
      try (intros kv Hkv; by apply elem_of_nil in Hkv).
    intros k Hk. unfold model. simpl. rewrite decide_False by congruence. done.
Qed.

Lemma cinv_fold P :
  StronglySorted kle P -> cinv P (fold_left cstep P ([], None, None)).
Proof.
  induction P as [|r P IH] using rev_ind; intros H.
  - simpl. split_and!; try done; [constructor|]. intros kv Hkv. by apply elem_of_nil in Hkv.
  - apply StronglySorted_app_inv in H as (H1 & _ & H3).
    rewrite fold_left_app. simpl. apply cinv_step; [now apply IH|].
    intros x Hx. apply H3; [done|constructor].
Qed.

Lemma cfinal_spec P s :
  cinv P s ->
  ESorted (cfinal s) /\ (forall kv, kv ∈ cfinal s -> Insert kv.1 kv.2 ∈ P) /\
  (forall k, elookup (cfinal s) k = model P k).
Proof.
  destruct s as [[E ck] cv]. unfold cinv, cfinal. intros (HS & HE & HL).
  destruct (last P) as [l|] eqn:Hlast.
  - destruct HL as (-> & -> & Hlook & Hlt).
    destruct (last_snoc_inv P l Hlast) as [Pl HP].
    destruct (rval l) as [v|] eqn:Hv.
    + split_and!.
      * apply StronglySorted_snoc; [done|]. intros y Hy. simpl. auto.
      * intros kv Hkv. apply elem_of_app in Hkv as [Hkv|Hkv]; [auto|].
        apply list_elem_of_singleton in Hkv. subst kv P. simpl.
        apply elem_of_app. right. destruct l; simpl in Hv; [|discriminate].
        injection Hv as ->. constructor.
      * intros k. rewrite elookup_snoc. destruct (decide (rkey l = k)) as [<-|Hk]; [|auto].
        subst P. rewrite model_snoc, decide_True by done. done.
    + split_and!; try done.
      intros k. destruct (decide (k = rkey l)) as [->|Hk]; [|auto].
      rewrite elookup_lt by done. subst P. rewrite model_snoc, decide_True by done. done.
  - apply last_None in Hlast. subst P. destruct HL as (-> & -> & ->).
    split_and!; try done.
Qed.

Lemma collapse_spec P :
  StronglySorted kle P ->
  ESorted (collapse P) /\ (forall kv, kv ∈ collapse P -> Insert kv.1 kv.2 ∈ P) /\
  (forall k, elookup (collapse P) k = model P k).
Proof. intros H. apply cfinal_spec, cinv_fold, H. Qed.

Lemma split_chunks_concat limit len records todo :
  concat (split_chunks limit len records todo) = records ++ todo.
Proof.
  revert len records. induction todo as [|r todo IH]; intros len records; simpl.
  - now rewrite app_nil_r.
  - destruct (limit <? len + rlen r)%nat; simpl.
    + now rewrite IH.
    + rewrite IH. now rewrite <- app_assoc.
Qed.

Section MinBy.
Context {A : Type} (kp : A -> bytes).

Let step (acc y : A) : A :=
  match key_cmp (kp acc) (kp y) with Gt => y | _ => acc end.

Lemma min_fold l acc pre mid :
  (forall d, d ∈ pre -> key_cmp (kp acc) (kp d) = Lt) ->
  (forall d, d ∈ mid -> key_cmp (kp acc) (kp d) <> Gt) ->
  exists pre' mid',
    pre ++ acc :: mid ++ l = pre' ++ fold_left step l acc :: mid' /\
    (forall d, d ∈ pre' -> key_cmp (kp (fold_left step l acc)) (kp d) = Lt) /\
    (forall d, d ∈ mid' -> key_cmp (kp (fold_left step l acc)) (kp d) <> Gt).
Proof.
  revert acc pre mid. induction l as [|y l IH]; intros acc pre mid Hpre Hmid; simpl.
  - exists pre, mid. rewrite app_nil_r. auto.
  - destruct (key_cmp (kp acc) (kp y)) eqn:C;
      [assert (Hs : step acc y = acc) by (unfold step; now rewrite C)..
      |assert (Hs : step acc y = y) by (unfold step; now rewrite C)]; rewrite Hs.
    + destruct (IH acc pre (mid ++ [y]) Hpre) as (pre' & mid' & E & H1 & H2).
      { intros d Hd. apply elem_of_app in Hd as [Hd|Hd]; [auto|].
        apply list_elem_of_singleton in Hd. subst. now rewrite C. }
      exists pre', mid'. rewrite <- E, <- app_assoc. auto.
    + destruct (IH acc pre (mid ++ [y]) Hpre) as (pre' & mid' & E & H1 & H2).
      { intros d Hd. apply elem_of_app in Hd as [Hd|Hd]; [auto|].
        apply list_elem_of_singleton in Hd. subst. now rewrite C. }
      exists pre', mid'. rewrite <- E, <- app_assoc. auto.
    + apply key_cmp_gt_lt in C.
      destruct (IH y (pre ++ acc :: mid) []) as (pre' & mid' & E & H1 & H2).
      { intros d Hd. apply elem_of_app in Hd as [Hd|Hd].
        - eapply key_cmp_lt_trans; eauto.
        - apply elem_of_cons in Hd as [->|Hd]; [done|].
          eapply key_cmp_lt_le; eauto. }
      { intros d Hd. by apply elem_of_nil in Hd. }
      exists pre', mid'. rewrite <- E, <- app_assoc. auto.
Qed.

Lemma min_by_spec l c :
  min_by (fun a b => key_cmp (kp a) (kp b)) l = Some c ->
  exists pre post, l = pre ++ c :: post /\
    (forall d, d ∈ pre -> key_cmp (kp c) (kp d) = Lt) /\
    (forall d, d ∈ post -> key_cmp (kp c) (kp d) <> Gt).
Proof.
  destruct l as [|x l]; simpl; [discriminate|]. intros H. injection H as <-.
  destruct (min_fold l x [] []) as (pre & post & E & H1 & H2).
  - intros d Hd. by apply elem_of_nil in Hd.
  - intros d Hd. by apply elem_of_nil in Hd.
  - exists pre, post. split_and!; [exact E|exact H1|exact H2].
Qed.

Lemma min_by_None l :
  min_by (fun a b => key_cmp (kp a) (kp b)) l = None -> l = [].
Proof. now destruct l. Qed.

End MinBy.

(** ** [split] *)

Lemma create_ff id p (truncate : bool) w :
  ff w -> w_dirs w (removelast p) = true ->
  let c : bytes := if truncate then [] else default [] (w_fs w p) in
  exists w', wupd p c w w' /\
    StoreFile.create id p truncate tt w =
      (Ok (mkStoreFile id (mkFile p 0) (N.of_nat (length c)) None), tt, w').
Proof.
  intros Hff Hd c. unfold StoreFile.create, open_file, liftW, bind.
  rewrite syscall_ff by done. cbn [w_dirs tick]. rewrite Hd.
  unfold run_on, metadata_len, bind, get, liftW. rewrite syscall_ff.
  2:{ intros n. unfold set_fs, tick. simpl. apply Hff. }
  assert (Hc : contents (tick (set_fs p (Some c) (tick w))) {| f_path := p; f_pos := 0 |} = c).
  { unfold contents, set_fs, tick. simpl. now rewrite decide_True. }
  change (if truncate then [] else default [] (w_fs (tick w) p)) with c. rewrite Hc.
  eexists. split; [|reflexivity].
  unfold wupd, set_fs, tick. simpl. split_and!; try done.
  - now rewrite decide_True.
  - intros q Hq. now rewrite decide_False.
Qed.

Lemma chunk_files_app dir k cs1 cs2 :
  chunk_files dir k (cs1 ++ cs2) = chunk_files dir k cs1 ++ chunk_files dir (k + length cs1) cs2.
Proof.
  revert k. induction cs1 as [|c cs1 IH]; intros k; simpl.
  - now rewrite Nat.add_0_r.
  - rewrite IH. do 3 f_equal. lia.
Qed.

Lemma cpath_inj dir i j : cpath dir i = cpath dir j -> i = j.
Proof.
  unfold cpath. intros H. apply app_inv_head in H. injection H as H. lia.
Qed.

Lemma make_file_ff idx dir w :
  ff w -> w_dirs w dir = true -> w_fs w (cpath dir idx) = None ->
  exists w', wupd (cpath dir idx) [] w w' /\
    make_file (N.of_nat idx) dir tt w = (Ok (at_end (N.of_nat idx) (cpath dir idx) []), tt, w').
Proof.
  intros Hff Hd Hn. unfold make_file, StoreFile.open.
  destruct (create_ff (N.of_nat idx) (cpath dir idx) false w Hff) as (w' & U & E).
  { unfold cpath. now rewrite removelast_last. }
  cbv zeta in U, E. rewrite Hn in U, E. exists w'. split; [done|]. exact E.
Qed.

Lemma sort_rec_ok l : Forall rec_ok l -> Forall rec_ok (sort_by_key l).
Proof. intros H. now rewrite (sort_perm l). Qed.

Lemma dump_file_ff id p c records w :
  ff w -> w_fs w p = Some c -> Forall rec_ok records ->
  exists w', wupd p (c ++ encode_log (sort_by_key records)) w w' /\
    dump_file records (at_end id p c) w =
      (Ok tt, at_end id p (c ++ encode_log (sort_by_key records)), w').
Proof.
  intros Hff Hc Hok. destruct records as [|r rs].
  - exists w. simpl. rewrite app_nil_r. split; [now apply wupd_nil|done].
  - unfold dump_file.
    destruct (mapM_exec_at_end id p c (sort_by_key (r :: rs)) w Hff Hc (sort_rec_ok _ Hok))
      as (w' & U & E).
    exists w'. split; [done|]. rewrite (bind_ok _ _ _ _ _ _ _ E).
    unfold flush. apply on_handle_same. done.
Qed.

Lemma fits_dec r : {fits r} + {~ fits r}.
Proof. destruct r; simpl; [apply N.lt_dec|now left]. Qed.

Lemma chunks_in_wsame dir done w w' : chunks_in dir done w -> wsame w w' -> chunks_in dir done w'.
Proof. intros H (E & _). unfold chunks_in. now rewrite E. Qed.

Lemma chunks_in_add dir done records w w' :
  chunks_in dir done w ->
  wupd (cpath dir (length done)) (encode_log (sort_by_key records)) w w' ->
  chunks_in dir (done ++ [records]) w'.
Proof.
  intros [H1 H2] (U1 & U2 & _). split.
  - intros j c Hj. apply lookup_app_Some in Hj as [Hj|[Hle Hj]].
    + assert (j < length done)%nat by (apply lookup_lt_Some in Hj; lia).
      rewrite U2; [auto|]. intros E. apply cpath_inj in E. lia.
    + apply list_lookup_singleton_Some in Hj as [Hj ->].
      replace j with (length done) by lia. done.
  - intros j Hj. rewrite length_app in Hj. simpl in Hj.
    rewrite U2; [apply H2; lia|]. intros E. apply cpath_inj in E. lia.
Qed.

Lemma cut_ff dir done records (result : list StoreFile) (src : StoreFile) w :
  ff w -> w_dirs w dir = true -> chunks_in dir done w -> Forall rec_ok records ->
  exists w', wupd (cpath dir (length done)) (encode_log (sort_by_key records)) w w' /\
    (let* file := call (make_file (N.of_nat (length done)) dir) in
     let* '(_, file) := run_on file (dump_file records) in
     ret (result ++ [file], @nil record, N.of_nat (length done) + 1, 0%nat)) src w
    = (Ok (result ++ [at_end (N.of_nat (length done)) (cpath dir (length done))
                         (encode_log (sort_by_key records))], @nil record,
           N.of_nat (length done) + 1, 0%nat), src, w').
Proof.
  intros Hff Hd [_ Hn] Hok.
  destruct (make_file_ff (length done) dir w Hff Hd (Hn _ (le_n _))) as (w1 & U1 & E1).
  destruct (dump_file_ff (N.of_nat (length done)) (cpath dir (length done)) [] records w1
              (ff_wupd _ _ _ _ Hff U1) (wupd_at _ _ _ _ U1) Hok) as (w2 & U2 & E2).
  exists w2. split; [eapply wupd_trans; eassumption|].
  unfold bind at 1, call. rewrite E1.
  unfold bind, run_on. rewrite E2. done.
Qed.

Lemma drop_nil_le (C : bytes) off : drop (N.to_nat off) C = [] -> N.of_nat (length C) <= off.
Proof.
  intros H. assert (L : length (drop (N.to_nat off) C) = 0%nat) by now rewrite H.
  rewrite length_drop in L. lia.
Qed.

Lemma split_loop_spec limit dir P C id todo : forall fuel done records len off w,
  ff w -> w_fs w P = Some C -> (forall j, P <> cpath dir j) -> w_dirs w dir = true ->
  drop (N.to_nat off) C = encode_log todo ->
  Forall rec_ok records -> Forall rec_ok todo -> chunks_in dir done w ->
  (length todo < fuel)%nat ->
  (Forall fits todo ->
   exists cs last src' w', split_chunks limit len records todo = cs ++ [last] /\
     split_loop fuel dir limit (chunk_files dir 0 done) records (N.of_nat (length done)) len
       (mkStoreFile id (mkFile P 0) off None) w
     = (Ok (chunk_files dir 0 (done ++ cs), last, N.of_nat (length (done ++ cs))), src', w') /\
     ff w' /\ w_fs w' P = Some C /\ w_dirs w' = w_dirs w /\ chunks_in dir (done ++ cs) w') /\
  (~ Forall fits todo ->
   exists e src' w',
     split_loop fuel dir limit (chunk_files dir 0 done) records (N.of_nat (length done)) len
       (mkStoreFile id (mkFile P 0) off None) w = (Err e, src', w')).
Proof.
  induction todo as [|r todo IH];
    intros fuel done records len off w Hff HP HPc Hd D Hrec Htodo Hin Hfuel;
    (destruct fuel as [|fuel]; [simpl in Hfuel; lia|]); simpl split_loop.
  - split; [|intros H; exfalso; apply H; constructor].
    intros _. exists [], records.
    destruct (read_record_eof (mkStoreFile id (mkFile P 0) off None) w C Hff HP eq_refl
                (drop_nil_le _ _ D)) as (w' & W & E).
    do 2 eexists. split; [done|].
    unfold try_io at 1, bind at 1. rewrite E. rewrite app_nil_r. split; [reflexivity|].
    destruct W as (W1 & W2 & W3). split_and!; try done.
    + intros n. rewrite W3. apply Hff.
    + now rewrite W1.
    + unfold chunks_in in *. now rewrite W1.
  - inversion Htodo as [|? ? Hr Htodo']; subst.
    rewrite encode_log_cons in D. simpl in Hfuel.
    destruct (fits_dec r) as [Hf|Hf].
    2:{ split; [intros H; inversion H; contradiction|intros _].
        destruct r as [k v|k]; [|simpl in Hf; tauto].
        destruct (read_record_overflow (mkStoreFile id (mkFile P 0) off None) w C
                    (encode_log todo) k v Hff HP eq_refl D Hr Hf) as (f' & w' & E).
        unfold try_io at 1, bind at 1. rewrite E. eauto. }
    destruct (read_record_ok (mkStoreFile id (mkFile P 0) off None) w C (encode_log todo) r
                Hff HP eq_refl D Hr Hf) as (w1 & W1 & E1).
    pose proof (ff_wsame _ _ Hff W1) as Hff1.
    pose proof (wsame_at _ _ _ _ W1 HP) as HP1.
    assert (Hd1 : w_dirs w1 dir = true) by (destruct W1 as (_ & -> & _); done).
    pose proof (chunks_in_wsame _ _ _ _ Hin W1) as Hin1.
    assert (D1 : drop (N.to_nat (off + N.of_nat (rlen r))) C = encode_log todo).
    { apply (drop_adv C (encode r)); [done|]. now rewrite length_encode. }
    rewrite (bind_ok _ _ _ _ _ _ _ (try_io_ok _ _ _ _ _ _ E1)).
    cbn [set_offset sf_offset sf_id sf_file sf_peek].
    assert (Hfe : Forall fits (r :: todo) <-> Forall fits todo).
    { split; [now inversion 1|now constructor]. }
    rewrite Hfe. simpl split_chunks.
    assert (Hr1 : Forall rec_ok [r]) by (constructor; [exact Hr|constructor]).
    destruct (limit <? len + rlen r)%nat eqn:Hlt.
    + destruct (cut_ff dir done records (chunk_files dir 0 done)
                  (mkStoreFile id (mkFile P 0) (off + N.of_nat (rlen r)) None) w1
                  Hff1 Hd1 Hin1 Hrec) as (w2 & U2 & E2).
      rewrite (bind_ok _ _ _ _ _ _ _ E2). simpl.
      assert (Ecf : chunk_files dir 0 (done ++ [records]) = chunk_files dir 0 done ++
                [at_end (N.of_nat (length done)) (cpath dir (length done))
                   (encode_log (sort_by_key records))]).
      { rewrite chunk_files_app. reflexivity. }
      assert (Elen : N.of_nat (length (done ++ [records])) = N.of_nat (length done) + 1).
      { rewrite length_app. simpl. lia. }
      rewrite <- Ecf, <- Elen.
      assert (HP2 : w_fs w2 P = Some C).
      { destruct U2 as (_ & U & _). rewrite U; [done|apply HPc]. }
      assert (Hd2 : w_dirs w2 = w_dirs w).
      { destruct U2 as (_ & _ & -> & _). destruct W1 as (_ & -> & _). done. }
      destruct (IH fuel (done ++ [records]) [r] (rlen r) (off + N.of_nat (rlen r)) w2
                  (ff_wupd _ _ _ _ Hff1 U2) HP2 HPc (ltac:(rewrite Hd2; done)) D1
                  Hr1 Htodo' (chunks_in_add _ _ _ _ _ Hin1 U2)
                  ltac:(lia)) as [IH1 IH2].
      split.
      * intros Hft. destruct (IH1 Hft) as (cs & lst & src' & w' & S & L & R).
        exists (records :: cs), lst, src', w'.
        rewrite S. replace (done ++ records :: cs) with ((done ++ [records]) ++ cs)
          by (rewrite <- app_assoc; done).
        split; [done|]. split; [exact L|]. rewrite <- Hd2. exact R.
      * intros Hft. exact (IH2 Hft).
    + unfold ret at 1, bind at 1.
      destruct (IH fuel done (records ++ [r]) (len + rlen r)%nat (off + N.of_nat (rlen r)) w1
                  Hff1 HP1 HPc Hd1 D1 ltac:(apply Forall_app; split; [exact Hrec|exact Hr1])
                  Htodo' Hin1 ltac:(lia)) as [IH1 IH2].
      assert (Hd1' : w_dirs w1 = w_dirs w) by (destruct W1 as (_ & -> & _); done).
      split.
      * intros Hft. destruct (IH1 Hft) as (cs & lst & src' & w' & S & L & R).
        exists cs, lst, src', w'. rewrite <- Hd1'. auto.
      * intros Hft. exact (IH2 Hft).
Qed.



Lemma reset_ff f w : ff w ->
  StoreFile.reset f w = (Ok tt, reset_sf f, tick w).
Proof.
  intros H. unfold StoreFile.reset, on_handle, zoom, seek_start, bind, liftW.
  rewrite (syscall_ff _ _ H). reflexivity.
Qed.

Lemma wsame_tick w : wsame w (tick w).
Proof. done. Qed.

Lemma reset_all_ff {T} l (t : T) w : ff w ->
  exists w', wsame w w' /\ reset_all l t w = (Ok (map reset_sf l), t, w').
Proof.
  revert w. induction l as [|f l IH]; intros w Hff; simpl.
  - exists w. done.
  - unfold bind at 1, run_on. unfold bind at 1, on_handle, zoom, flush, ret at 1.
    rewrite set_file_same, (reset_ff _ _ Hff).
    destruct (IH (tick w) (ff_wsame _ _ Hff (wsame_tick w))) as (w' & W & E).
    exists w'. split; [eapply wsame_trans; [apply wsame_tick|exact W]|].
    unfold bind at 1. rewrite E. reflexivity.
Qed.

Lemma is_prefix_app p q : is_prefix p (p ++ q) = true.
Proof.
  induction p as [|x p IH]; [done|]. simpl. rewrite IH. now rewrite bool_decide_true.
Qed.

Lemma length_le_encode_log l : (length l <= length (encode_log l))%nat.
Proof.
  induction l as [|r l IH]; [simpl; lia|].
  rewrite encode_log_cons, length_app, length_encode. unfold rlen. destruct r; simpl; lia.
Qed.

Lemma cpath_scratch dir j : is_prefix dir (cpath dir j) = true.
Proof. apply is_prefix_app. Qed.

Lemma split_chunks_rec_ok limit log cs lst :
  Forall rec_ok log -> split_chunks limit 0 [] log = cs ++ [lst] -> Forall rec_ok lst.
Proof.
  intros Hok E. pose proof (split_chunks_concat limit 0 [] log) as Ec.
  rewrite E, concat_app in Ec. simpl in Ec. rewrite app_nil_r in Ec.
  rewrite <- Ec in Hok. now apply Forall_app in Hok as [_ Hok].
Qed.

Lemma split_ok base limit id C log w :
  let P := [SBase base; SNum id ".dat"] in
  let dir := [SBase base; SNum id ""] in
  ff w -> w_fs w P = Some C -> C = encode_log log -> Forall rec_ok log ->
  (forall q, is_prefix dir q = true -> w_fs w q = None) ->
  (Forall fits log ->
   exists f' w',
     split base limit (at_end id P C) w =
       (Ok (map reset_sf (chunk_files dir 0 (split_chunks limit 0 [] log))), f', w') /\
     ff w' /\ w_fs w' P = Some C /\ w_dirs w' dir = true /\
     (forall q, w_dirs w q = true -> w_dirs w' q = true) /\
     chunks_in dir (split_chunks limit 0 [] log) w') /\
  (~ Forall fits log -> exists e f' w', split base limit (at_end id P C) w = (Err e, f', w')).
Proof.
  intros P dir Hff HP HC Hok Hscr.
  pose (w1 := mkWorld (w_fs (tick w))
                (fun q => w_dirs (tick w) q || (bool_decide (q <> []) && is_prefix q dir))
                (w_fault (tick w)) (w_clock (tick w))).
  assert (Hff1 : ff w1) by (intros n; apply Hff).
  assert (Hlen : contents (tick w1) (sf_file (reset_sf (at_end id P C))) = C).
  { unfold contents. simpl. now rewrite HP. }
  assert (Hff2 : ff (tick w1)) by (intros n; apply Hff).
  assert (HP2 : w_fs (tick w1) P = Some C) by exact HP.
  assert (HPc : forall j, P <> cpath dir j).
  { intros j E. unfold cpath in E. simpl in E. injection E as E. discriminate. }
  assert (Hd2 : w_dirs (tick w1) dir = true).
  { pose proof (is_prefix_app dir []) as Hp. rewrite app_nil_r in Hp.
    unfold w1. cbn [w_dirs tick]. rewrite Hp, bool_decide_true by done. apply orb_true_r. }
  assert (D : drop (N.to_nat 0) C = encode_log log) by (simpl; done).
  assert (Hin : chunks_in dir [] (tick w1)).
  { split; [intros j c Hj; by rewrite lookup_nil in Hj|].
    intros j _. simpl. apply Hscr, cpath_scratch. }
  destruct (split_loop_spec limit dir P C id log (S (length C)) [] [] 0 0 (tick w1)
              Hff2 HP2 HPc Hd2 D (List.Forall_nil _) Hok Hin) as [S1 S2].
  { pose proof (length_le_encode_log log). subst C. lia. }
  change (chunk_files dir 0 []) with (@nil StoreFile) in S1, S2.
  change (N.of_nat (length (@nil (list record)))) with 0 in S1, S2.
  split; intros Hft; unfold split; rewrite bind_get; change (sf_id (at_end id P C)) with id;
    fold dir; unfold bind at 1, liftW, create_dir_all; rewrite (syscall_ff _ _ Hff); fold w1;
    unfold bind at 1; rewrite (reset_ff _ _ Hff1); unfold bind at 1, bounded; rewrite Hlen;
    change (reset_sf (at_end id P C)) with (mkStoreFile id (mkFile P 0) 0 None).
  - destruct (S1 Hft) as (cs & lst & src' & w3 & Ecs & E3 & Hff3 & HP3 & Hd3 & Hin3).
    rewrite E3. cbn beta iota. simpl app in *.
    assert (Hd3' : w_dirs w3 dir = true) by (rewrite Hd3; exact Hd2).
    destruct (make_file_ff (length cs) dir w3 Hff3 Hd3' (proj2 Hin3 _ (le_n _)))
      as (w4 & U4 & E4).
    pose proof (ff_wupd _ _ _ _ Hff3 U4) as Hff4.
    destruct (dump_file_ff (N.of_nat (length cs)) (cpath dir (length cs)) [] lst w4 Hff4
                (wupd_at _ _ _ _ U4) (split_chunks_rec_ok _ _ _ _ Hok Ecs)) as (w5 & U5 & E5).
    pose proof (ff_wupd _ _ _ _ Hff4 U5) as Hff5.
    unfold bind at 1, call. rewrite E4.
    unfold bind at 1, run_on. rewrite E5. cbn beta iota.
    destruct (reset_all_ff (chunk_files dir 0 cs ++
                [at_end (N.of_nat (length cs)) (cpath dir (length cs)) ([] ++ encode_log (sort_by_key lst))])
                src' w5 Hff5) as (w6 & W6 & E6).
    rewrite E6. exists src', w6.
    assert (U45 := wupd_trans _ _ _ _ _ _ U4 U5).
    assert (Ech : chunk_files dir 0 cs ++
                [at_end (N.of_nat (length cs)) (cpath dir (length cs)) ([] ++ encode_log (sort_by_key lst))]
                = chunk_files dir 0 (cs ++ [lst])) by (rewrite chunk_files_app; reflexivity).
    rewrite Ech, Ecs. split; [done|].
    pose proof (ff_wsame _ _ Hff5 W6) as Hff6.
    pose proof (chunks_in_wsame _ _ _ _ (chunks_in_add _ _ _ _ _ Hin3 U45) W6) as Hin6.
    destruct U45 as (_ & Uo & Ud & _). destruct W6 as (Wf & Wd & _).
    split_and!; [exact Hff6| | | |exact Hin6].
    + rewrite Wf, Uo; [exact HP3|apply HPc].
    + rewrite Wd, Ud, Hd3. exact Hd2.
    + intros q Hq. rewrite Wd, Ud, Hd3. unfold w1. cbn [w_dirs tick]. now rewrite Hq.
  - destruct (S2 Hft) as (e & src' & w3 & E3).
    rewrite E3. eauto.
Qed.

(** ** Peeking and picking, in any world *)


Lemma KP_bind {A B} (m : M StoreFile A) (k : A -> M StoreFile B) :
  KP m -> (forall a, KP (k a)) -> KP (bind m k).
Proof.
  intros Hm Hk f w r f' w' Hp. unfold bind.
  destruct (m f w) as [[[a|e] f1] w1] eqn:E; intros H.
  - eapply Hk; [eapply Hm; eauto|exact H].
  - injection H as <- <- <-. eapply Hm; eauto.
Qed.

Lemma KP_on_handle {A} (m : M File A) : KP (on_handle m).
Proof.
  intros f w r f' w' Hp. unfold on_handle, zoom.
  destruct (m (sf_file f) w) as [[r1 h] w1]. intros H. injection H as <- <- <-. exact Hp.
Qed.

Lemma KP_ret {A} (a : A) : KP (ret a).
Proof. intros f w r f' w' Hp H. now injection H as <- <- <-. Qed.

Lemma KP_throw {A} e : KP (A := A) (throw e).
Proof. intros f w r f' w' Hp H. now injection H as <- <- <-. Qed.

Lemma KP_modify (h : StoreFile -> StoreFile) :
  (forall f, sf_peek (h f) = sf_peek f) -> KP (modify h).
Proof. intros Hh f w r f' w' Hp H. injection H as <- <- <-. now rewrite Hh. Qed.

Ltac kp :=
  repeat first
    [ apply KP_bind; intros
    | apply KP_on_handle | apply KP_ret | apply KP_throw
    | apply KP_modify; intros; reflexivity
    | match goal with |- KP (if ?b then _ else _) => destruct b end ].

Lemma read_record_none_peek f w r f' w' :
  sf_peek f = None -> StoreFile.read_record f w = (r, f', w') -> sf_peek f' = None.
Proof.
  intros Hp H. unfold StoreFile.read_record in H. rewrite bind_get, Hp in H.
  match type of H with ?m _ _ = _ => assert (K : KP m) by kp end.
  exact (K f w r f' w' Hp H).
Qed.

Lemma peek_record_Ok f w r f' w' :
  StoreFile.peek_record f w = (Ok r, f', w') -> sf_peek f' = Some r.
Proof.
  unfold StoreFile.peek_record. rewrite bind_get. destruct (sf_peek f) as [r0|] eqn:Hp.
  - intros H. injection H as <- <- <-. exact Hp.
  - intros H. apply bind_ok_inv in H as (a & f1 & w1 & _ & H).
    unfold bind, modify, ret in H. injection H as <- <- <-. reflexivity.
Qed.

Lemma peek_record_Err f w e f' w' :
  StoreFile.peek_record f w = (Err e, f', w') -> sf_peek f = None /\ sf_peek f' = None.
Proof.
  unfold StoreFile.peek_record. rewrite bind_get. destruct (sf_peek f) as [r0|] eqn:Hp.
  - discriminate.
  - intros H. split; [done|]. unfold bind at 1 in H.
    destruct (StoreFile.read_record f w) as [[[a|e1] f1] w1] eqn:E.
    + unfold bind, modify, ret in H. discriminate.
    + injection H as <- <- <-. exact (read_record_none_peek _ _ _ _ _ Hp E).
Qed.

Lemma on_nth_peek_try i srcs w o srcs1 w1 :
  try_io (on_nth i StoreFile.peek_record) srcs w = (Ok o, srcs1, w1) ->
  exists s s1, srcs !! i = Some s /\ srcs1 = <[i := s1]> srcs /\ sf_peek s1 = o.
Proof.
  unfold try_io, on_nth. destruct (srcs !! i) as [s|] eqn:Hi; [|discriminate].
  destruct (StoreFile.peek_record s w) as [[[a|e] s1] w1'] eqn:Hpk.
  - intros H. injection H as <- <- <-. exists s, s1. split_and!; try done.
    exact (peek_record_Ok _ _ _ _ _ Hpk).
  - apply peek_record_Err in Hpk as [_ Hpk].
    destruct e; try discriminate. intros H. injection H as <- <- <-.
    exists s, s1. done.
Qed.

Lemma peek_all_gen n : forall i srcs w cands srcs' w',
  peek_all i n srcs w = (Ok cands, srcs', w') ->
  length srcs' = length srcs /\
  (forall j, (j < i \/ i + n <= j)%nat -> srcs' !! j = srcs !! j) /\
  (forall r j, (r, j) ∈ cands <->
     (i <= j < i + n)%nat /\ exists s, srcs' !! j = Some s /\ sf_peek s = Some r) /\
  StronglySorted (fun a b => (a.2 < b.2)%nat) cands /\ Forall (fun a => (i <= a.2)%nat) cands.
Proof.
  induction n as [|n IH]; intros i srcs w cands srcs' w' H; simpl in H.
  - injection H as <- <- <-. split_and!; try done.
    + intros r j. split; [intros Hm; by apply elem_of_nil in Hm|lia].
    + constructor.
  - apply bind_ok_inv in H as (o & srcs1 & w1 & H1 & H).
    apply bind_ok_inv in H as (rest & srcs2 & w2 & H2 & H).
    unfold ret in H. injection H as <- <- <-.
    apply on_nth_peek_try in H1 as (s & s1 & Hi & -> & Ho).
    destruct (IH _ _ _ _ _ _ H2) as (L & Fr & Mem & Srt & Ge).
    rewrite length_insert in L.
    assert (Hlt : (i < length srcs)%nat) by (apply lookup_lt_Some in Hi; done).
    assert (Hs1 : srcs2 !! i = Some s1).
    { rewrite Fr by lia. now apply list_lookup_insert_eq. }
    split_and!.
    + exact L.
    + intros j Hj. rewrite Fr by lia. apply list_lookup_insert_ne. lia.
    + intros r j. split.
      * intros Hm. destruct o as [a|]; [apply elem_of_cons in Hm as [Hm|Hm]|].
        -- injection Hm as -> ->. split; [lia|]. eauto.
        -- apply Mem in Hm as [Hr Hs]. split; [lia|exact Hs].
        -- apply Mem in Hm as [Hr Hs]. split; [lia|exact Hs].
      * intros [Hr (s' & Hs & Hp)]. destruct (decide (j = i)) as [->|Hne].
        -- rewrite Hs1 in Hs. injection Hs as <-. rewrite Hp in Ho. subst o.
           apply elem_of_cons. now left.
        -- assert (Hm : (r, j) ∈ rest) by (apply Mem; split; [lia|eauto]).
           destruct o; [apply elem_of_cons; now right|exact Hm].
    + destruct o as [a|]; [|exact Srt]. constructor; [exact Srt|].
      eapply Forall_impl; [exact Ge|]. simpl. intros x Hx. lia.
    + destruct o as [a|]; [constructor; [simpl; lia|]|];
        (eapply Forall_impl; [exact Ge|]); intros x Hx; simpl in *; lia.
Qed.

Lemma pick_gen srcs w o srcs' w' :
  pick srcs w = (Ok o, srcs', w') ->
  length srcs' = length srcs /\
  match o with
  | None => forall j s, srcs' !! j = Some s -> sf_peek s = None
  | Some i =>
      exists s r, srcs' !! i = Some s /\ sf_peek s = Some r /\
        forall j s' r', srcs' !! j = Some s' -> sf_peek s' = Some r' ->
          key_cmp (rkey r) (rkey r') <> Gt /\
          ((j < i)%nat -> key_cmp (rkey r) (rkey r') = Lt)
  end.
Proof.
  unfold pick. rewrite bind_get. intros H.
  apply bind_ok_inv in H as (cands & s1 & w1 & H1 & H2).
  unfold ret in H2. injection H2 as <- -> ->.
  destruct (peek_all_gen _ _ _ _ _ _ _ H1) as (L & _ & Mem & Srt & _).
  split; [exact L|].
  assert (Hin : forall j s' r', srcs' !! j = Some s' -> sf_peek s' = Some r' -> (r', j) ∈ cands).
  { intros j s' r' Hs Hp. apply Mem. split; [|eauto].
    apply lookup_lt_Some in Hs. lia. }
  destruct (min_by (fun a b => key_cmp (rkey a.1) (rkey b.1)) cands) as [[r i]|] eqn:Hm;
    simpl.
  - destruct (min_by_spec (fun a : record * nat => rkey a.1) cands (r, i) Hm)
      as (pre & post & E & Hpre & Hpost).
    assert (Hc : (r, i) ∈ cands) by (rewrite E; apply elem_of_app; right; apply elem_of_cons; now left).
    apply Mem in Hc as (_ & s & Hs & Hp).
    exists s, r. split_and!; [exact Hs|exact Hp|].
    intros j s' r' Hs' Hp'. pose proof (Hin _ _ _ Hs' Hp') as Hj.
    rewrite E in Srt. apply StronglySorted_app_inv in Srt as (_ & Srt & _).
    apply StronglySorted_inv in Srt as [_ Fpost].
    rewrite E in Hj. apply elem_of_app in Hj as [Hj|Hj]; [|apply elem_of_cons in Hj as [Hj|Hj]].
    + pose proof (Hpre _ Hj) as Hlt. simpl in Hlt. rewrite Hlt. split; [discriminate|done].
    + injection Hj as -> ->. rewrite key_cmp_refl. split; [discriminate|lia].
    + pose proof (Hpost _ Hj) as Hle. simpl in Hle. split; [exact Hle|].
      rewrite Forall_forall in Fpost. pose proof (Fpost _ Hj) as Hij. simpl in Hij. lia.
  - apply (min_by_None (fun a : record * nat => rkey a.1)) in Hm. subst cands.
    intros j s Hs. destruct (sf_peek s) as [r|] eqn:Hp; [|done].
    pose proof (Hin _ _ _ Hs Hp) as Hj. by apply elem_of_nil in Hj.
Qed.

(** ** The merge, as a list computation *)

Lemma kf_lt k R : (forall y, y ∈ R -> key_cmp k (rkey y) = Lt) -> kf k R = [].
Proof.
  induction R as [|y R IH]; intros H; [done|]. unfold kf in *. rewrite filter_cons.
  rewrite decide_False.
  - apply IH. intros z Hz. apply H. now right.
  - intros E. specialize (H y ltac:(now left)). rewrite E, key_cmp_refl in H. discriminate.
Qed.

Lemma concat_kf_nil k (A : list (list record)) :
  (forall R, R ∈ A -> kf k R = []) -> concat (map (kf k) A) = [].
Proof.
  induction A as [|R A IH]; intros H; [done|]. simpl.
  rewrite H by now left. apply IH. intros R' HR. apply H. now right.
Qed.

Lemma kf_cons k r l : kf k (r :: l) = if decide (rkey r = k) then r :: kf k l else kf k l.
Proof. unfold kf. rewrite filter_cons. done. Qed.

Lemma kf_app k l1 l2 : kf k (l1 ++ l2) = kf k l1 ++ kf k l2.
Proof. unfold kf. apply filter_app. Qed.

Lemma merge_pure_step L P Rs i r R' :
  Rs !! i = Some (r :: R') ->
  (forall j R, Rs !! j = Some R -> StronglySorted kle R) ->
  (forall j r'' R'', Rs !! j = Some (r'' :: R'') ->
     kle r r'' /\ ((j < i)%nat -> key_cmp (rkey r) (rkey r'') = Lt)) ->
  StronglySorted kle P ->
  (forall x, x ∈ P -> forall j R, Rs !! j = Some R -> forall y, y ∈ R -> kle x y) ->
  (forall k, kf k P ++ concat (map (kf k) Rs) = kf k L) ->
  (forall x, x ∈ P -> kle x r) /\
  StronglySorted kle (P ++ [r]) /\
  (forall x, x ∈ P ++ [r] -> forall j R, <[i := R']> Rs !! j = Some R ->
     forall y, y ∈ R -> kle x y) /\
  (forall k, kf k (P ++ [r]) ++ concat (map (kf k) (<[i := R']> Rs)) = kf k L).
Proof.
  intros Hi Hsrt Hmin HP Hbel Hkf.
  assert (Hx : forall x, x ∈ P -> kle x r).
  { intros x Hx. apply (Hbel x Hx i (r :: R') Hi). now left. }
  assert (Hri : StronglySorted kle (r :: R')) by exact (Hsrt _ _ Hi).
  apply StronglySorted_inv in Hri as [HR' Hr'].
  rewrite Forall_forall in Hr'.
  split_and!.
  - exact Hx.
  - now apply StronglySorted_snoc.
  - intros x Hx' j R HR y Hy. apply elem_of_app in Hx' as [Hx'|Hx'].
    + destruct (decide (j = i)) as [->|Hne].
      * rewrite list_lookup_insert_eq in HR by (apply lookup_lt_Some in Hi; done).
        injection HR as <-. apply (Hbel x Hx' i (r :: R') Hi). now right.
      * rewrite list_lookup_insert_ne in HR by done. exact (Hbel x Hx' j R HR y Hy).
    + apply list_elem_of_singleton in Hx'. subst x.
      destruct (decide (j = i)) as [->|Hne].
      * rewrite list_lookup_insert_eq in HR by (apply lookup_lt_Some in Hi; done).
        injection HR as <-. now apply Hr'.
      * rewrite list_lookup_insert_ne in HR by done.
        destruct R as [|r'' R'']; [by apply elem_of_nil in Hy|].
        destruct (Hmin _ _ _ HR) as [Hle _].
        apply elem_of_cons in Hy as [->|Hy]; [exact Hle|].
        pose proof (Hsrt _ _ HR) as Hs. apply StronglySorted_inv in Hs as [_ Hs].
        rewrite Forall_forall in Hs. exact (key_cmp_le_trans _ _ _ Hle (Hs y Hy)).
  - intros k. rewrite <- (Hkf k), kf_app, <- app_assoc. f_equal.
    assert (Hlt : (i < length Rs)%nat) by (apply lookup_lt_Some in Hi; done).
    rewrite (insert_take_drop Rs i R' Hlt).
    rewrite <- (take_drop_middle Rs i _ Hi) at 3.
    rewrite !map_app, !concat_app. simpl. rewrite kf_cons.
    destruct (decide (rkey r = k)) as [<-|Hne].
    + rewrite (concat_kf_nil _ (take i Rs)).
      * rewrite kf_cons, decide_True by done. done.
      * intros R HR. apply elem_of_take in HR as (j & Hj & Hji).
        apply kf_lt. intros y Hy. destruct R as [|r'' R'']; [by apply elem_of_nil in Hy|].
        destruct (Hmin _ _ _ Hj) as [_ Hlt']. specialize (Hlt' Hji).
        apply elem_of_cons in Hy as [->|Hy]; [exact Hlt'|].
        pose proof (Hsrt _ _ Hj) as Hs. apply StronglySorted_inv in Hs as [_ Hs].
        rewrite Forall_forall in Hs. exact (key_cmp_lt_le _ _ _ Hlt' (Hs y Hy)).
    + rewrite kf_cons, decide_False by done. done.
Qed.

(** ** The merge sources in a fault-free world *)

Lemma src_ok_wsame dir j R s w w' : wsame w w' -> src_ok dir j R s w -> src_ok dir j R s w'.
Proof. intros W (S & HS & H). exists S. split; [exact (wsame_at _ _ _ _ W HS)|exact H]. Qed.

Lemma src_ok_wupd dir j R s p c w w' :
  wupd p c w w' -> (forall j, p <> cpath dir j) -> src_ok dir j R s w -> src_ok dir j R s w'.
Proof.
  intros (_ & U & _) Hp (S & HS & H). exists S. split; [|exact H].
  rewrite U; [exact HS|]. intros E. now apply (Hp j).
Qed.

Lemma srcs_ok_wsame dir Rs srcs w w' : wsame w w' -> srcs_ok dir Rs srcs w -> srcs_ok dir Rs srcs w'.
Proof. intros W [L H]. split; [exact L|]. intros j R s HR Hs. eapply src_ok_wsame; eauto. Qed.

Lemma srcs_ok_wupd dir Rs srcs p c w w' :
  wupd p c w w' -> (forall j, p <> cpath dir j) -> srcs_ok dir Rs srcs w -> srcs_ok dir Rs srcs w'.
Proof. intros U Hp [L H]. split; [exact L|]. intros j R s HR Hs. eapply src_ok_wupd; eauto. Qed.

Lemma set_peek_same p s : sf_peek s = p -> set_peek p s = s.
Proof. destruct s. simpl. now intros ->. Qed.

Lemma src_peek_ff dir j R s w :
  ff w -> src_ok dir j R s w ->
  exists w', wsame w w' /\
    StoreFile.peek_record s w =
      (match R with [] => Err (EIo UnexpectedEof) | r :: _ => Ok r end,
       set_peek (head R) s, w') /\
    src_ok dir j R (set_peek (head R) s) w'.
Proof.
  intros Hff Hs. pose proof Hs as (S & HS & Hf & D & Hp & Hok & Hfit & Hsrt).
  rewrite <- Hf in HS.
  assert (Hok' : src_ok dir j R (set_peek (head R) s) w).
  { exists S. rewrite <- Hf. destruct s. simpl in *. split_and!; auto. }
  destruct R as [|r R'].
  - assert (Hn : sf_peek s = None) by (destruct Hp; done).
    destruct (peek_record_eof s w _ Hff HS Hn (drop_nil_le _ _ D)) as (w' & W & E).
    exists w'. rewrite set_peek_same by done. split_and!; [done|done|].
    rewrite set_peek_same in Hok' by done. eapply src_ok_wsame; eauto.
  - inversion Hok as [|? ? Hr _]; inversion Hfit as [|? ? Hfr _]; subst.
    destruct Hp as [Hn|Hp].
    + rewrite encode_log_cons in D.
      destruct (peek_record_ok s w _ _ r Hff HS Hn D Hr Hfr) as (w' & W & E).
      exists w'. split_and!; [done|done|]. eapply src_ok_wsame; eauto.
    + exists w. split_and!; [done| |done].
      rewrite (set_peek_same _ s Hp). apply peek_record_peeked. exact Hp.
Qed.

Lemma peek_all_ff dir n : forall i srcs w Rs,
  ff w -> srcs_ok dir Rs srcs w -> (i + n <= length srcs)%nat ->
  exists cands srcs' w', peek_all i n srcs w = (Ok cands, srcs', w') /\ wsame w w' /\
    srcs_ok dir Rs srcs' w' /\
    (forall j, (j < i \/ i + n <= j)%nat -> srcs' !! j = srcs !! j) /\
    (forall j R s, (i <= j < i + n)%nat -> Rs !! j = Some R -> srcs' !! j = Some s ->
       sf_peek s = head R).
Proof.
  induction n as [|n IH]; intros i srcs w Rs Hff Hok Hlen; simpl.
  - exists [], srcs, w. split_and!; try done. intros j R s Hj. lia.
  - destruct Hok as [L Hok].
    destruct (lookup_lt_is_Some_2 srcs i ltac:(lia)) as [s Hs].
    destruct (lookup_lt_is_Some_2 Rs i ltac:(lia)) as [R HR].
    destruct (src_peek_ff dir i R s w Hff (Hok _ _ _ HR Hs)) as (w1 & W1 & E1 & Hok1).
    set (srcs1 := <[i := set_peek (head R) s]> srcs).
    assert (Ht : try_io (on_nth i StoreFile.peek_record) srcs w =
                 (Ok (head R), srcs1, w1)).
    { unfold try_io, on_nth. rewrite Hs, E1. destruct R; reflexivity. }
    rewrite (bind_ok _ _ _ _ _ _ _ Ht).
    assert (Hsrcs1 : srcs_ok dir Rs srcs1 w1).
    { split; [unfold srcs1; now rewrite length_insert|].
      intros j R' s' HR' Hs'. unfold srcs1 in Hs'. destruct (decide (j = i)) as [->|Hne].
      - rewrite list_lookup_insert_eq in Hs' by lia. injection Hs' as <-.
        rewrite HR in HR'. injection HR' as <-. exact Hok1.
      - rewrite list_lookup_insert_ne in Hs' by done.
        eapply src_ok_wsame; [exact W1|]. eauto. }
    destruct (IH (S i) srcs1 w1 Rs (ff_wsame _ _ Hff W1) Hsrcs1)
      as (cands & srcs' & w' & E & W & Hok' & Fr & Pk).
    { unfold srcs1. rewrite length_insert. lia. }
    rewrite (bind_ok _ _ _ _ _ _ _ E). unfold ret.
    do 3 eexists. split; [reflexivity|]. split_and!.
    + eapply wsame_trans; eauto.
    + exact Hok'.
    + intros j Hj. rewrite Fr by lia. unfold srcs1. apply list_lookup_insert_ne. lia.
    + intros j R' s' Hj HR' Hs'. destruct (decide (j = i)) as [->|Hne].
      * rewrite Fr in Hs' by lia. unfold srcs1 in Hs'.
        rewrite list_lookup_insert_eq in Hs' by lia. injection Hs' as <-.
        rewrite HR in HR'. injection HR' as <-. destruct s; reflexivity.
      * apply (Pk j); [lia|done|done].
Qed.

Lemma pick_ff dir srcs w Rs :
  ff w -> srcs_ok dir Rs srcs w ->
  exists o srcs' w', pick srcs w = (Ok o, srcs', w') /\ wsame w w' /\
    srcs_ok dir Rs srcs' w' /\
    (forall j R s, Rs !! j = Some R -> srcs' !! j = Some s -> sf_peek s = head R).
Proof.
  intros Hff Hok. unfold pick. rewrite bind_get.
  destruct (peek_all_ff dir (length srcs) 0 srcs w Rs Hff Hok ltac:(lia))
    as (cands & srcs' & w' & E & W & Hok' & _ & Pk).
  rewrite (bind_ok _ _ _ _ _ _ _ E). unfold ret.
  do 3 eexists. split; [reflexivity|]. split_and!; [exact W|exact Hok'|].
  intros j R s HR Hs. apply (Pk j); [|done|done].
  split; [lia|]. destruct Hok as [L _]. apply lookup_lt_Some in HR. lia.
Qed.

(** ** The index *)

Lemma slice_app (c X : bytes) off len :
  off + len <= N.of_nat (length c) -> slice (c ++ X) off len = slice c off len.
Proof.
  intros H. unfold slice. rewrite drop_app_le by lia.
  rewrite take_app_le; [done|]. rewrite length_drop. lia.
Qed.

Lemma index_ok_ext id c ix m m' :
  (forall k, m k = m' k) -> index_ok id c ix m -> index_ok id c ix m'.
Proof. intros E H k. rewrite <- E. apply H. Qed.

Lemma index_ok_insert id c ix m k v :
  index_ok id c ix m -> rec_ok (Insert k v) ->
  index_ok id (c ++ encode (Insert k v))
    (<[k := mkIndexEntry id (N.of_nat (length c) + 16 + N.of_nat (length k))
                         (N.of_nat (length v))]> ix)
    (fun k' => if decide (k = k') then Some v else m k').
Proof.
  intros H Hok k'. destruct (decide (k = k')) as [<-|Hne].
  - rewrite lookup_insert_eq. cbn [ie_file ie_offset ie_length]. rewrite length_app, length_encode. unfold rlen.
    split_and!; [done|lia|].
    unfold slice. rewrite drop_app_ge by lia.
    replace (N.to_nat (N.of_nat (length c) + 16 + N.of_nat (length k)) - length c)%nat
      with (8 + 4 + 4 + length k)%nat by lia.
    unfold encode. rewrite !app_assoc, drop_app_length'.
    + rewrite Nat2N.id. apply take_ge. lia.
    + rewrite !length_app, !length_to_be_bytes. lia.
  - rewrite lookup_insert_ne by done. specialize (H k').
    destruct (ix !! k') as [e|], (m k') as [v'|]; try done.
    destruct H as (H1 & H2 & H3). split_and!; [done| |].
    + rewrite length_app. lia.
    + rewrite slice_app by done. exact H3.
Qed.

(** ** The merge loop *)

Lemma on_srcs_run {A} (m : M (list StoreFile) A) d srcs w r srcs' w' :
  m srcs w = (r, srcs', w') -> on_srcs m (d, srcs) w = (r, (d, srcs'), w').
Proof. unfold on_srcs, zoom. simpl. now intros ->. Qed.

Lemma on_dst_run {A} (m : M StoreFile A) d srcs w r d' w' :
  m d w = (r, d', w') -> on_dst m (d, srcs) w = (r, (d', srcs), w').
Proof. unfold on_dst, zoom. simpl. now intros ->. Qed.

Lemma src_read dir j r R' s w :
  src_ok dir j (r :: R') s w -> sf_peek s = Some r ->
  StoreFile.read_record s w =
    (Ok r, set_peek None (set_offset (sf_offset s + N.of_nat (rlen r)) s), w) /\
  src_ok dir j R' (set_peek None (set_offset (sf_offset s + N.of_nat (rlen r)) s)) w.
Proof.
  intros (S & HS & Hf & D & _ & Hok & Hfit & Hsrt) Hp.
  split; [now apply read_record_peek|].
  inversion Hok; inversion Hfit; subst. apply StronglySorted_inv in Hsrt as [Hsrt _].
  exists S. destruct s. simpl in *. split_and!; auto.
  rewrite encode_log_cons in D. apply (drop_adv _ (encode r)); [exact D|].
  now rewrite length_encode.
Qed.

Lemma sum_lengths_insert (Rs : list (list record)) i r R' :
  Rs !! i = Some (r :: R') ->
  S (sum_list_with length (<[i := R']> Rs)) = sum_list_with length Rs.
Proof.
  intros Hi. assert (Hlt : (i < length Rs)%nat) by (apply lookup_lt_Some in Hi; done).
  rewrite (insert_take_drop Rs i R' Hlt).
  transitivity (sum_list_with length (take i Rs ++ (r :: R') :: drop (S i) Rs));
    [|now rewrite take_drop_middle].
  rewrite !sum_list_with_app. simpl. lia.
Qed.

Lemma encode_log_pairs_snoc E k v :
  encode_log (map pair_insert (E ++ [(k, v)])) =
  encode_log (map pair_insert E) ++ encode (Insert k v).
Proof. rewrite map_app, encode_log_app. simpl. unfold encode_log at 2. simpl. now rewrite app_nil_r. Qed.

Lemma cinv_val P E ck cv v :
  cinv P (E, ck, cv) -> cv = Some v -> Forall rec_ok P ->
  exists k, ck = Some k /\ rec_ok (Insert k v).
Proof.
  intros (_ & _ & H) -> Hok. destruct (last P) as [x|] eqn:Hl.
  - destruct H as (-> & Hv & _). exists (rkey x). split; [done|].
    apply last_snoc_inv in Hl as (Pl & ->). apply Forall_app in Hok as [_ Hok].
    inversion Hok as [|? ? Hx _]; subst. destruct x; simpl in *; [|discriminate].
    injection Hv as ->. exact Hx.
  - destruct H as (_ & _ & ?). discriminate.
Qed.

Lemma merge_loop_spec dir Pa id L fuel : forall Rs P E ck cv index srcs w,
  ff w -> (forall j, Pa <> cpath dir j) -> srcs_ok dir Rs srcs w ->
  w_fs w Pa = Some (encode_log (map pair_insert E)) ->
  index_ok id (encode_log (map pair_insert E)) index (elookup E) ->
  fold_left cstep P ([], None, None) = (E, ck, cv) ->
  Forall rec_ok P -> StronglySorted kle P ->
  (forall x, x ∈ P -> forall j R, Rs !! j = Some R -> forall y, y ∈ R -> kle x y) ->
  (forall k, kf k P ++ concat (map (kf k) Rs) = kf k L) ->
  (sum_list_with length Rs < fuel)%nat ->
  exists P' E' ck' cv' index' srcs' w',
    merge_loop fuel index ck cv (at_end id Pa (encode_log (map pair_insert E)), srcs) w =
      (Ok (index', ck', cv'), (at_end id Pa (encode_log (map pair_insert E')), srcs'), w') /\
    fold_left cstep P' ([], None, None) = (E', ck', cv') /\
    Forall rec_ok P' /\ StronglySorted kle P' /\ (forall k, kf k P' = kf k L) /\
    index_ok id (encode_log (map pair_insert E')) index' (elookup E') /\
    ff w' /\ w_fs w' Pa = Some (encode_log (map pair_insert E')) /\ w_dirs w' = w_dirs w.
Proof.
  induction fuel as [|fuel IH];
    intros Rs P E ck cv index srcs w Hff HPa Hok HW Hix Hfold HPok HPs Hbel Hkf Hfuel; [lia|].
  simpl merge_loop.
  destruct (pick_ff dir srcs w Rs Hff Hok) as (o & srcs1 & w1 & Ep & W1 & Hok1 & Pk1).
  pose proof (pick_gen _ _ _ _ _ Ep) as [Lp Hp].
  rewrite (bind_ok _ _ _ _ _ _ _ (on_srcs_run _ _ _ _ _ _ _ Ep)).
  pose proof (ff_wsame _ _ Hff W1) as Hff1.
  pose proof (wsame_at _ _ _ _ W1 HW) as HW1.
  assert (Hd1 : w_dirs w1 = w_dirs w) by (destruct W1 as (_ & -> & _); done).
  destruct Hok1 as [L1 Hok1'].
  destruct o as [i|].
  - destruct Hp as (s & r & Hs & Hpr & Hmin).
    destruct (lookup_lt_is_Some_2 Rs i) as [R HR].
    { rewrite L1. apply lookup_lt_Some in Hs. done. }
    pose proof (Pk1 _ _ _ HR Hs) as Hh. rewrite Hpr in Hh.
    destruct R as [|r0 R']; [discriminate|]. simpl in Hh. injection Hh as <-.
    pose proof (Hok1' _ _ _ HR Hs) as Hsrc.
    destruct (src_read dir i r R' s w1 Hsrc Hpr) as [Er Hsrc2].
    set (s2 := set_peek None (set_offset (sf_offset s + N.of_nat (rlen r)) s)) in *.
    assert (En : on_nth i StoreFile.read_record srcs1 w1 = (Ok r, <[i := s2]> srcs1, w1)).
    { unfold on_nth. rewrite Hs, Er. reflexivity. }
    rewrite (bind_ok _ _ _ _ _ _ _ (on_srcs_run _ _ _ _ _ _ _ En)).
    assert (Hmin' : forall j r'' R'', Rs !! j = Some (r'' :: R'') ->
              kle r r'' /\ ((j < i)%nat -> key_cmp (rkey r) (rkey r'') = Lt)).
    { intros j r'' R'' Hj. destruct (lookup_lt_is_Some_2 srcs1 j) as [s' Hs'].
      { rewrite <- L1. apply lookup_lt_Some in Hj. done. }
      pose proof (Pk1 _ _ _ Hj Hs') as Hh'. simpl in Hh'. exact (Hmin _ _ _ Hs' Hh'). }
    assert (Hsrt : forall j R0, Rs !! j = Some R0 -> StronglySorted kle R0).
    { intros j R0 Hj. destruct (lookup_lt_is_Some_2 srcs1 j) as [s' Hs'].
      { rewrite <- L1. apply lookup_lt_Some in Hj. done. }
      destruct (Hok1' _ _ _ Hj Hs') as (? & _ & _ & _ & _ & _ & _ & H). exact H. }
    destruct (merge_pure_step L P Rs i r R' HR Hsrt Hmin' HPs Hbel Hkf)
      as (Hx & HPs' & Hbel' & Hkf').
    assert (Hok2 : srcs_ok dir (<[i:=R']> Rs) (<[i:=s2]> srcs1) w1).
    { split; [rewrite !length_insert; exact L1|].
      intros j R0 s0 HR0 Hs0. destruct (decide (j = i)) as [->|Hne].
      - rewrite list_lookup_insert_eq in HR0 by (apply lookup_lt_Some in HR; done).
        rewrite list_lookup_insert_eq in Hs0 by (apply lookup_lt_Some in Hs; done).
        injection HR0 as <-. injection Hs0 as <-. exact Hsrc2.
      - rewrite list_lookup_insert_ne in HR0 by done. rewrite list_lookup_insert_ne in Hs0 by done. exact (Hok1' _ _ _ HR0 Hs0). }
    assert (Hr_ok : rec_ok r).
    { destruct Hsrc as (? & _ & _ & _ & _ & Hr & _). now inversion Hr. }
    assert (HPok' : Forall rec_ok (P ++ [r])) by (apply Forall_app; split; [done|by constructor]).
    pose proof (cinv_fold P HPs) as Hcinv. rewrite Hfold in Hcinv.
    assert (Hfold' : fold_left cstep (P ++ [r]) ([], None, None) = cstep (E, ck, cv) r).
    { rewrite fold_left_app, Hfold. reflexivity. }
    assert (Hfuel' : (sum_list_with length (<[i:=R']> Rs) < fuel)%nat).
    { pose proof (sum_lengths_insert _ _ _ _ HR). lia. }
    unfold cstep in Hfold'.
    destruct (decide (rkey r = match ck with Some k => k | None => rkey r end)) as [Heq|Hne].
    + unfold bind at 1, ret at 1. cbn beta iota.
      destruct (IH (<[i:=R']> Rs) (P ++ [r]) E _ (rval r) index _ w1 Hff1 HPa Hok2 HW1 Hix
                  Hfold' HPok' HPs' Hbel' Hkf' Hfuel')
        as (P' & E' & ck' & cv' & index' & srcs' & w' & Em & H).
      exists P', E', ck', cv', index', srcs', w'. rewrite Em. split; [done|].
      destruct H as (? & ? & ? & ? & ? & ? & ? & Hd'). split_and!; try done. congruence.
    + destruct cv as [v|].
      * destruct (cinv_val _ _ _ _ v Hcinv eq_refl HPok) as (k & -> & Hkv).
        destruct (insert_at_end id Pa _ k v w1 Hff1 HW1 Hkv) as (w2 & U2 & Ei).
        pose proof (on_dst_run _ _ (<[i:=s2]> srcs1) _ _ _ _ Ei) as Ei'.
        unfold bind at 1 2 3. rewrite Ei'. unfold ret. cbn beta iota.
        rewrite <- encode_log_pairs_snoc.
        assert (Hix2 : index_ok id (encode_log (map pair_insert (E ++ [(k, v)])))
                  (<[k:=mkIndexEntry id (N.of_nat (length (encode_log (map pair_insert E))) + 16
                      + N.of_nat (length k)) (N.of_nat (length v))]> index)
                  (elookup (E ++ [(k, v)]))).
        { rewrite encode_log_pairs_snoc. eapply index_ok_ext; [|exact (index_ok_insert _ _ _ _ _ _ Hix Hkv)].
          intros k'. now rewrite elookup_snoc. }
        assert (HW2 : w_fs w2 Pa = Some (encode_log (map pair_insert (E ++ [(k, v)])))).
        { rewrite encode_log_pairs_snoc. exact (wupd_at _ _ _ _ U2). }
        destruct (IH (<[i:=R']> Rs) (P ++ [r]) (E ++ [(k, v)]) _ (rval r) _ _ w2
                    (ff_wupd _ _ _ _ Hff1 U2) HPa (srcs_ok_wupd _ _ _ _ _ _ _ U2 HPa Hok2) HW2 Hix2
                    Hfold' HPok' HPs' Hbel' Hkf' Hfuel')
          as (P' & E' & ck' & cv' & index' & srcs' & w' & Em & H).
        exists P', E', ck', cv', index', srcs', w'. rewrite Em. split; [done|].
        destruct H as (? & ? & ? & ? & ? & ? & ? & Hd'). split_and!; try done.
        destruct U2 as (_ & _ & Ud & _). congruence.
      * unfold bind at 1 2, ret. cbn beta iota.
        destruct (IH (<[i:=R']> Rs) (P ++ [r]) E _ _ index _ w1 Hff1 HPa Hok2 HW1 Hix
                    Hfold' HPok' HPs' Hbel' Hkf' Hfuel')
          as (P' & E' & ck' & cv' & index' & srcs' & w' & Em & H).
        exists P', E', ck', cv', index', srcs', w'. rewrite Em. split; [done|].
        destruct H as (? & ? & ? & ? & ? & ? & ? & Hd'). split_and!; try done. congruence.
  - exists P, E, ck, cv, index, srcs1, w1. split; [done|].
    split_and!; try done.
    intros k. rewrite <- (Hkf k), (concat_kf_nil k Rs), app_nil_r; [done|].
    intros R HR. apply list_elem_of_lookup_1 in HR as (j & Hj).
    destruct (lookup_lt_is_Some_2 srcs1 j) as [s' Hs'].
    { rewrite <- L1. apply lookup_lt_Some in Hj. done. }
    pose proof (Pk1 _ _ _ Hj Hs') as Hh. rewrite (Hp _ _ Hs') in Hh.
    destruct R; [done|discriminate].
Qed.

(** ** [merge] *)

Lemma chunk_files_lookup dir k cs j :
  chunk_files dir k cs !! j =
    (fun c => at_end (N.of_nat (k + j)) (cpath dir (k + j)) (encode_log (sort_by_key c)))
      <$> cs !! j.
Proof.
  revert k j. induction cs as [|c cs IH]; intros k j; [done|].
  destruct j as [|j]; simpl.
  - now rewrite Nat.add_0_r.
  - rewrite IH. now replace (S k + j)%nat with (k + S j)%nat by lia.
Qed.

Lemma length_chunk_files dir k cs : length (chunk_files dir k cs) = length cs.
Proof. revert k. induction cs; intros k; simpl; auto. Qed.

Lemma kf_concat k (cs : list (list record)) : kf k (concat cs) = concat (map (kf k) cs).
Proof. induction cs as [|c cs IH]; [done|]. simpl. now rewrite kf_app, IH. Qed.

Lemma lookup_map_list {A B} (f : A -> B) l i : map f l !! i = f <$> l !! i.
Proof. revert i. induction l as [|x l IH]; intros [|i]; simpl; auto. Qed.

Lemma srcs0_ok dir chunks w :
  chunks_in dir chunks w -> Forall rec_ok (concat chunks) -> Forall fits (concat chunks) ->
  srcs_ok dir (map sort_by_key chunks) (map reset_sf (chunk_files dir 0 chunks)) w.
Proof.
  intros [Hin _] Hok Hfit. split; [now rewrite !length_map, length_chunk_files|].
  intros j R s HR Hs. rewrite lookup_map_list in HR. rewrite lookup_map_list in Hs. rewrite chunk_files_lookup in Hs.
  destruct (chunks !! j) as [c|] eqn:Hc; [|discriminate].
  simpl in HR, Hs. injection HR as <-. injection Hs as <-.
  assert (Hcin : c ∈ chunks) by (eapply list_elem_of_lookup_2; eauto).
  exists (sort_by_key c). simpl. split_and!; auto.
  - rewrite Forall_concat, Forall_forall in Hok. now apply sort_rec_ok, Hok.
  - rewrite Forall_concat, Forall_forall in Hfit. rewrite (sort_perm c). now apply Hfit.
  - apply sort_sorted.
Qed.

Lemma fuel_chunks dir w k cs :
  (forall j c, cs !! j = Some c -> w_fs w (cpath dir (k + j)) = Some (encode_log (sort_by_key c))) ->
  (sum_list_with length (map sort_by_key cs) <=
   sum_list_with (fun s => length (contents w (sf_file s))) (map reset_sf (chunk_files dir k cs)))%nat.
Proof.
  revert k. induction cs as [|c cs IH]; intros k H; simpl; [lia|].
  pose proof (H 0%nat c eq_refl) as H0. rewrite Nat.add_0_r in H0.
  unfold contents. simpl. rewrite H0. simpl.
  pose proof (length_le_encode_log (sort_by_key c)).
  assert (IH' : (sum_list_with length (map sort_by_key cs) <=
     sum_list_with (fun s => length (contents w (sf_file s))) (map reset_sf (chunk_files dir (S k) cs)))%nat).
  { apply IH. intros j c' Hj. replace (S k + j)%nat with (k + S j)%nat by lia. now apply H. }
  unfold contents in IH'. lia.
Qed.

Lemma flush_dst d srcs w : on_dst (on_handle flush) (d, srcs) w = (Ok tt, (d, srcs), w).
Proof. unfold on_dst, zoom, on_handle, zoom, flush, ret. simpl. now rewrite set_file_same. Qed.

Lemma merge_spec dir Pa id log chunks w :
  ff w -> (forall j, Pa <> cpath dir j) -> w_fs w Pa = Some [] -> chunks_in dir chunks w ->
  concat chunks = log -> Forall rec_ok log -> Forall fits log ->
  exists P index srcs' w',
    merge (at_end id Pa [], map reset_sf (chunk_files dir 0 chunks)) w =
      (Ok index, (at_end id Pa (encode_log (map pair_insert (collapse P))), srcs'), w') /\
    StronglySorted kle P /\ (forall k, kf k P = kf k log) /\ Forall rec_ok P /\
    index_ok id (encode_log (map pair_insert (collapse P))) index (elookup (collapse P)) /\
    ff w' /\ w_fs w' Pa = Some (encode_log (map pair_insert (collapse P))) /\
    w_dirs w' = w_dirs w.
Proof.
  intros Hff HPa HW Hin Hc Hok Hfit.
  assert (Hsrcs := srcs0_ok dir chunks w Hin ltac:(now rewrite Hc) ltac:(now rewrite Hc)).
  unfold merge, bind at 1, bounded. cbn [snd].
  change (at_end id Pa []) with (at_end id Pa (encode_log (map pair_insert []))).
  destruct (merge_loop_spec dir Pa id log
              (S (sum_list_with (fun s => length (contents w (sf_file s)))
                    (map reset_sf (chunk_files dir 0 chunks))))
              (map sort_by_key chunks) [] [] None None ∅ _ w Hff HPa Hsrcs HW)
    as (P & E & ck & cv & index & srcs' & w' & Em & Hfold & HPok & HPs & Hkf & Hix & Hff' & HW' & Hd').
  { intros k. now rewrite lookup_empty. }
  { reflexivity. }
  { constructor. }
  { constructor. }
  { intros x Hx. by apply elem_of_nil in Hx. }
  { intros k. simpl. rewrite map_map, <- Hc, kf_concat. f_equal. apply map_ext. apply kf_sort. }
  { assert (Hf := fuel_chunks dir w 0 chunks (proj1 Hin)). lia. }
  rewrite Em. cbn beta iota.
  pose proof (cinv_fold P HPs) as Hcinv. rewrite Hfold in Hcinv.
  assert (Hcol : collapse P = cfinal (E, ck, cv)) by (unfold collapse; now rewrite Hfold).
  destruct cv as [v|].
  - destruct (cinv_val _ _ _ _ v Hcinv eq_refl HPok) as (k & -> & Hkv).
    destruct (insert_at_end id Pa _ k v w' Hff' HW' Hkv) as (w2 & U2 & Ei).
    unfold bind. rewrite (on_dst_run _ _ srcs' _ _ _ _ Ei). unfold ret. cbn beta iota.
    rewrite flush_dst.
    exists P. rewrite Hcol. simpl cfinal. rewrite encode_log_pairs_snoc.
    do 3 eexists. split; [reflexivity|]. split_and!; try done.
    + rewrite <- encode_log_pairs_snoc. eapply index_ok_ext;
        [|rewrite encode_log_pairs_snoc; exact (index_ok_insert _ _ _ _ _ _ Hix Hkv)].
      intros k'. now rewrite elookup_snoc.
    + exact (ff_wupd _ _ _ _ Hff' U2).
    + exact (wupd_at _ _ _ _ U2).
    + destruct U2 as (_ & _ & -> & _). done.
  - assert (Hcol' : collapse P = E) by (rewrite Hcol; now destruct ck).
    exists P. rewrite Hcol'.
    destruct ck; unfold bind, ret; rewrite flush_dst;
      do 3 eexists; (split; [reflexivity|]); split_and!; done.
Qed.

(** ** [Store::reduce] *)

Lemma on_file_run {A} id (m : M StoreFile A) st w f r f' w' :
  st_files st !! id = Some f -> m f w = (r, f', w') ->
  Store.on_file id m st w = (r, set_files (<[id := f']> (st_files st)) st, w').
Proof. intros Hf E. unfold Store.on_file. now rewrite Hf, E. Qed.

Lemma chunks_in_wupd dir done p c w w' :
  chunks_in dir done w -> wupd p c w w' -> (forall j, p <> cpath dir j) -> chunks_in dir done w'.
Proof.
  intros [H1 H2] (_ & U & _) Hp. split.
  - intros j c' Hj. rewrite U; [now apply H1|]. intros E. now apply (Hp j).
  - intros j Hj. rewrite U; [now apply H2|]. intros E. now apply (Hp j).
Qed.

Lemma elem_kf r l : r ∈ l -> r ∈ kf (rkey r) l.
Proof. intros H. unfold kf. apply list_elem_of_filter. auto. Qed.

Lemma elem_kf_inv r k l : r ∈ kf k l -> r ∈ l.
Proof. intros H. unfold kf in H. apply list_elem_of_filter in H. tauto. Qed.

Lemma reduce_spec limit log st w :
  SInv log st w -> Forall fits log ->
  exists E st' w', Store.reduce limit st w = (Ok tt, st', w') /\
    SInv (map pair_insert E) st' w' /\ ESorted E /\ Forall fits (map pair_insert E) /\
    (forall k, elookup E k = model log k) /\
    st_id st' = st_id st /\ st_base st' = st_base st.
Proof.
  intros (Hf & Hok & HW & Hix & Hbase & Hscr & Hff) Hfit.
  destruct st as [id base files index]. cbn [st_id st_base st_files st_index] in *.
  unfold active_path, scratch_path, Store.id_to_dat_path, Store.id_to_dir_path,
    Store.id_to_path in *. cbn [st_id st_base] in *.
  set (P := [SBase base; SNum id ".dat"]) in *.
  set (dir := [SBase base; SNum id ""]) in *.
  destruct (split_ok base limit id (encode_log log) log w Hff HW eq_refl Hok Hscr) as [Hs _].
  destruct (Hs Hfit) as (f1 & w1 & Es & Hff1 & HW1 & Hd1 & Hdm1 & Hin1).
  set (chunks := split_chunks limit 0 [] log) in *.
  unfold Store.reduce. rewrite bind_get. cbn [st_id st_base st_files].
  rewrite (bind_ok _ _ _ _ _ _ _ (on_file_run id _ (mkStore id base files index) _ _ _ _ _ Hf Es)).
  destruct (create_ff id P true w1 Hff1 (Hdm1 _ Hbase)) as (w2 & U2 & Ec). cbv zeta in U2, Ec.
  assert (Emk : (let* f := call (StoreFile.make id (Store.id_to_dat_path base id)) in put f) f1 w1
                = (Ok tt, at_end id P [], w2)).
  { unfold bind, call, StoreFile.make. unfold Store.id_to_dat_path, Store.id_to_path.
    fold P. rewrite Ec. reflexivity. }
  rewrite (bind_ok _ _ _ _ _ _ _ (on_file_run id _ (set_files (<[id:=f1]> files) (mkStore id base files index)) _ _ _ _ _
    ltac:(apply lookup_insert_eq) Emk)).
  assert (HPc : forall j, P <> cpath dir j).
  { intros j E. unfold cpath in E. simpl in E. injection E as E. discriminate. }
  pose proof (ff_wupd _ _ _ _ Hff1 U2) as Hff2.
  destruct (merge_spec dir P id log chunks w2 Hff2 HPc (wupd_at _ _ _ _ U2)
              (chunks_in_wupd _ _ _ _ _ _ Hin1 U2 HPc) (split_chunks_concat _ _ _ _) Hok Hfit)
    as (P' & index' & srcs' & w3 & Em & HPs & Hkf & HPok & Hix' & Hff3 & HW3 & Hd3).
  assert (Ewl : with_local (map reset_sf (chunk_files dir 0 chunks)) merge (at_end id P []) w2
                = (Ok index', at_end id P (encode_log (map pair_insert (collapse P'))), w3)).
  { unfold with_local. now rewrite Em. }
  rewrite (bind_ok _ _ _ _ _ _ _ (on_file_run id _ (set_files (<[id:=at_end id P []]> (<[id:=f1]> files)) (set_files (<[id:=f1]> files) (mkStore id base files index))) _ _ _ _ _
    ltac:(apply lookup_insert_eq) Ewl)).
  unfold bind at 1, modify.
  assert (Hd3' : w_dirs w3 dir = true).
  { rewrite Hd3. destruct U2 as (_ & _ & -> & _). exact Hd1. }
  unfold liftW, remove_dir_all. rewrite (syscall_ff _ _ Hff3). cbn [w_dirs tick].
  unfold Store.id_to_dir_path, Store.id_to_path. fold dir. rewrite Hd3'.
  exists (collapse P'). eexists _, _. split; [reflexivity|].
  destruct (collapse_spec P' HPs) as (HEs & Hmem & Hel).
  assert (Hpd : is_prefix dir P = false).
  { unfold dir, P. simpl. rewrite bool_decide_true by done. rewrite bool_decide_false; [done|]. congruence. }
  assert (Hpb : is_prefix dir [SBase base] = false).
  { unfold dir. simpl. now rewrite andb_false_r. }
  assert (Hdb : w_dirs w3 [SBase base] = true).
  { rewrite Hd3. destruct U2 as (_ & _ & -> & _). now apply Hdm1. }
  split; [|split; [exact HEs|split; [|split; [|done]]]].
  - unfold SInv, active_path, scratch_path, Store.id_to_dat_path, Store.id_to_dir_path, Store.id_to_path.
    cbn [set_index set_files st_id st_base st_files st_index w_fs w_dirs w_fault tick].
    fold P dir. split; [apply lookup_insert_eq|]. split.
    { apply List.Forall_forall. intros r Hr. apply in_map_iff in Hr as ([k v] & <- & Hkv).
      apply list_elem_of_In, Hmem in Hkv. rewrite List.Forall_forall in HPok.
      apply HPok, list_elem_of_In, Hkv. }
    split; [now rewrite Hpd|]. split.
    { exact (index_ok_ext _ _ _ _ _ (fun k => eq_sym (model_pairs _ k)) Hix'). }
    split; [now rewrite Hdb, Hpb|]. split.
    { intros q Hq. now rewrite Hq. }
    intros n. apply Hff3.
  - apply List.Forall_forall. intros r Hr. apply in_map_iff in Hr as ([k v] & <- & Hkv).
    apply list_elem_of_In, Hmem, elem_kf in Hkv. rewrite Hkf in Hkv.
    apply elem_kf_inv, list_elem_of_In in Hkv. rewrite List.Forall_forall in Hfit. now apply Hfit.
  - intros k. rewrite Hel. now apply model_ext.
Qed.

Lemma reduce_unfit limit log st w :
  SInv log st w -> ~ Forall fits log ->
  exists e st' w', Store.reduce limit st w = (Err e, st', w').
Proof.
  intros (Hf & Hok & HW & Hix & Hbase & Hscr & Hff) Hfit.
  destruct st as [id base files index]. cbn [st_id st_base st_files st_index] in *.
  unfold active_path, scratch_path, Store.id_to_dat_path, Store.id_to_dir_path,
    Store.id_to_path in *. cbn [st_id st_base] in *.
  destruct (split_ok base limit id (encode_log log) log w Hff HW eq_refl Hok Hscr) as [_ Hs].
  destruct (Hs Hfit) as (e & f1 & w1 & Es).
  unfold Store.reduce. rewrite bind_get. cbn [st_id st_base st_files].
  do 3 eexists. apply bind_err. apply (on_file_run id _ (mkStore id base files index) _ _ _ _ _ Hf Es).
Qed.

(** ** Successful appends *)

Ltac wr_inv H :=
  let w1 := fresh "w" in let U := fresh "U" in let Hc' := fresh "Hc" in let H' := fresh "H" in
  lazymatch type of H with
  | bind (on_handle (write_all ?bs)) ?k ?f ?w = _ =>
    lazymatch goal with Hc : w_fs w _ = Some ?c |- _ =>
      destruct (bind_write_ok_inv bs k f w c _ _ _ Hc
                  ltac:(first [assumption | reflexivity]) H) as (w1 & U & H');
      clear Hc H; rename H' into H; pose proof (wupd_at _ _ _ _ U) as Hc';
      cbn [set_file sf_file f_path f_pos sf_id sf_offset sf_peek] in H, U, Hc'
    end
  end.

Lemma insert_ok_inv key val f w c e f' w' :
  w_fs w (f_path (sf_file f)) = Some c -> f_pos (sf_file f) = N.of_nat (length c) ->
  rec_ok (Insert key val) ->
  StoreFile.insert key val f w = (Ok e, f', w') ->
  wupd (f_path (sf_file f)) (c ++ encode (Insert key val)) w w' /\
  f' = mkStoreFile (sf_id f)
         (mkFile (f_path (sf_file f)) (N.of_nat (length (c ++ encode (Insert key val)))))
         (sf_offset f + N.of_nat (rlen (Insert key val))) (sf_peek f).
Proof.
  intros Hc Hpos Hok H. destruct (rec_ok_insert _ _ Hok) as [Ek Ev].
  pose proof (wupd_nil _ _ _ Hc) as U0.
  unfold StoreFile.insert in H. cbv zeta in H.
  wr_inv H. wr_inv H. wr_inv H. wr_inv H. wr_inv H.
  unfold bind, on_handle, flush, modify, get, ret, put in H.
  cbn [set_file set_offset sf_file sf_id sf_offset sf_peek] in H. injection H as _ <- <-.
  split.
  - unfold encode. rewrite !app_assoc.
    do 5 (eapply wupd_trans; [eassumption|]). eapply wupd_nil; eassumption.
  - unfold set_offset, set_file. cbn [sf_id sf_file sf_offset sf_peek f_path f_pos]. unfold encode.
    rewrite !length_app, ?length_to_be_bytes. simpl length. rewrite Ek, Ev. unfold rlen.
    f_equal; [f_equal; f_equal|]; lia.
Qed.

Lemma remove_ok_inv key f w c f' w' :
  w_fs w (f_path (sf_file f)) = Some c -> f_pos (sf_file f) = N.of_nat (length c) ->
  rec_ok (Remove key) ->
  StoreFile.remove key f w = (Ok tt, f', w') ->
  wupd (f_path (sf_file f)) (c ++ encode (Remove key)) w w' /\
  f' = mkStoreFile (sf_id f)
         (mkFile (f_path (sf_file f)) (N.of_nat (length (c ++ encode (Remove key)))))
         (sf_offset f + N.of_nat (rlen (Remove key))) (sf_peek f).
Proof.
  intros Hc Hpos Hok H. pose proof (rec_ok_remove _ Hok) as Ek.
  pose proof (wupd_nil _ _ _ Hc) as U0.
  unfold StoreFile.remove in H. cbv zeta in H.
  wr_inv H. wr_inv H. wr_inv H.
  unfold bind, on_handle, flush, modify, get, ret, put in H.
  cbn [set_file set_offset sf_file sf_id sf_offset sf_peek] in H. injection H as <- <-.
  split.
  - unfold encode. rewrite !app_assoc.
    do 3 (eapply wupd_trans; [eassumption|]). eapply wupd_nil; eassumption.
  - unfold set_offset, set_file. cbn [sf_id sf_file sf_offset sf_peek f_path f_pos]. unfold encode.
    rewrite !length_app, ?length_to_be_bytes. simpl length. rewrite Ek. unfold rlen.
    f_equal; [f_equal; f_equal|]; lia.
Qed.

Lemma exec_ok_inv r f w c f' w' :
  w_fs w (f_path (sf_file f)) = Some c -> f_pos (sf_file f) = N.of_nat (length c) ->
  rec_ok r ->
  StoreFile.exec r f w = (Ok tt, f', w') ->
  wupd (f_path (sf_file f)) (c ++ encode r) w w' /\
  f' = mkStoreFile (sf_id f) (mkFile (f_path (sf_file f)) (N.of_nat (length (c ++ encode r))))
         (sf_offset f + N.of_nat (rlen r)) (sf_peek f).
Proof.
  intros Hc Hpos Hok H. destruct r as [k v|k]; simpl in H.
  - apply bind_ok_inv in H as (e & f1 & w1 & H1 & H2). injection H2 as <- <-.
    exact (insert_ok_inv _ _ _ _ _ _ _ _ Hc Hpos Hok H1).
  - exact (remove_ok_inv _ _ _ _ _ _ Hc Hpos Hok H).
Qed.

(** ** [Store] operations in a fault-free world *)

Lemma encode_log_snoc l r : encode_log (l ++ [r]) = encode_log l ++ encode r.
Proof. rewrite encode_log_app. unfold encode_log at 2. cbn [map concat]. now rewrite app_nil_r. Qed.

Lemma scratch_active st : is_prefix (scratch_path st) (active_path st) = false.
Proof.
  unfold scratch_path, active_path, Store.id_to_dir_path, Store.id_to_dat_path, Store.id_to_path.
  simpl. rewrite bool_decide_true by done. rewrite bool_decide_false; [done|]. congruence.
Qed.

Lemma index_ok_delete id c ix m k X :
  index_ok id c ix m ->
  index_ok id (c ++ X) (delete k ix) (fun k' => if decide (k = k') then None else m k').
Proof.
  intros H k'. destruct (decide (k = k')) as [<-|Hne].
  - now rewrite lookup_delete_eq.
  - rewrite lookup_delete_ne by done. specialize (H k').
    destruct (ix !! k') as [e|], (m k') as [v'|]; try done.
    destruct H as (H1 & H2 & H3). split_and!; [done| |].
    + rewrite length_app. lia.
    + rewrite slice_app by done. exact H3.
Qed.

Lemma SInv_step log st w r w1 ix :
  SInv log st w -> rec_ok r -> wupd (active_path st) (encode_log log ++ encode r) w w1 ->
  index_ok (st_id st) (encode_log (log ++ [r])) ix (model (log ++ [r])) ->
  SInv (log ++ [r])
    (set_index ix (set_files (<[st_id st := at_end (st_id st) (active_path st)
                                             (encode_log log ++ encode r)]> (st_files st)) st)) w1.
Proof.
  intros (Hf & Hok & HW & Hix & Hbase & Hscr & Hff) Hr U Hix'.
  pose proof (scratch_active st) as Hsa.
  destruct st as [id base files index].
  unfold SInv, active_path, scratch_path in *. cbn [set_index set_files st_id st_base st_files st_index] in *.
  rewrite encode_log_snoc. split; [apply lookup_insert_eq|]. split.
  { apply Forall_app. split; [done|]. constructor; [exact Hr|constructor]. }
  split; [exact (wupd_at _ _ _ _ U)|]. split; [now rewrite <- encode_log_snoc|].
  pose proof (ff_wupd _ _ _ _ Hff U) as Hff1.
  destruct U as (_ & U & Hd & _). split; [now rewrite Hd|]. split.
  - intros q Hq. rewrite U; [now apply Hscr|]. intros ->. congruence.
  - exact Hff1.
Qed.

Lemma store_insert_spec log st w k v :
  SInv log st w -> rec_ok (Insert k v) ->
  exists st' w', Store.insert k v st w = (Ok tt, st', w') /\
    SInv (log ++ [Insert k v]) st' w' /\ st_id st' = st_id st /\ st_base st' = st_base st /\
    st_index st' = <[k := mkIndexEntry (st_id st)
                           (N.of_nat (length (encode_log log)) + 16 + N.of_nat (length k))
                           (N.of_nat (length v))]> (st_index st).
Proof.
  intros HI Hr. pose proof HI as (Hf & Hok & HW & Hix & Hbase & Hscr & Hff).
  destruct (insert_at_end (st_id st) (active_path st) (encode_log log) k v w Hff HW Hr) as (w1 & U & E).
  unfold Store.insert. rewrite bind_get.
  rewrite (bind_ok _ _ _ _ _ _ _ (on_file_run _ _ st _ _ _ _ _ Hf E)).
  eexists _, _. split; [reflexivity|]. split; [|done].
  apply (SInv_step _ _ _ _ _ _ HI Hr U).
  apply (index_ok_ext _ _ _ _ _ (fun k' => eq_sym (model_snoc log (Insert k v) k'))).
  rewrite encode_log_snoc. now apply index_ok_insert.
Qed.

Lemma store_remove_spec log st w k :
  SInv log st w -> rec_ok (Remove k) ->
  exists st' w', Store.remove k st w = (Ok (bool_decide (is_Some (st_index st !! k))), st', w') /\
    SInv (log ++ [Remove k]) st' w' /\ st_id st' = st_id st /\ st_base st' = st_base st /\
    st_index st' = delete k (st_index st).
Proof.
  intros HI Hr. pose proof HI as (Hf & Hok & HW & Hix & Hbase & Hscr & Hff).
  destruct (remove_at_end (st_id st) (active_path st) (encode_log log) k w Hff HW Hr) as (w1 & U & E).
  unfold Store.remove. rewrite bind_get.
  rewrite (bind_ok _ _ _ _ _ _ _ (on_file_run _ _ st _ _ _ _ _ Hf E)).
  eexists _, _. split; [reflexivity|]. split; [|done].
  apply (SInv_step _ _ _ _ _ _ HI Hr U).
  apply (index_ok_ext _ _ _ _ _ (fun k' => eq_sym (model_snoc log (Remove k) k'))).
  rewrite encode_log_snoc. now apply index_ok_delete.
Qed.

Lemma run_ops_spec ops : forall log st w,
  SInv log st w -> Forall (fun o => rec_ok (op_record o)) ops ->
  exists st' w', run_ops ops st w = (Ok tt, st', w') /\
    SInv (log ++ map op_record ops) st' w' /\ st_id st' = st_id st /\ st_base st' = st_base st.
Proof.
  induction ops as [|o ops IH]; intros log st w HI Hops.
  - exists st, w. rewrite app_nil_r. done.
  - inversion Hops as [|? ? Ho Hops']; subst. destruct o as [k v|k]; simpl.
    + destruct (store_insert_spec log st w k v HI Ho) as (st1 & w1 & E1 & HI1 & Hid1 & Hb1 & _).
      rewrite (bind_ok _ _ _ _ _ _ _ E1).
      destruct (IH _ _ _ HI1 Hops') as (st2 & w2 & E2 & HI2 & Hid2 & Hb2).
      exists st2, w2. rewrite <- app_assoc in HI2. split_and!; [exact E2|exact HI2|congruence|congruence].
    + destruct (store_remove_spec log st w k HI Ho) as (st1 & w1 & E1 & HI1 & Hid1 & Hb1 & _).
      rewrite (bind_ok _ _ _ _ _ _ _ E1).
      destruct (IH _ _ _ HI1 Hops') as (st2 & w2 & E2 & HI2 & Hid2 & Hb2).
      exists st2, w2. rewrite <- app_assoc in HI2. split_and!; [exact E2|exact HI2|congruence|congruence].
Qed.

Lemma open_spec base w :
  fresh_world base w ->
  exists st w', Store.open base tt w = (Ok st, tt, w') /\ SInv [] st w' /\
    st_id st = 1 /\ st_base st = base /\ st_index st = ∅.
Proof.
  intros (Hff & Hd & Hnone).
  set (P := [SBase base; SNum 1 ".dat"]).
  assert (HP : w_fs w P = None) by (apply Hnone; simpl; now rewrite bool_decide_true).
  destruct (create_ff 1 P false w Hff Hd) as (w1 & U & E). cbv zeta in U, E. rewrite HP in U, E.
  cbn [default] in U, E.
  unfold Store.open, Store.id_to_file, StoreFile.open, Store.id_to_path.
  fold P. rewrite (bind_ok _ _ _ _ _ _ _ E).
  eexists _, _. split; [reflexivity|].
  pose proof (ff_wupd _ _ _ _ Hff U) as Hff1.
  split_and!; try done.
  - unfold SInv, active_path, scratch_path, Store.id_to_dat_path, Store.id_to_dir_path, Store.id_to_path.
    cbn [st_id st_base st_files st_index]. fold P. split; [now rewrite lookup_insert_eq|].
    split; [constructor|]. split; [exact (wupd_at _ _ _ _ U)|]. split.
    { intros k. now rewrite lookup_empty. }
    destruct U as (_ & U & Hd1 & _). split; [now rewrite Hd1|]. split; [|exact Hff1].
    intros q Hq. rewrite U.
    + apply Hnone. destruct q as [|x q]; [done|]. simpl in Hq |- *.
      apply andb_prop in Hq as [Hq _]. now rewrite Hq.
    + intros ->. unfold P in Hq. simpl in Hq. now rewrite andb_false_r in Hq.
Qed.

Lemma reachable_spec base ops w :
  fresh_world base w -> Forall (fun o => rec_ok (op_record o)) ops ->
  exists st w', reachable base ops tt w = (Ok st, tt, w') /\
    SInv (map op_record ops) st w' /\ st_base st = base.
Proof.
  intros Hw Hops. destruct (open_spec base w Hw) as (st0 & w0 & E0 & HI0 & _ & Hb0 & _).
  destruct (run_ops_spec ops [] st0 w0 HI0 Hops) as (st1 & w1 & E1 & HI1 & _ & Hb1).
  exists st1, w1. unfold reachable. rewrite (bind_ok _ _ _ _ _ _ _ E0).
  unfold bind at 1, run_on. rewrite E1. split; [done|]. split; [exact HI1|congruence].
Qed.

Lemma read_frame off len f w r f' w' :
  StoreFile.read off len f w = (r, f', w') ->
  f' = f /\ wsame w w' /\
  (forall bs, r = Ok bs -> bs = slice (contents w (sf_file f)) off len /\ length bs = N.to_nat len).
Proof.
  destruct f as [id [p pos] o pk].
  unfold StoreFile.read, on_handle, zoom, stream_position, seek_start, bind, get, put, liftW, ret.
  cbn [sf_file set_file sf_id sf_offset sf_peek f_path f_pos].
  unfold syscall at 1. destruct (w_fault w (w_clock w)) eqn:F1.
  { intros H. inversion H; subst. split_and!; [reflexivity|apply wsame_tick|intros ? ?; discriminate]. }
  cbn [sf_file set_file sf_id sf_offset sf_peek f_path f_pos].
  destruct (read_exact_at len off (mkFile p pos) (tick w)) as [[r1 h1] w1] eqn:E2.
  destruct (read_exact_at_inv _ _ _ _ _ _ _ E2) as (-> & W1 & Hbs & _).
  destruct r1 as [bs|e].
  2:{ intros H. inversion H; subst. split_and!; [reflexivity| |intros ? ?; discriminate].
      eapply wsame_trans; [apply wsame_tick|exact W1]. }
  unfold syscall. destruct (w_fault w1 (w_clock w1)) eqn:F3.
  { intros H. inversion H; subst. split_and!; [reflexivity| |intros ? ?; discriminate].
      eapply wsame_trans; [apply wsame_tick|]. eapply wsame_trans; [exact W1|apply wsame_tick]. }
  intros H. inversion H; subst. split_and!; [reflexivity| |].
  - eapply wsame_trans; [apply wsame_tick|]. eapply wsame_trans; [exact W1|apply wsame_tick].
  - intros bs' E. injection E as <-. destruct (Hbs bs eq_refl) as [-> Hn]. split; [done|].
    rewrite length_take, length_drop. destruct Hn as [->|Hn]; [done|].
    unfold contents in *. cbn [tick w_fs] in *. lia.
Qed.

Lemma read_ff off len f w c :
  ff w -> w_fs w (f_path (sf_file f)) = Some c -> off + len <= N.of_nat (length c) ->
  exists w', wsame w w' /\ StoreFile.read off len f w = (Ok (slice c off len), f, w').
Proof.
  intros Hff Hc Hle. unfold StoreFile.read.
  assert (E1 : stream_position (sf_file f) w = (Ok (f_pos (sf_file f)), sf_file f, tick w)).
  { unfold stream_position, bind, get, liftW. now rewrite syscall_ff. }
  rewrite (bind_ok _ _ _ _ _ _ _ (on_handle_same _ _ _ _ _ E1)).
  assert (Hff1 : ff (tick w)) by exact (ff_wsame _ _ Hff (wsame_tick w)).
  assert (D : drop (N.to_nat off) c = slice c off len ++ drop (N.to_nat len) (drop (N.to_nat off) c)).
  { unfold slice. now rewrite take_drop. }
  destruct (read_at_ok len off (sf_file f) (tick w) c _ _ Hff1 Hc D) as (w2 & W2 & E2).
  { unfold slice. rewrite length_take, length_drop. lia. }
  rewrite (bind_ok _ _ _ _ _ _ _ (on_handle_same _ _ _ _ _ E2)).
  assert (E3 : seek_start (f_pos (sf_file f)) (sf_file f) w2 = (Ok (f_pos (sf_file f)), sf_file f, tick w2)).
  { unfold seek_start, bind, get, put, liftW, ret. rewrite syscall_ff by exact (ff_wsame _ _ Hff1 W2).
    now destruct (sf_file f). }
  rewrite (bind_ok _ _ _ _ _ _ _ (on_handle_same _ _ _ _ _ E3)).
  exists (tick w2). split; [|done].
  eapply wsame_trans; [apply wsame_tick|]. eapply wsame_trans; [exact W2|apply wsame_tick].
Qed.

Lemma SInv_wsame log st w w' : SInv log st w -> wsame w w' -> SInv log st w'.
Proof.
  intros (Hf & Hok & HW & Hix & Hbase & Hscr & Hff) W. pose proof W as (Wf & Wd & Wt).
  split_and!; try done.
  - exact (wsame_at _ _ _ _ W HW).
  - now rewrite Wd.
  - intros q Hq. rewrite Wf. now apply Hscr.
  - exact (ff_wsame _ _ Hff W).
Qed.

Lemma store_lookup_spec log st w k :
  SInv log st w ->
  exists w', Store.lookup k st w = (Ok (model log k), st, w') /\ wsame w w'.
Proof.
  intros HI. pose proof HI as (Hf & Hok & HW & Hix & Hbase & Hscr & Hff).
  unfold Store.lookup. rewrite bind_get. specialize (Hix k).
  destruct (st_index st !! k) as [e|], (model log k) as [v|]; try done.
  - destruct Hix as (He & Hle & Hs). rewrite He, Hf. rewrite bind_ok with (a := tt) (t1 := st) (w1 := w) by done.
    destruct (read_ff (ie_offset e) (ie_length e) (at_end (st_id st) (active_path st) (encode_log log)) w
                (encode_log log) Hff HW Hle) as (w' & W & E).
    rewrite (bind_ok _ _ _ _ _ _ _ (on_file_run _ _ st _ _ _ _ _ Hf E)).
    exists w'. split; [|done]. unfold ret. rewrite Hs. do 2 f_equal.
    rewrite insert_id by done. now destruct st.
  - exists w. split; [done|apply wsame_refl].
Qed.

Lemma collect_spec fuel : forall R f w C,
  ff w -> w_fs w (f_path (sf_file f)) = Some C -> sf_peek f = None ->
  drop (N.to_nat (sf_offset f)) C = encode_log R ->
  Forall rec_ok R -> Forall fits R -> (length R < fuel)%nat ->
  exists f' w', wsame w w' /\ Store.collect fuel f w = (Ok R, f', w').
Proof.
  induction fuel as [|fuel IH]; intros R f w C Hff Hc Hp D Hok Hfit Hlen; [lia|].
  simpl. destruct R as [|r R'].
  - destruct (read_record_eof f w C Hff Hc Hp (drop_nil_le _ _ D)) as (w1 & W1 & E1).
    rewrite (bind_ok _ _ _ _ _ _ _ (try_io_eio _ _ _ _ _ _ E1)).
    exists f, w1. split; [exact W1|done].
  - apply Forall_cons in Hok as [Hr Hok]. apply Forall_cons in Hfit as [Hfr Hfit].
    rewrite encode_log_cons in D.
    destruct (read_record_ok f w C (encode_log R') r Hff Hc Hp D Hr Hfr) as (w1 & W1 & E1).
    rewrite (bind_ok _ _ _ _ _ _ _ (try_io_ok _ _ _ _ _ _ E1)).
    assert (D1 : drop (N.to_nat (sf_offset f + N.of_nat (rlen r))) C = encode_log R').
    { apply (drop_adv C (encode r)); [exact D|]. now rewrite length_encode. }
    assert (Hl' : (length R' < fuel)%nat) by (simpl in Hlen; lia).
    destruct (IH R' (set_offset (sf_offset f + N.of_nat (rlen r)) f) w1 C
                (ff_wsame _ _ Hff W1) (wsame_at _ _ _ _ W1 Hc) Hp D1 Hok Hfit Hl')
      as (f2 & w2 & W2 & E2).
    rewrite (bind_ok _ _ _ _ _ _ _ E2).
    exists f2, w2. split; [exact (wsame_trans _ _ _ W1 W2)|done].
Qed.

Lemma iterate_spec L st w :
  SInv L st w -> Forall fits L ->
  exists st' w', Store.iterate_from_reset st w = (Ok L, st', w') /\ wsame w w'.
Proof.
  intros (Hf & Hok & HW & Hix & Hbase & Hscr & Hff) Hfit.
  unfold Store.iterate_from_reset. rewrite bind_get.
  set (f := at_end (st_id st) (active_path st) (encode_log L)) in *.
  assert (Hff1 : ff (tick w)) by exact (ff_wsame _ _ Hff (wsame_tick w)).
  destruct (collect_spec (S (length (contents (tick w) (sf_file (reset_sf f))))) L (reset_sf f) (tick w)
              (encode_log L) Hff1 HW eq_refl eq_refl Hok Hfit) as (f2 & w2 & W2 & E2).
  { unfold contents, f. cbn [reset_sf at_end sf_file f_path tick w_fs]. rewrite HW. cbn [default]. pose proof (length_le_encode_log L). unfold id. lia. }
  assert (E : (let* _ := StoreFile.reset in
               bounded (fun w f => Store.collect (S (length (contents w (sf_file f)))))) f w
              = (Ok L, f2, w2)).
  { rewrite (bind_ok _ _ _ _ _ _ _ (reset_ff f w Hff)). exact E2. }
  rewrite (on_file_run _ _ st _ _ _ _ _ Hf E).
  eexists _, w2. split; [reflexivity|]. exact (wsame_trans _ _ _ (wsame_tick w) W2).
Qed.

(** ** Claims *)

Lemma reachable_inv base ops w0 st u w :
  fresh_world base w0 -> ops_ok ops -> reachable base ops tt w0 = (Ok st, u, w) ->
  SInv (map op_record ops) st w /\ st_base st = base.
Proof.
  intros Hw Hops E. destruct (reachable_spec base ops w0 Hw Hops) as (st1 & w1 & E1 & HI & Hb).
  rewrite E1 in E. injection E as <- _ <-. auto.
Qed.

Lemma fits_or_err limit log st w :
  SInv log st w -> ~ Forall fits log ->
  forall st' w', Store.reduce limit st w <> (Ok tt, st', w').
Proof.
  intros HI Hn st' w' E. destruct (reduce_unfit limit log st w HI Hn) as (e & st2 & w2 & E2).
  congruence.
Qed.

(** C1: for every store reachable by inserts and removes, and every limit,
    a successful [reduce(limit)] leaves the result of [lookup] unchanged for
    every key (in a world without I/O faults). *)
Theorem C1_reduce_keeps_lookups base ops w0 st u w limit st' w' :
  fresh_world base w0 -> ops_ok ops -> reachable base ops tt w0 = (Ok st, u, w) ->
  Store.reduce limit st w = (Ok tt, st', w') ->
  forall k, result_of (Store.lookup k) st' w' = result_of (Store.lookup k) st w /\
            result_of (Store.lookup k) st w = Ok (model (map op_record ops) k).
Proof.
  intros Hw Hops Er Ed k. destruct (reachable_inv _ _ _ _ _ _ Hw Hops Er) as [HI _].
  destruct (List.Forall_dec fits fits_dec (map op_record ops)) as [Hfit|Hn].
  2:{ exfalso. exact (fits_or_err _ _ _ _ HI Hn _ _ Ed). }
  destruct (reduce_spec limit _ st w HI Hfit) as (E & st2 & w2 & E2 & HI2 & _ & _ & Hel & _).
  rewrite Ed in E2. injection E2 as <- <-.
  destruct (store_lookup_spec _ _ _ k HI2) as (w3 & E3 & _).
  destruct (store_lookup_spec _ _ _ k HI) as (w4 & E4 & _).
  unfold result_of. rewrite E3, E4. rewrite model_pairs, Hel. done.
Qed.


Lemma fresh_world0 base : fresh_world base (world0 base).
Proof. split; [intros n; reflexivity|]. split; [unfold world0; simpl; now rewrite bool_decide_true|done]. Qed.

Lemma C1_witness :
  fresh_world "db" (world0 "db") /\
  forall k,
    result_of (Store.lookup k)
      (state_of (Store.reduce 20) (reached_store "db" ops_c1 (world0 "db")) (reached_world "db" ops_c1 (world0 "db")))
      (world_of (Store.reduce 20) (reached_store "db" ops_c1 (world0 "db")) (reached_world "db" ops_c1 (world0 "db")))
    = result_of (Store.lookup k) (reached_store "db" ops_c1 (world0 "db")) (reached_world "db" ops_c1 (world0 "db"))
    /\ result_of (Store.lookup k) (reached_store "db" ops_c1 (world0 "db")) (reached_world "db" ops_c1 (world0 "db"))
       = Ok (model (map op_record ops_c1) k).
Proof.
  split; [apply fresh_world0|].
  apply (C1_reduce_keeps_lookups "db" ops_c1 (world0 "db") _ tt _ 20).
  - apply fresh_world0.
  - repeat constructor; simpl; lia.
  - vm_compute. reflexivity.
  - vm_compute. reflexivity.
Defined.

(** C2: when [pick] selects source [i], the record [read_record] then
    consumes from it is its peeked record, whose key is the least among the
    peeked records of all sources, and strictly less than that of every
    source before [i]: ties go to the smallest chunk index. *)
Theorem C2_pick_takes_least_first srcs w i srcs' w' :
  pick srcs w = (Ok (Some i), srcs', w') ->
  exists s r, srcs' !! i = Some s /\ sf_peek s = Some r /\
    (forall j s' r', srcs' !! j = Some s' -> sf_peek s' = Some r' ->
       key_cmp (rkey r) (rkey r') <> Gt /\ ((j < i)%nat -> key_cmp (rkey r) (rkey r') = Lt)) /\
    on_nth i StoreFile.read_record srcs' w' =
      (Ok r, <[i := set_peek None (set_offset (sf_offset s + N.of_nat (rlen r)) s)]> srcs', w').
Proof.
  intros H. destruct (pick_gen _ _ _ _ _ H) as (_ & s & r & Hs & Hp & Hmin).
  exists s, r. split_and!; try done.
  unfold on_nth. rewrite Hs. now rewrite (read_record_peek s w' r Hp).
Qed.


Lemma C2_witness :
  exists s r, srcs_c2 !! 1%nat = Some s /\ sf_peek s = Some r /\
    (forall j s' r', srcs_c2 !! j = Some s' -> sf_peek s' = Some r' ->
       key_cmp (rkey r) (rkey r') <> Gt /\ ((j < 1)%nat -> key_cmp (rkey r) (rkey r') = Lt)) /\
    on_nth 1 StoreFile.read_record srcs_c2 (world0 "db") =
      (Ok r, <[1%nat := set_peek None (set_offset (sf_offset s + N.of_nat (rlen r)) s)]> srcs_c2,
       world0 "db").
Proof.
  apply (C2_pick_takes_least_first srcs_c2 (world0 "db")). vm_compute. reflexivity.
Defined.

Lemma on_file_fields {A} id (m : M StoreFile A) st w r st' w' :
  Store.on_file id m st w = (r, st', w') ->
  st_index st' = st_index st /\ st_id st' = st_id st /\ st_base st' = st_base st.
Proof.
  unfold Store.on_file. destruct (st_files st !! id).
  - destruct (m s w) as [[r1 f1] w1]. intros H. injection H as _ <- _. done.
  - intros H. injection H as _ <- _. done.
Qed.

Lemma liftW_run {T A} (f : World -> res A * World) (t : T) w r w' :
  f w = (r, w') -> liftW f t w = (r, t, w').
Proof. unfold liftW. now intros ->. Qed.

Lemma call_run {T A} (m : M unit A) (t : T) w r u w' :
  m tt w = (r, u, w') -> call m t w = (r, t, w').
Proof. unfold call. now intros ->. Qed.

Lemma run_on_err {T U A} (u : U) (m : M U A) (t : T) w e u' w' :
  m u w = (Err e, u', w') -> run_on u m t w = (Err e, t, w').
Proof. unfold run_on. now intros ->. Qed.

Lemma run_on_ok {T U A} (u : U) (m : M U A) (t : T) w a u' w' :
  m u w = (Ok a, u', w') -> run_on u m t w = (Ok (a, u'), t, w').
Proof. unfold run_on. now intros ->. Qed.

Lemma bind_ret_r {T A} (m : M T A) t w : bind m ret t w = m t w.
Proof. unfold bind, ret. now destruct (m t w) as [[[a|e] t'] w']. Qed.

Lemma mapM_app_err {T A} (f : A -> M T unit) l1 x l2 t w t1 w1 e t2 w2 :
  mapM_ f l1 t w = (Ok tt, t1, w1) -> f x t1 w1 = (Err e, t2, w2) ->
  mapM_ f (l1 ++ x :: l2) t w = (Err e, t2, w2).
Proof.
  revert t w. induction l1 as [|y l1 IH]; intros t w; simpl.
  - intros H. injection H as <- <-. intros Hx. now apply bind_err.
  - intros H Hx. inv_bind H. destruct a. rewrite (bind_ok _ _ _ _ _ _ _ H0). now apply IH.
Qed.

Lemma reset_all_app_err {T} (l1 l2 l1' : list StoreFile) g g' (t : T) w w1 e w2 :
  reset_all l1 t w = (Ok l1', t, w1) ->
  (let* _ := on_handle flush in StoreFile.reset) g w1 = (Err e, g', w2) ->
  reset_all (l1 ++ g :: l2) t w = (Err e, t, w2).
Proof.
  revert l1' w. induction l1 as [|y l1 IH]; intros l1' w; simpl.
  - intros H. injection H as _ <-. intros Hg. apply bind_err. exact (run_on_err _ _ _ _ _ _ _ Hg).
  - intros H Hg. inv_bind H. destruct a as [[] y']. inv_bind H.
    unfold ret in H. injection H as <- -> ->.
    assert (t0 = t) as ->.
    { unfold run_on in H0. destruct ((let* _ := on_handle flush in StoreFile.reset) y w) as [[[?|?] ?] ?];
      congruence. }
    rewrite (bind_ok _ _ _ _ _ _ _ H0). apply bind_err. exact (IH _ _ H1 Hg).
Qed.

Lemma bind_bounded {T A B} (g : World -> T -> M T A) (k : A -> M T B) t w :
  bind (bounded g) k t w = bind (g w t) k t w.
Proof. reflexivity. Qed.

(** C3 (amended): [reduce(limit)] runs [split], [StoreFile::make], [merge]
    and [remove_dir_all] in turn, each with [?]: it returns the first error
    any of them returns, with the in-memory index as it was before, except
    for an error of [remove_dir_all], which comes after the merged index was
    installed.  Inside [split], the errors of [create_dir_all], [reset],
    [make_file], [dump_file] (a failed write of [exec]) and of the final
    flush and reset of the chunks are returned; inside [merge], those of the
    [read_record] of the picked source and of [dst.insert].  But an I/O
    error of [read_record] in the loop of [split] ends the loop as if the log
    had ended, and a source whose [peek_record] fails with an I/O error is
    left out of that [pick]. *)
Theorem C3_reduce_errors :
  (forall limit st w,
    let sp := Store.on_file (st_id st) (split (st_base st) limit) in
    let mk := Store.on_file (st_id st)
                (let* f := call (StoreFile.make (st_id st)
                                   (Store.id_to_dat_path (st_base st) (st_id st))) in put f) in
    let mg chunks := Store.on_file (st_id st) (with_local chunks merge) in
    (forall e s1 w1, sp st w = (Err e, s1, w1) ->
       Store.reduce limit st w = (Err e, s1, w1) /\ st_index s1 = st_index st) /\
    (forall chunks s1 w1, sp st w = (Ok chunks, s1, w1) ->
       (forall e s2 w2, mk s1 w1 = (Err e, s2, w2) ->
          Store.reduce limit st w = (Err e, s2, w2) /\ st_index s2 = st_index st) /\
       (forall s2 w2, mk s1 w1 = (Ok tt, s2, w2) ->
          (forall e s3 w3, mg chunks s2 w2 = (Err e, s3, w3) ->
             Store.reduce limit st w = (Err e, s3, w3) /\ st_index s3 = st_index st) /\
          (forall index s3 w3, mg chunks s2 w2 = (Ok index, s3, w3) ->
             forall r w4, remove_dir_all (scratch_path st) w3 = (r, w4) ->
             Store.reduce limit st w = (r, set_index index s3, w4)))) /\
    (forall e st' w', Store.reduce limit st w = (Err e, st', w') ->
       st_index st' = st_index st \/
       exists chunks s1 w1 s2 w2 index s3 w3,
         sp st w = (Ok chunks, s1, w1) /\ mk s1 w1 = (Ok tt, s2, w2) /\
         mg chunks s2 w2 = (Ok index, s3, w3) /\
         st' = set_index index s3 /\ remove_dir_all (scratch_path st) w3 = (Err e, w'))) /\
  (forall base n f w,
    let dir := [SBase base; SNum (sf_id f) ""] in
    (forall e w1, create_dir_all dir w = (Err e, w1) -> split base n f w = (Err e, f, w1)) /\
    (forall w1, create_dir_all dir w = (Ok tt, w1) ->
      (forall e f2 w2, StoreFile.reset f w1 = (Err e, f2, w2) -> split base n f w = (Err e, f2, w2)) /\
      (forall f2 w2, StoreFile.reset f w1 = (Ok tt, f2, w2) ->
        let loop := split_loop (S (length (contents w2 (sf_file f2)))) dir n [] [] 0 0 in
        (forall e f3 w3, loop f2 w2 = (Err e, f3, w3) -> split base n f w = (Err e, f3, w3)) /\
        (forall result records idx f3 w3, loop f2 w2 = (Ok (result, records, idx), f3, w3) ->
          (forall e u w4, make_file idx dir tt w3 = (Err e, u, w4) ->
             split base n f w = (Err e, f3, w4)) /\
          (forall file u w4, make_file idx dir tt w3 = (Ok file, u, w4) ->
            (forall e file' w5, dump_file records file w4 = (Err e, file', w5) ->
               split base n f w = (Err e, f3, w5)) /\
            (forall file' w5, dump_file records file w4 = (Ok tt, file', w5) ->
               split base n f w = reset_all (result ++ [file']) f3 w5)))))) /\
  (forall fuel dir n result records idx len f w,
    let loop := split_loop (S fuel) dir n result records idx len in
    (forall k f1 w1, StoreFile.read_record f w = (Err (EIo k), f1, w1) ->
       loop f w = (Ok (result, records, idx), f1, w1)) /\
    (forall r f1 w1, StoreFile.read_record f w = (Ok r, f1, w1) ->
       ((n < len + rlen r)%nat ->
          (forall e u w2, make_file idx dir tt w1 = (Err e, u, w2) -> loop f w = (Err e, f1, w2)) /\
          (forall file u w2, make_file idx dir tt w1 = (Ok file, u, w2) ->
             (forall e file' w3, dump_file records file w2 = (Err e, file', w3) ->
                loop f w = (Err e, f1, w3)) /\
             (forall file' w3, dump_file records file w2 = (Ok tt, file', w3) ->
                loop f w = split_loop fuel dir n (result ++ [file']) [r] (idx + 1) (rlen r) f1 w3))) /\
       (~ (n < len + rlen r)%nat ->
          loop f w = split_loop fuel dir n result (records ++ [r]) idx (len + rlen r) f1 w1))) /\
  (forall records file w l1 r l2 file1 w1 e file2 w2,
     sort_by_key records = l1 ++ r :: l2 ->
     mapM_ StoreFile.exec l1 file w = (Ok tt, file1, w1) ->
     StoreFile.exec r file1 w1 = (Err e, file2, w2) ->
     dump_file records file w = (Err e, file2, w2)) /\
  (forall (l1 l2 l1' : list StoreFile) g g' (t : StoreFile) w w1 e w2,
     reset_all l1 t w = (Ok l1', t, w1) ->
     (let* _ := on_handle flush in StoreFile.reset) g w1 = (Err e, g', w2) ->
     reset_all (l1 ++ g :: l2) t w = (Err e, t, w2)) /\
  (forall i m srcs w k srcs1 w1,
     on_nth i StoreFile.peek_record srcs w = (Err (EIo k), srcs1, w1) ->
     peek_all i (S m) srcs w = peek_all (S i) m srcs1 w1) /\
  (forall fuel index ck cv q w i q1 w1,
     let loop := merge_loop (S fuel) index ck cv in
     on_srcs pick q w = (Ok (Some i), q1, w1) ->
     (forall e q2 w2, on_srcs (on_nth i StoreFile.read_record) q1 w1 = (Err e, q2, w2) ->
        loop q w = (Err e, q2, w2)) /\
     (forall r q2 w2, on_srcs (on_nth i StoreFile.read_record) q1 w1 = (Ok r, q2, w2) ->
        (ck = None \/ ck = Some (rkey r) ->
           loop q w = merge_loop fuel index (Some (rkey r)) (rval r) q2 w2) /\
        (forall k, ck = Some k -> rkey r <> k ->
          (cv = None -> loop q w = merge_loop fuel index (Some (rkey r)) (rval r) q2 w2) /\
          (forall v, cv = Some v ->
             (forall e q3 w3, on_dst (StoreFile.insert k v) q2 w2 = (Err e, q3, w3) ->
                loop q w = (Err e, q3, w3)) /\
             (forall entry q3 w3, on_dst (StoreFile.insert k v) q2 w2 = (Ok entry, q3, w3) ->
                loop q w = merge_loop fuel (<[k := entry]> index) (Some (rkey r)) (rval r) q3 w3))))) /\
  (forall q w,
     let loop := merge_loop (S (sum_list_with (fun s => length (contents w (sf_file s))) q.2))
                   ∅ None None in
     (forall e q1 w1, loop q w = (Err e, q1, w1) -> merge q w = (Err e, q1, w1)) /\
     (forall index k v q1 w1, loop q w = (Ok (index, Some k, Some v), q1, w1) ->
        forall e q2 w2, on_dst (StoreFile.insert k v) q1 w1 = (Err e, q2, w2) ->
        merge q w = (Err e, q2, w2))).
Proof.
  split; [|split; [|split; [|split; [|split; [|split; [|split]]]]]].
  - (* reduce *)
    intros limit st w. cbv zeta.
    assert (Hstep : forall chunks s1 w1 s2 w2 index s3 w3,
      Store.on_file (st_id st) (split (st_base st) limit) st w = (Ok chunks, s1, w1) ->
      Store.on_file (st_id st) (let* f := call (StoreFile.make (st_id st)
          (Store.id_to_dat_path (st_base st) (st_id st))) in put f) s1 w1 = (Ok tt, s2, w2) ->
      Store.on_file (st_id st) (with_local chunks merge) s2 w2 = (Ok index, s3, w3) ->
      Store.reduce limit st w = liftW (remove_dir_all (scratch_path st)) (set_index index s3) w3).
    { intros chunks s1 w1 s2 w2 index s3 w3 E1 E2 E3.
      unfold Store.reduce. rewrite bind_get. cbv zeta.
      rewrite (bind_ok _ _ _ _ _ _ _ E1), (bind_ok _ _ _ _ _ _ _ E2), (bind_ok _ _ _ _ _ _ _ E3).
      reflexivity. }
    split; [|split].
    + intros e s1 w1 E1. split.
      * unfold Store.reduce. rewrite bind_get. cbv zeta. now apply bind_err.
      * exact (proj1 (on_file_fields _ _ _ _ _ _ _ E1)).
    + intros chunks s1 w1 E1. destruct (on_file_fields _ _ _ _ _ _ _ E1) as (I1 & _). split.
      * intros e s2 w2 E2. split.
        -- unfold Store.reduce. rewrite bind_get. cbv zeta.
           rewrite (bind_ok _ _ _ _ _ _ _ E1). now apply bind_err.
        -- destruct (on_file_fields _ _ _ _ _ _ _ E2) as (I2 & _). congruence.
      * intros s2 w2 E2. destruct (on_file_fields _ _ _ _ _ _ _ E2) as (I2 & _). split.
        -- intros e s3 w3 E3. split.
           ++ unfold Store.reduce. rewrite bind_get. cbv zeta.
              rewrite (bind_ok _ _ _ _ _ _ _ E1), (bind_ok _ _ _ _ _ _ _ E2). now apply bind_err.
           ++ destruct (on_file_fields _ _ _ _ _ _ _ E3) as (I3 & _). congruence.
        -- intros index s3 w3 E3 r w4 E4.
           rewrite (Hstep _ _ _ _ _ _ _ _ E1 E2 E3). now apply liftW_run.
    + intros e st' w'.
      destruct (Store.on_file (st_id st) (split (st_base st) limit) st w) as [[[chunks|e1] s1] w1] eqn:E1.
      2:{ intros H. unfold Store.reduce in H. rewrite bind_get in H. cbv zeta in H.
          rewrite (bind_err _ _ _ _ _ _ _ E1) in H. injection H as _ <- _.
          left. exact (proj1 (on_file_fields _ _ _ _ _ _ _ E1)). }
      destruct (on_file_fields _ _ _ _ _ _ _ E1) as (I1 & _).
      destruct (Store.on_file (st_id st) (let* f := call (StoreFile.make (st_id st)
          (Store.id_to_dat_path (st_base st) (st_id st))) in put f) s1 w1)
        as [[[[]|e2] s2] w2] eqn:E2.
      2:{ intros H. unfold Store.reduce in H. rewrite bind_get in H. cbv zeta in H.
          rewrite (bind_ok _ _ _ _ _ _ _ E1), (bind_err _ _ _ _ _ _ _ E2) in H.
          injection H as _ <- _. left. destruct (on_file_fields _ _ _ _ _ _ _ E2). congruence. }
      destruct (on_file_fields _ _ _ _ _ _ _ E2) as (I2 & _).
      destruct (Store.on_file (st_id st) (with_local chunks merge) s2 w2)
        as [[[index|e3] s3] w3] eqn:E3.
      2:{ intros H. unfold Store.reduce in H. rewrite bind_get in H. cbv zeta in H.
          rewrite (bind_ok _ _ _ _ _ _ _ E1), (bind_ok _ _ _ _ _ _ _ E2),
                  (bind_err _ _ _ _ _ _ _ E3) in H.
          injection H as _ <- _. left. destruct (on_file_fields _ _ _ _ _ _ _ E3). congruence. }
      rewrite (Hstep _ _ _ _ _ _ _ _ eq_refl E2 E3). unfold liftW.
      destruct (remove_dir_all (scratch_path st) w3) as [r4 w4] eqn:E4.
      intros H. injection H as -> <- <-. right.
      exists chunks, s1, w1, s2, w2, index, s3, w3. done.
  - (* split *)
    intros base n f w. cbv zeta.
    assert (Hcd : forall r w1, create_dir_all [SBase base; SNum (sf_id f) ""] w = (r, w1) ->
      liftW (create_dir_all [SBase base; SNum (sf_id f) ""]) f w = (r, f, w1)).
    { intros r w1. apply liftW_run. }
    split.
    + intros e w1 E. unfold split. rewrite bind_get. apply bind_err. now apply Hcd.
    + intros w1 E. split.
      * intros e f2 w2 E2. unfold split. rewrite bind_get.
        rewrite (bind_ok _ _ _ _ _ _ _ (Hcd _ _ E)). now apply bind_err.
      * intros f2 w2 E2.
        split.
        -- intros e f3 w3 E3. unfold split; rewrite bind_get, (bind_ok _ _ _ _ _ _ _ (Hcd _ _ E)), (bind_ok _ _ _ _ _ _ _ E2), bind_bounded; cbv beta. now apply bind_err.
        -- intros result records idx f3 w3 E3. split.
           ++ intros e u w4 E4. unfold split; rewrite bind_get, (bind_ok _ _ _ _ _ _ _ (Hcd _ _ E)), (bind_ok _ _ _ _ _ _ _ E2), bind_bounded; cbv beta; rewrite (bind_ok _ _ _ _ _ _ _ E3).
              apply bind_err. exact (call_run _ _ _ _ _ _ E4).
           ++ intros file u w4 E4. split.
              ** intros e file' w5 E5. unfold split; rewrite bind_get, (bind_ok _ _ _ _ _ _ _ (Hcd _ _ E)), (bind_ok _ _ _ _ _ _ _ E2), bind_bounded; cbv beta; rewrite (bind_ok _ _ _ _ _ _ _ E3).
                 rewrite (bind_ok _ _ _ _ _ _ _ (call_run _ _ _ _ _ _ E4)).
                 apply bind_err. exact (run_on_err _ _ _ _ _ _ _ E5).
              ** intros file' w5 E5. unfold split; rewrite bind_get, (bind_ok _ _ _ _ _ _ _ (Hcd _ _ E)), (bind_ok _ _ _ _ _ _ _ E2), bind_bounded; cbv beta; rewrite (bind_ok _ _ _ _ _ _ _ E3).
                 rewrite (bind_ok _ _ _ _ _ _ _ (call_run _ _ _ _ _ _ E4)).
                 rewrite (bind_ok _ _ _ _ _ _ _ (run_on_ok _ _ _ _ _ _ _ E5)). reflexivity.
  - (* the loop of split *)
    intros fuel dir n result records idx len f w. cbv zeta. split.
    + intros k f1 w1 E. cbn [split_loop].
      rewrite (bind_ok _ _ _ _ _ _ _ (try_io_eio _ _ _ _ _ _ E)). reflexivity.
    + intros r f1 w1 E. cbn [split_loop].
      rewrite (bind_ok _ _ _ _ _ _ _ (try_io_ok _ _ _ _ _ _ E)). split.
      * intros Hlt. apply Nat.ltb_lt in Hlt. rewrite Hlt. split.
        -- intros e u w2 E2. apply bind_err. apply bind_err. exact (call_run _ _ _ _ _ _ E2).
        -- intros file u w2 E2. split.
           ++ intros e file' w3 E3. apply bind_err.
              rewrite (bind_ok _ _ _ _ _ _ _ (call_run _ _ _ _ _ _ E2)).
              apply bind_err. exact (run_on_err _ _ _ _ _ _ _ E3).
           ++ intros file' w3 E3.
              erewrite bind_ok.
              2:{ rewrite (bind_ok _ _ _ _ _ _ _ (call_run _ _ _ _ _ _ E2)).
                  rewrite (bind_ok _ _ _ _ _ _ _ (run_on_ok _ _ _ _ _ _ _ E3)). reflexivity. }
              reflexivity.
      * intros Hge. apply Nat.ltb_nlt in Hge. rewrite Hge. reflexivity.
  - (* dump_file *)
    intros records file w l1 r l2 file1 w1 e file2 w2 Hs E1 E2.
    destruct records as [|x records]; [simpl in Hs; destruct l1; discriminate|].
    unfold dump_file. apply bind_err.
    rewrite Hs. exact (mapM_app_err _ _ _ _ _ _ _ _ _ _ _ E1 E2).
  - (* reset_all *)
    intros l1 l2 l1' g g' t w w1 e w2. apply reset_all_app_err.
  - (* peek_all *)
    intros i m srcs w k srcs1 w1 E. cbn [peek_all].
    rewrite (bind_ok _ _ _ _ _ _ _ (try_io_eio _ _ _ _ _ _ E)). apply bind_ret_r.
  - (* the loop of merge *)
    intros fuel index ck cv q w i q1 w1. cbv zeta. intros Ep. cbn [merge_loop].
    rewrite (bind_ok _ _ _ _ _ _ _ Ep). split.
    + intros e q2 w2 Er. now apply bind_err.
    + intros r q2 w2 Er. rewrite (bind_ok _ _ _ _ _ _ _ Er). split.
      * intros [-> | ->]; rewrite decide_True by done; reflexivity.
      * intros k -> Hne. rewrite decide_False by done. split.
        -- intros ->. reflexivity.
        -- intros v ->. split.
           ++ intros e q3 w3 Ei. apply bind_err, bind_err, bind_err, Ei.
           ++ intros entry q3 w3 Ei. erewrite bind_ok.
              2:{ erewrite bind_ok.
                  2:{ rewrite (bind_ok _ _ _ _ _ _ _ Ei). reflexivity. }
                  reflexivity. }
              reflexivity.
  - (* merge *)
    intros q w. cbv zeta. split.
    + intros e q1 w1 E. unfold merge. apply bind_err. exact E.
    + intros index k v q1 w1 E e q2 w2 Ei. unfold merge.
      rewrite bind_bounded; cbv beta; rewrite (bind_ok _ _ _ _ _ _ _ E). apply bind_err. apply bind_err. exact Ei.
Qed.

Lemma C3_witness :
  let st := reached_store "db" ops_c3 (world0 "db") in
  let w := fault_at (reached_world "db" ops_c3 (world0 "db")) 7 in
  let sp := Store.on_file (st_id st) (split (st_base st) 1000) in
  Store.reduce 1000 st w = (Err (EIo Fault), state_of sp st w, world_of sp st w) /\
  st_index (state_of sp st w) = st_index st.
Proof.
  cbv zeta. destruct C3_reduce_errors as [HR _].
  pose proof (HR 1000%nat (reached_store "db" ops_c3 (world0 "db"))
                (fault_at (reached_world "db" ops_c3 (world0 "db")) 7)) as H.
  cbv zeta in H. destruct H as [H1 _]. apply H1.
  vm_compute. reflexivity.
Defined.

(** C3, counterexample: with the single record [Insert "a" "1"] in the log,
    a fault at the third system call of [reduce] (after [create_dir_all] and
    the [seek] of [reset]) makes the first [read_record] of [split] fail.
    [split] takes the failure for the end of the log, and [reduce] returns
    [Ok]: no error is surfaced, the index has changed, and [lookup "a"] now
    returns [None] instead of [Some "1"]. *)
Lemma C3_counterexample :
  let st := reached_store "db" ops_c3 (world0 "db") in
  let w := reached_world "db" ops_c3 (world0 "db") in
  let wf := fault_at w 9 in
  w_clock w = 7%nat /\
  result_of (Store.reduce 1000) st wf = Ok tt /\
  st_index (state_of (Store.reduce 1000) st wf) <> st_index st /\
  result_of (Store.lookup (b "a")) st w = Ok (Some (b "1")) /\
  result_of (Store.lookup (b "a")) (state_of (Store.reduce 1000) st wf) (world_of (Store.reduce 1000) st wf)
    = Ok None /\
  result_of (Store.lookup (b "a")) (state_of (Store.reduce 1000) st w) (world_of (Store.reduce 1000) st w)
    = Ok (Some (b "1")).
Proof. vm_compute. split_and!; try reflexivity. discriminate. Qed.

Lemma StronglySorted_map {A B} (R : B -> B -> Prop) (f : A -> B) l :
  StronglySorted (fun x y => R (f x) (f y)) l -> StronglySorted R (map f l).
Proof.
  induction 1 as [|x l Hs IH Hf]; simpl; constructor; [exact IH|].
  apply Forall_map, Hf.
Qed.

Lemma StronglySorted_NoDup {A} (R : A -> A -> Prop) l :
  (forall x, ~ R x x) -> StronglySorted R l -> NoDup l.
Proof.
  intros Hirr. induction 1 as [|x l Hs IH Hf]; constructor; [|exact IH].
  intros Hx. rewrite List.Forall_forall in Hf. apply (Hirr x), Hf, list_elem_of_In, Hx.
Qed.

(** C4: after a successful [reduce(limit)] of a reachable store (in a world
    without I/O faults), iterating the active log from [reset()] yields only
    [Insert] records, with strictly ascending keys, each key at most once. *)
Theorem C4_reduce_sorted_inserts base ops w0 st u w limit st' w' :
  fresh_world base w0 -> ops_ok ops -> reachable base ops tt w0 = (Ok st, u, w) ->
  Store.reduce limit st w = (Ok tt, st', w') ->
  exists rs st'' w'', Store.iterate_from_reset st' w' = (Ok rs, st'', w'') /\
    StronglySorted (fun r1 r2 => key_cmp (rkey r1) (rkey r2) = Lt) rs /\
    NoDup (map rkey rs) /\
    Forall (fun r => exists k v, r = Insert k v) rs.
Proof.
  intros Hw Hops Er Ed. destruct (reachable_inv _ _ _ _ _ _ Hw Hops Er) as [HI _].
  destruct (List.Forall_dec fits fits_dec (map op_record ops)) as [Hfit|Hn].
  2:{ exfalso. exact (fits_or_err _ _ _ _ HI Hn _ _ Ed). }
  destruct (reduce_spec limit _ st w HI Hfit) as (E & st2 & w2 & E2 & HI2 & HEs & HEf & _).
  rewrite Ed in E2. injection E2 as <- <-.
  destruct (iterate_spec _ _ _ HI2 HEf) as (st3 & w3 & E3 & _).
  exists (map pair_insert E), st3, w3. split; [exact E3|].
  assert (HS : StronglySorted (fun r1 r2 => key_cmp (rkey r1) (rkey r2) = Lt) (map pair_insert E))
    by (apply StronglySorted_map, HEs).
  split; [exact HS|]. split.
  - apply (StronglySorted_NoDup (fun a b => key_cmp a b = Lt)).
    + intros x. now rewrite key_cmp_refl.
    + apply StronglySorted_map, HS.
  - apply Forall_map. apply List.Forall_forall. intros [k v] _. now exists k, v.
Qed.

Lemma C4_witness :
  exists rs st'' w'',
    Store.iterate_from_reset
      (state_of (Store.reduce 30) (reached_store "db" ops_c1 (world0 "db")) (reached_world "db" ops_c1 (world0 "db")))
      (world_of (Store.reduce 30) (reached_store "db" ops_c1 (world0 "db")) (reached_world "db" ops_c1 (world0 "db")))
    = (Ok rs, st'', w'') /\
    StronglySorted (fun r1 r2 => key_cmp (rkey r1) (rkey r2) = Lt) rs /\
    NoDup (map rkey rs) /\
    Forall (fun r => exists k v, r = Insert k v) rs.
Proof.
  apply (C4_reduce_sorted_inserts "db" ops_c1 (world0 "db") (reached_store "db" ops_c1 (world0 "db")) tt
           (reached_world "db" ops_c1 (world0 "db")) 30).
  - apply fresh_world0.
  - repeat constructor; simpl; lia.
  - vm_compute. reflexivity.
  - vm_compute. reflexivity.
Defined.


Lemma length_big_key : N.of_nat (length big_key) = 2 ^ 24 + 1.
Proof. unfold big_key. now rewrite length_replicate, N2Nat.id. Qed.

(** C5 (the code has no length cap): [read_record] decodes a record whose
    [key_len] is [2^24 + 1], above the recommended cap of [2^24], and
    returns it instead of failing with a decode error. *)
Theorem C5_no_length_cap :
  2 ^ 24 < N.of_nat (length big_key) /\
  exists f' w', StoreFile.read_record c5_file c5_world = (Ok (Insert big_key []), f', w').
Proof.
  split; [rewrite length_big_key; reflexivity|].
  assert (Hc : w_fs c5_world (f_path (sf_file c5_file)) = Some (encode (Insert big_key []))).
  { unfold c5_world. cbn [w_fs c5_file sf_file f_path].
    destruct (decide (c5_path = c5_path)) as [_|n]; [reflexivity|contradiction]. }
  assert (D : drop (N.to_nat (sf_offset c5_file)) (encode (Insert big_key [])) = encode (Insert big_key []) ++ []).
  { rewrite app_nil_r. reflexivity. }
  assert (Hok : rec_ok (Insert big_key [])).
  { unfold rec_ok. cbn [rkey]. rewrite length_big_key. split; reflexivity. }
  assert (Hfit : fits (Insert big_key [])).
  { unfold fits. rewrite length_big_key. reflexivity. }
  destruct (read_record_ok c5_file c5_world _ [] _ (fun _ => eq_refl) Hc eq_refl D Hok Hfit)
    as (w' & _ & E).
  eexists _, w'. exact E.
Qed.

Lemma slice_insert c k v :
  slice (c ++ encode (Insert k v)) (N.of_nat (length c) + 16 + N.of_nat (length k)) (N.of_nat (length v)) = v.
Proof.
  unfold slice. rewrite drop_app_ge by lia.
  replace (N.to_nat (N.of_nat (length c) + 16 + N.of_nat (length k)) - length c)%nat
    with (8 + 4 + 4 + length k)%nat by lia.
  unfold encode. rewrite !app_assoc, drop_app_length'.
  - rewrite Nat2N.id. apply take_ge. lia.
  - rewrite !length_app, !length_to_be_bytes. lia.
Qed.

(** C6: the entry a successful [StoreFile::insert] returns points at the
    first value byte, [offset + 16 + key_len] where [offset] is where the
    record starts, and has the value's length; in the Appending state, the
    bytes it designates in the file are the value. *)
Theorem C6_insert_entry_points_at_value key val f w e f' w' :
  rec_ok (Insert key val) -> StoreFile.insert key val f w = (Ok e, f', w') ->
  ie_file e = sf_id f /\ ie_offset e = sf_offset f + 16 + N.of_nat (length key) /\
  ie_length e = N.of_nat (length val) /\
  (forall c, w_fs w (f_path (sf_file f)) = Some c -> f_pos (sf_file f) = N.of_nat (length c) ->
     sf_offset f = N.of_nat (length c) ->
     w_fs w' (f_path (sf_file f)) = Some (c ++ encode (Insert key val)) /\
     slice (c ++ encode (Insert key val)) (ie_offset e) (ie_length e) = val).
Proof.
  intros Hok E. destruct (rec_ok_insert _ _ Hok) as [Ek Ev].
  destruct (insert_entry _ _ _ _ _ _ _ E) as (-> & _). cbv zeta. rewrite Ek, Ev.
  cbn [ie_file ie_offset ie_length]. split_and!; try done.
  intros c Hc Hpos Hoff. destruct (insert_ok_inv _ _ _ _ _ _ _ _ Hc Hpos Hok E) as [U _].
  split; [exact (wupd_at _ _ _ _ U)|]. rewrite Hoff. apply slice_insert.
Qed.


Lemma C6_witness :
  let e := ok_or (mkIndexEntry 0 0 0) (result_of (StoreFile.insert (b "k") (b "vv")) file1 world1) in
  ie_file e = sf_id file1 /\ ie_offset e = sf_offset file1 + 16 + N.of_nat (length (b "k")) /\
  ie_length e = N.of_nat (length (b "vv")) /\
  (forall c, w_fs world1 (f_path (sf_file file1)) = Some c -> f_pos (sf_file file1) = N.of_nat (length c) ->
     sf_offset file1 = N.of_nat (length c) ->
     w_fs (world_of (StoreFile.insert (b "k") (b "vv")) file1 world1) (f_path (sf_file file1))
       = Some (c ++ encode (Insert (b "k") (b "vv"))) /\
     slice (c ++ encode (Insert (b "k") (b "vv"))) (ie_offset e) (ie_length e) = b "vv").
Proof.
  cbv zeta. apply (C6_insert_entry_points_at_value (b "k") (b "vv") file1 world1 _
                     (state_of (StoreFile.insert (b "k") (b "vv")) file1 world1)).
  - split; simpl; lia.
  - vm_compute. reflexivity.
Defined.

Lemma active_path_eq st st' :
  st_id st' = st_id st -> st_base st' = st_base st -> active_path st' = active_path st.
Proof. unfold active_path. now intros -> ->. Qed.

Lemma index_some_model id c ix m k :
  index_ok id c ix m -> (is_Some (ix !! k) <-> m k <> None).
Proof.
  intros H. specialize (H k). destruct (ix !! k), (m k); try done; split; eauto.
Qed.

(** C7: [remove(key)] appends a [Remove] tombstone to the active log, also
    when the key is absent, deletes the key from the index, and returns
    [true] exactly when the index had the key before the call (which is when
    the key has a value). *)
Theorem C7_remove_tombstone base ops w0 st u w k :
  fresh_world base w0 -> ops_ok ops -> reachable base ops tt w0 = (Ok st, u, w) ->
  rec_ok (Remove k) ->
  exists (found : bool) st' w', Store.remove k st w = (Ok found, st', w') /\
    (found = true <-> is_Some (st_index st !! k)) /\
    (found = true <-> model (map op_record ops) k <> None) /\
    st_index st' = delete k (st_index st) /\
    w_fs w (active_path st) = Some (encode_log (map op_record ops)) /\
    w_fs w' (active_path st) = Some (encode_log (map op_record ops) ++ encode (Remove k)).
Proof.
  intros Hw Hops Er Hr. destruct (reachable_inv _ _ _ _ _ _ Hw Hops Er) as [HI _].
  destruct (store_remove_spec _ _ _ k HI Hr) as (st' & w' & E & HI' & Hid & Hb & Hix').
  exists (bool_decide (is_Some (st_index st !! k))), st', w'.
  pose proof HI as (_ & _ & HW & Hix & _).
  pose proof HI' as (_ & _ & HW' & _).
  rewrite (active_path_eq _ _ Hid Hb), encode_log_snoc in HW'.
  split_and!; try done.
  - now rewrite bool_decide_eq_true.
  - rewrite bool_decide_eq_true. exact (index_some_model _ _ _ _ k Hix).
Qed.

Lemma C7_witness :
  exists (found : bool) st' w',
    Store.remove (b "a") (reached_store "db" ops_c1 (world0 "db")) (reached_world "db" ops_c1 (world0 "db"))
      = (Ok found, st', w') /\
    (found = true <-> is_Some (st_index (reached_store "db" ops_c1 (world0 "db")) !! b "a")) /\
    (found = true <-> model (map op_record ops_c1) (b "a") <> None) /\
    st_index st' = delete (b "a") (st_index (reached_store "db" ops_c1 (world0 "db"))) /\
    w_fs (reached_world "db" ops_c1 (world0 "db")) (active_path (reached_store "db" ops_c1 (world0 "db")))
      = Some (encode_log (map op_record ops_c1)) /\
    w_fs w' (active_path (reached_store "db" ops_c1 (world0 "db")))
      = Some (encode_log (map op_record ops_c1) ++ encode (Remove (b "a"))).
Proof.
  apply (C7_remove_tombstone "db" ops_c1 (world0 "db") _ tt).
  - apply fresh_world0.
  - repeat constructor; simpl; lia.
  - vm_compute. reflexivity.
  - split; simpl; [lia|done].
Defined.

Lemma lookups_spec log st ks : forall w,
  SInv log st w -> exists w', lookups ks st w = (Ok tt, st, w') /\ wsame w w'.
Proof.
  induction ks as [|k ks IH]; intros w HI.
  - exists w. split; [done|apply wsame_refl].
  - destruct (store_lookup_spec log st w k HI) as (w1 & E1 & W1).
    unfold lookups. cbn [mapM_]. unfold bind at 1 2. rewrite E1. cbn [ret].
    destruct (IH w1 (SInv_wsame _ _ _ _ HI W1)) as (w2 & E2 & W2).
    exists w2. split; [exact E2|exact (wsame_trans _ _ _ W1 W2)].
Qed.

(** C8: a positional read leaves the [StoreFile] (its append offset and the
    stream position of its handle) and the files unchanged, and returns
    exactly the [len] bytes at [off]. So any number of [lookup] calls on a
    reachable store leave the store and its files unchanged: a later
    [lookup] returns what it would have returned without them, and a later
    [insert] succeeds and builds the same index. *)
Theorem C8_reads_keep_cursors :
  (forall off len f w r f' w', StoreFile.read off len f w = (r, f', w') ->
     f' = f /\ wsame w w' /\
     (forall bs, r = Ok bs -> bs = slice (contents w (sf_file f)) off len /\ length bs = N.to_nat len)) /\
  (forall base ops w0 st u w ks,
     fresh_world base w0 -> ops_ok ops -> reachable base ops tt w0 = (Ok st, u, w) ->
     exists w', lookups ks st w = (Ok tt, st, w') /\ wsame w w' /\
       (forall k, result_of (Store.lookup k) st w' = result_of (Store.lookup k) st w) /\
       (forall k v, rec_ok (Insert k v) ->
          result_of (Store.insert k v) st w' = Ok tt /\
          st_index (state_of (Store.insert k v) st w') = st_index (state_of (Store.insert k v) st w))).
Proof.
  split; [exact read_frame|].
  intros base ops w0 st u w ks Hw Hops Er. destruct (reachable_inv _ _ _ _ _ _ Hw Hops Er) as [HI _].
  destruct (lookups_spec _ _ ks w HI) as (w' & E & W).
  pose proof (SInv_wsame _ _ _ _ HI W) as HI'.
  exists w'. split_and!; [exact E|exact W| |].
  - intros k. destruct (store_lookup_spec _ _ _ k HI) as (w1 & E1 & _).
    destruct (store_lookup_spec _ _ _ k HI') as (w2 & E2 & _).
    unfold result_of. now rewrite E1, E2.
  - intros k v Hr. destruct (store_insert_spec _ _ _ k v HI Hr) as (st1 & w1 & E1 & _ & _ & _ & X1).
    destruct (store_insert_spec _ _ _ k v HI' Hr) as (st2 & w2 & E2 & _ & _ & _ & X2).
    unfold result_of, state_of. rewrite E1, E2. split; [done|]. now rewrite X1, X2.
Qed.

Lemma C8_witness :
  (let f := state_of (StoreFile.insert (b "k") (b "vv")) file1 world1 in
   let w := world_of (StoreFile.insert (b "k") (b "vv")) file1 world1 in
   state_of (StoreFile.read 17 2) f w = f /\
   wsame w (world_of (StoreFile.read 17 2) f w) /\
   (forall bs, result_of (StoreFile.read 17 2) f w = Ok bs ->
      bs = slice (contents w (sf_file f)) 17 2 /\ length bs = N.to_nat 2)) /\
  (exists w', lookups [b "a"; b "zz"] (reached_store "db" ops_c1 (world0 "db"))
                (reached_world "db" ops_c1 (world0 "db"))
              = (Ok tt, reached_store "db" ops_c1 (world0 "db"), w') /\
     wsame (reached_world "db" ops_c1 (world0 "db")) w' /\
     (forall k, result_of (Store.lookup k) (reached_store "db" ops_c1 (world0 "db")) w'
                = result_of (Store.lookup k) (reached_store "db" ops_c1 (world0 "db"))
                    (reached_world "db" ops_c1 (world0 "db"))) /\
     (forall k v, rec_ok (Insert k v) ->
        result_of (Store.insert k v) (reached_store "db" ops_c1 (world0 "db")) w' = Ok tt /\
        st_index (state_of (Store.insert k v) (reached_store "db" ops_c1 (world0 "db")) w')
        = st_index (state_of (Store.insert k v) (reached_store "db" ops_c1 (world0 "db"))
                     (reached_world "db" ops_c1 (world0 "db"))))).
Proof.
  split.
  - cbv zeta. set (f := state_of (StoreFile.insert (b "k") (b "vv")) file1 world1).
    set (w := world_of (StoreFile.insert (b "k") (b "vv")) file1 world1).
    apply (proj1 C8_reads_keep_cursors 17 2 f w (result_of (StoreFile.read 17 2) f w)).
    vm_compute. reflexivity.
  - apply (proj2 C8_reads_keep_cursors "db"%string ops_c1 (world0 "db"%string) _ tt).
    + apply fresh_world0.
    + repeat constructor; simpl; lia.
    + vm_compute. reflexivity.
Defined.

(** C9: after a successful append of a well-formed record to a file in the
    appending state (append offset and stream position at the end of the
    file), the append offset has grown by the encoded size of the record,
    [16 + |key| + |val|] for an [Insert] and [12 + |key|] for a [Remove], and
    equals the length of the file. *)
Theorem C9_append_offset r f w c f' w' :
  w_fs w (f_path (sf_file f)) = Some c -> f_pos (sf_file f) = N.of_nat (length c) ->
  sf_offset f = N.of_nat (length c) -> rec_ok r ->
  StoreFile.exec r f w = (Ok tt, f', w') ->
  sf_offset f' = sf_offset f + N.of_nat (rlen r) /\
  sf_offset f' = N.of_nat (length (contents w' (sf_file f'))) /\
  N.of_nat (rlen r) = match r with
                      | Insert k v => 16 + N.of_nat (length k) + N.of_nat (length v)
                      | Remove k => 12 + N.of_nat (length k)
                      end.
Proof.
  intros Hc Hpos Hoff Hok E.
  destruct (exec_ok_inv _ _ _ _ _ _ Hc Hpos Hok E) as [U ->].
  cbn [sf_offset sf_file f_path]. split_and!; [done| |].
  - unfold contents. cbn [sf_file f_path]. rewrite (wupd_at _ _ _ _ U). cbn.
    rewrite Hoff. cbn [contents]. rewrite length_app, length_encode. lia.
  - destruct r; simpl; lia.
Qed.

Lemma C9_witness :
  sf_offset (state_of (StoreFile.exec (Insert (b "k") (b "vv"))) file1 world1)
    = sf_offset file1 + N.of_nat (rlen (Insert (b "k") (b "vv"))) /\
  sf_offset (state_of (StoreFile.exec (Insert (b "k") (b "vv"))) file1 world1)
    = N.of_nat (length (contents (world_of (StoreFile.exec (Insert (b "k") (b "vv"))) file1 world1)
                          (sf_file (state_of (StoreFile.exec (Insert (b "k") (b "vv"))) file1 world1)))) /\
  N.of_nat (rlen (Insert (b "k") (b "vv"))) = 16 + N.of_nat (length (b "k")) + N.of_nat (length (b "vv")).
Proof.
  apply (C9_append_offset (Insert (b "k") (b "vv")) file1 world1 []).
  - vm_compute. reflexivity.
  - vm_compute. reflexivity.
  - vm_compute. reflexivity.
  - split; simpl; lia.
  - vm_compute. reflexivity.
Defined.

Lemma elookup_none_nil E : (forall k, elookup E k = None) -> E = [].
Proof.
  destruct E as [|kv E' _] using rev_ind; [done|]. intros H.
  destruct kv as [k v]. specialize (H k). rewrite elookup_snoc, decide_True in H by done. discriminate.
Qed.

Lemma index_ok_nil id c ix : index_ok id c ix (model []) -> ix = ∅.
Proof.
  intros H. apply map_empty. intros k. specialize (H k). cbn in H. by destruct (ix !! k).
Qed.

(** C10: on a store whose active log holds no record, [split] still creates
    one chunk file, empty, and returns it alone; [reduce] then succeeds,
    leaving an empty index and an empty active log, and [lookup] of every
    key returns [None]. *)
Theorem C10_reduce_empty base w0 st u w limit :
  fresh_world base w0 -> reachable base [] tt w0 = (Ok st, u, w) ->
  (exists f f' w1, st_files st !! st_id st = Some f /\
     split (st_base st) limit f w = (Ok [reset_sf (at_end 0 (cpath (scratch_path st) 0) [])], f', w1) /\
     w_fs w1 (cpath (scratch_path st) 0) = Some []) /\
  (exists st' w', Store.reduce limit st w = (Ok tt, st', w') /\
     st_index st' = ∅ /\ w_fs w' (active_path st) = Some [] /\
     forall k, result_of (Store.lookup k) st' w' = Ok None).
Proof.
  intros Hw Er. destruct (reachable_inv _ _ _ _ _ _ Hw (List.Forall_nil _) Er) as [HI _].
  cbn [map] in HI. pose proof HI as (Hf & Hok & HW & Hix & Hbase & Hscr & Hff).
  split.
  - destruct (split_ok (st_base st) limit (st_id st) [] [] w) as [Hs _]; try done.
    destruct (Hs (List.Forall_nil _)) as (f' & w1 & E & _ & _ & _ & _ & [Hc _]).
    exists (at_end (st_id st) (active_path st) []), f', w1. split_and!; [done| |].
    + exact E.
    + exact (Hc 0%nat [] eq_refl).
  - destruct (reduce_spec limit [] st w HI (List.Forall_nil _))
      as (E & st' & w' & Er' & HI' & _ & _ & Hel & Hid & Hb).
    assert (E = []) as -> by (apply elookup_none_nil; intros k; rewrite Hel; done).
    cbn [map] in HI'. pose proof HI' as (_ & _ & HW' & Hix' & _).
    exists st', w'. split_and!; [exact Er'|exact (index_ok_nil _ _ _ Hix')| |].
    + rewrite <- (active_path_eq _ _ Hid Hb). exact HW'.
    + intros k. destruct (store_lookup_spec _ _ _ k HI') as (w2 & E2 & _).
      unfold result_of. now rewrite E2.
Qed.

Lemma C10_witness :
  (exists f f' w1, st_files (reached_store "db" [] (world0 "db")) !! st_id (reached_store "db" [] (world0 "db")) = Some f /\
     split (st_base (reached_store "db" [] (world0 "db"))) 5 f (reached_world "db" [] (world0 "db"))
       = (Ok [reset_sf (at_end 0 (cpath (scratch_path (reached_store "db" [] (world0 "db"))) 0) [])], f', w1) /\
     w_fs w1 (cpath (scratch_path (reached_store "db" [] (world0 "db"))) 0) = Some []) /\
  (exists st' w', Store.reduce 5 (reached_store "db" [] (world0 "db")) (reached_world "db" [] (world0 "db"))
                  = (Ok tt, st', w') /\
     st_index st' = ∅ /\ w_fs w' (active_path (reached_store "db" [] (world0 "db"))) = Some [] /\
     forall k, result_of (Store.lookup k) st' w' = Ok None).
Proof.
  apply (C10_reduce_empty "db"%string (world0 "db"%string) _ tt).
  - apply fresh_world0.
  - vm_compute. reflexivity.
Defined.

(** * Further properties of the code *)

Lemma string_concat_cons (x : string) l :
  String.concat EmptyString (x :: l) = (x ++ String.concat EmptyString l)%string.
Proof.
  destruct l as [|y l]; [|reflexivity].
  simpl. induction x as [|c x IH]; [reflexivity|]. exact (f_equal (String c) IH).
Qed.

Lemma string_length_app (a c : string) :
  String.length (a ++ c) = (String.length a + String.length c)%nat.
Proof. induction a as [|x a IH]; [done|]. simpl. now rewrite IH. Qed.

Lemma length_fmt_02x x : String.length (fmt_02x x) = 2%nat.
Proof. reflexivity. Qed.


Lemma unfmt_fmt x : unfmt (fmt_02x x) = Byte.to_N x.
Proof. destruct x; vm_compute; reflexivity. Qed.

Lemma append_length_inj (a b c d : string) :
  String.length a = String.length b -> (a ++ c)%string = (b ++ d)%string -> a = b /\ c = d.
Proof.
  revert b. induction a as [|x a IH]; intros [|y b'] L E; try discriminate; [done|].
  simpl in L, E. injection L as L. injection E as -> E. destruct (IH b' L E) as [-> ->]. done.
Qed.

(** [util::hex] writes two characters per byte, and different byte strings
    give different texts. *)
Theorem hex_length_inj (src src' : bytes) :
  String.length (hex src) = (2 * length src)%nat /\
  (hex src = hex src' -> src = src').
Proof.
  split.
  - unfold hex. induction src as [|x l IH]; [done|].
    cbn [map]. rewrite string_concat_cons, string_length_app, length_fmt_02x, IH. simpl. lia.
  - unfold hex. revert src'. induction src as [|x l IH]; intros [|y l'] E.
    + done.
    + cbn [map] in E. rewrite string_concat_cons in E. discriminate.
    + cbn [map] in E. rewrite string_concat_cons in E. discriminate.
    + cbn [map] in E. rewrite !string_concat_cons in E.
      destruct (append_length_inj _ _ _ _ (eq_trans (length_fmt_02x x) (eq_sym (length_fmt_02x y))) E)
        as [E1 E2].
      assert (x = y) as ->.
      { assert (Some x = Some y) as [=]; [|done].
        rewrite <- (Byte.of_to_N x), <- (Byte.of_to_N y), <- (unfmt_fmt x), <- (unfmt_fmt y).
        now rewrite E1. }
      now rewrite (IH l' E2).
Qed.

Lemma one_file_world_at p c : w_fs (one_file_world p c) p = Some c.
Proof. simpl. now rewrite decide_True. Qed.

(** [StoreFile::exec] on a log in the appending state appends the bytes of
    the record, [Record::len] of them, at least 12: so [Record::is_empty] is
    never true. *)
Theorem record_len_encoded id p c r w :
  ff w -> w_fs w p = Some c -> rec_ok r ->
  exists w', StoreFile.exec r (at_end id p c) w = (Ok tt, at_end id p (c ++ encode r), w') /\
    w_fs w' p = Some (c ++ encode r) /\
    length (c ++ encode r) = (length c + rlen r)%nat /\
    (12 <= rlen r)%nat /\ ris_empty r = false.
Proof.
  intros Hff Hc Hok. destruct (exec_at_end id p c r w Hff Hc Hok) as (w' & U & E).
  exists w'. split_and!; [exact E|exact (wupd_at _ _ _ _ U)| | |].
  - rewrite length_app, length_encode. reflexivity.
  - destruct r; simpl; lia.
  - unfold ris_empty. destruct r; reflexivity.
Qed.

Lemma record_len_encoded_witness :
  exists w', StoreFile.exec (Remove (b "key")) (at_end 1 c5_path (b "x")) (one_file_world c5_path (b "x"))
      = (Ok tt, at_end 1 c5_path (b "x" ++ encode (Remove (b "key"))), w') /\
    w_fs w' c5_path = Some (b "x" ++ encode (Remove (b "key"))) /\
    length (b "x" ++ encode (Remove (b "key"))) = (length (b "x") + rlen (Remove (b "key")))%nat /\
    (12 <= rlen (Remove (b "key")))%nat /\ ris_empty (Remove (b "key")) = false.
Proof.
  apply record_len_encoded.
  - intros n; reflexivity.
  - apply one_file_world_at.
  - split; simpl; [lia|exact I].
Defined.


(** A record appended by [StoreFile::exec] to a log in the appending state
    is read back by [read_record] from the offset it was written at, and the
    read leaves the file in the appending state again; this needs the record
    to [fit]: [key_len + val_len] under [2^32], the [u32] sum of
    [read_record] (see [read_record_overflow]). *)
Theorem exec_read_record_roundtrip id p c r w :
  ff w -> w_fs w p = Some c -> rec_ok r -> fits r ->
  exists w1 w2,
    StoreFile.exec r (at_end id p c) w = (Ok tt, at_end id p (c ++ encode r), w1) /\
    StoreFile.read_record (set_offset (N.of_nat (length c)) (at_end id p (c ++ encode r))) w1 =
      (Ok r, at_end id p (c ++ encode r), w2) /\ wsame w1 w2.
Proof.
  intros Hff Hc Hok Hfit.
  destruct (exec_at_end id p c r w Hff Hc Hok) as (w1 & U & E).
  destruct (read_record_ok (set_offset (N.of_nat (length c)) (at_end id p (c ++ encode r))) w1
              (c ++ encode r) [] r (ff_wupd _ _ _ _ Hff U) (wupd_at _ _ _ _ U) eq_refl)
    as (w2 & W & E2); [|done|done|].
  { cbn. rewrite Nat2N.id, drop_app_length, app_nil_r. done. }
  exists w1, w2. split_and!; [done| |done]. rewrite E2. do 2 f_equal.
  unfold at_end, set_offset; cbn. f_equal. rewrite length_app, length_encode. lia.
Qed.

Lemma exec_read_record_roundtrip_witness :
  exists w1 w2,
    StoreFile.exec (Insert (b "k") (b "v")) (at_end 1 c5_path (b "x")) (one_file_world c5_path (b "x"))
      = (Ok tt, at_end 1 c5_path (b "x" ++ encode (Insert (b "k") (b "v"))), w1) /\
    StoreFile.read_record (set_offset (N.of_nat (length (b "x")))
                             (at_end 1 c5_path (b "x" ++ encode (Insert (b "k") (b "v"))))) w1 =
      (Ok (Insert (b "k") (b "v")), at_end 1 c5_path (b "x" ++ encode (Insert (b "k") (b "v"))), w2) /\
    wsame w1 w2.
Proof.
  apply exec_read_record_roundtrip.
  - intros n; reflexivity.
  - apply one_file_world_at.
  - split; simpl; lia.
  - simpl; lia.
Defined.

(** [read_record] on a header whose tag is neither [INSERT] nor [REMOVE]
    fails with [Unsupported] and leaves the [StoreFile] as it was. *)
Theorem read_record_bad_tag f w C (t rest : bytes) :
  ff w -> w_fs w (f_path (sf_file f)) = Some C -> sf_peek f = None ->
  drop (N.to_nat (sf_offset f)) C = t ++ rest -> length t = 12%nat ->
  from_be_bytes (take 8 t) <> INSERT -> from_be_bytes (take 8 t) <> REMOVE ->
  exists w', wsame w w' /\ StoreFile.read_record f w = (Err (EIo Unsupported), f, w').
Proof.
  intros Hff Hc Hp D L Hi Hr. unfold StoreFile.read_record. rewrite bind_get, Hp. cbv zeta.
  rewrite <- (take_drop 8 t), <- app_assoc in D.
  rd D. { rewrite length_take. lia. }
  pose proof (drop_adv _ _ _ _ 8 D ltac:(rewrite length_take; lia)) as D8.
  rd D8. { rewrite length_drop. lia. }
  rewrite (proj2 (N.eqb_neq _ _) Hi), (proj2 (N.eqb_neq _ _) Hr).
  eexists. split; [|reflexivity]. eauto using wsame_trans.
Qed.

Lemma read_record_bad_tag_witness :
  exists w', wsame (one_file_world c5_path (to_be_bytes 8 3 ++ to_be_bytes 4 0)) w' /\
    StoreFile.read_record c5_file (one_file_world c5_path (to_be_bytes 8 3 ++ to_be_bytes 4 0))
    = (Err (EIo Unsupported), c5_file, w').
Proof.
  apply (read_record_bad_tag c5_file _ (to_be_bytes 8 3 ++ to_be_bytes 4 0) (to_be_bytes 8 3 ++ to_be_bytes 4 0) []).
  - intros n; reflexivity.
  - apply one_file_world_at.
  - reflexivity.
  - rewrite app_nil_r. reflexivity.
  - reflexivity.
  - vm_compute. discriminate.
  - vm_compute. discriminate.
Defined.

(** [read_record] where fewer than the 12 header bytes remain (in particular
    at the end of the file) fails with [UnexpectedEof] and leaves the
    [StoreFile] as it was: this is how iteration stops. *)
Theorem read_record_short_header f w C :
  ff w -> w_fs w (f_path (sf_file f)) = Some C -> sf_peek f = None ->
  N.of_nat (length C) < sf_offset f + 12 ->
  exists w', wsame w w' /\ StoreFile.read_record f w = (Err (EIo UnexpectedEof), f, w').
Proof.
  intros Hff Hc Hp Hlt. unfold StoreFile.read_record. rewrite bind_get, Hp. cbv zeta.
  destruct (N.lt_ge_cases (N.of_nat (length C)) (sf_offset f + 8)) as [H8|H8].
  - destruct (read_at_eof 8 (sf_offset f) (sf_file f) w C Hff Hc ltac:(done) H8) as (w' & W & E).
    exists w'. split; [done|]. now rewrite (bind_err _ _ _ _ _ _ _ (on_handle_same _ _ _ _ _ E)).
  - assert (D : drop (N.to_nat (sf_offset f)) C =
                take 8 (drop (N.to_nat (sf_offset f)) C) ++ drop 8 (drop (N.to_nat (sf_offset f)) C))
      by now rewrite take_drop.
    rd D. { rewrite length_take, length_drop. lia. }
    match goal with Hf : ff ?w1, Hc1 : w_fs ?w1 _ = Some C, W : wsame w ?w1 |- _ =>
      destruct (read_at_eof 4 (sf_offset f + 8) (sf_file f) w1 C Hf Hc1 ltac:(done) ltac:(lia))
        as (w2 & W2 & E2);
      exists w2; split; [eauto using wsame_trans|]
    end.
    now rewrite (bind_err _ _ _ _ _ _ _ (on_handle_same _ _ _ _ _ E2)).
Qed.

Lemma read_record_short_header_witness :
  exists w', wsame (one_file_world c5_path (to_be_bytes 8 1 ++ [Byte.x00])) w' /\
    StoreFile.read_record c5_file (one_file_world c5_path (to_be_bytes 8 1 ++ [Byte.x00]))
    = (Err (EIo UnexpectedEof), c5_file, w').
Proof.
  apply (read_record_short_header c5_file _ (to_be_bytes 8 1 ++ [Byte.x00])).
  - intros n; reflexivity.
  - apply one_file_world_at.
  - reflexivity.
  - vm_compute. reflexivity.
Defined.

(** [read_record] on a complete header whose key and value bytes run past
    the end of the file fails with [UnexpectedEof] and leaves the
    [StoreFile] as it was (the offset only moves after the body is read);
    for an [INSERT] header, when [key_len + val_len] is under [2^32] (a
    larger sum wraps, and the read can panic instead). *)
Theorem read_record_truncated f w C kl vl (body : bytes) :
  ff w -> w_fs w (f_path (sf_file f)) = Some C -> sf_peek f = None ->
  (kl < 2 ^ 32 -> vl < 2 ^ 32 -> kl + vl < 2 ^ 32 ->
   drop (N.to_nat (sf_offset f)) C =
     to_be_bytes 8 INSERT ++ to_be_bytes 4 kl ++ to_be_bytes 4 vl ++ body ->
   N.of_nat (length body) < kl + vl ->
   exists w', wsame w w' /\ StoreFile.read_record f w = (Err (EIo UnexpectedEof), f, w')) /\
  (kl < 2 ^ 32 ->
   drop (N.to_nat (sf_offset f)) C = to_be_bytes 8 REMOVE ++ to_be_bytes 4 kl ++ body ->
   N.of_nat (length body) < kl ->
   exists w', wsame w w' /\ StoreFile.read_record f w = (Err (EIo UnexpectedEof), f, w')).
Proof.
  intros Hff Hc Hp. split.
  - intros Hk Hv Hkv D Hb. unfold StoreFile.read_record. rewrite bind_get, Hp. cbv zeta.
    assert (HL := f_equal length D). rewrite length_drop, !length_app, !length_to_be_bytes in HL.
    rd D.
    replace (from_be_bytes (to_be_bytes 8 INSERT)) with 1 by reflexivity.
    cbn [N.eqb INSERT Pos.eqb].
    pose proof (drop_adv _ _ _ _ 8 D eq_refl) as D8.
    rd D8.
    pose proof (drop_adv _ _ _ _ 4 D8 eq_refl) as D12.
    rewrite <- N.add_assoc in D12. cbn [N.add Pos.add Pos.add_carry] in D12.
    rd D12.
    rewrite !from_be_4 by done. rewrite (N.mod_small _ _ Hkv).
    match goal with Hf : ff ?w1, Hc1 : w_fs ?w1 _ = Some C |- context [bind _ _ f ?w1] =>
      destruct (read_at_eof (kl + vl) (sf_offset f + 16) (sf_file f) w1 C Hf Hc1
                  ltac:(lia) ltac:(lia)) as (w4 & W4 & E4);
      exists w4; split; [eauto using wsame_trans|]
    end.
    now rewrite (bind_err _ _ _ _ _ _ _ (on_handle_same _ _ _ _ _ E4)).
  - intros Hk D Hb. unfold StoreFile.read_record. rewrite bind_get, Hp. cbv zeta.
    assert (HL := f_equal length D). rewrite length_drop, !length_app, !length_to_be_bytes in HL.
    rd D.
    replace (from_be_bytes (to_be_bytes 8 REMOVE)) with 2 by reflexivity.
    pose proof (drop_adv _ _ _ _ 8 D eq_refl) as D8.
    rd D8.
    rewrite !from_be_4 by done. cbn [N.eqb INSERT REMOVE Pos.eqb].
    match goal with Hf : ff ?w1, Hc1 : w_fs ?w1 _ = Some C |- context [bind _ _ f ?w1] =>
      destruct (read_at_eof kl (sf_offset f + 12) (sf_file f) w1 C Hf Hc1
                  ltac:(lia) ltac:(lia)) as (w4 & W4 & E4);
      exists w4; split; [eauto using wsame_trans|]
    end.
    now rewrite (bind_err _ _ _ _ _ _ _ (on_handle_same _ _ _ _ _ E4)).
Qed.


Lemma read_record_truncated_witness :
  (exists w', wsame (one_file_world c5_path trunc_ins) w' /\
     StoreFile.read_record c5_file (one_file_world c5_path trunc_ins)
     = (Err (EIo UnexpectedEof), c5_file, w')) /\
  (exists w', wsame (one_file_world c5_path trunc_rem) w' /\
     StoreFile.read_record c5_file (one_file_world c5_path trunc_rem)
     = (Err (EIo UnexpectedEof), c5_file, w')).
Proof.
  split.
  - apply (proj1 (read_record_truncated c5_file (one_file_world c5_path trunc_ins) trunc_ins 2 1 (b "ab")
             (fun _ => eq_refl) (one_file_world_at _ _) eq_refl)); try reflexivity.
  - apply (proj2 (read_record_truncated c5_file (one_file_world c5_path trunc_rem) trunc_rem 3 0 (b "ab")
             (fun _ => eq_refl) (one_file_world_at _ _) eq_refl)); reflexivity.
Defined.

(** [peek_record] returns the next record, when it [fits], without moving
    the offset; a second [peek_record] is answered from the cache without
    any system call; the [read_record] that follows returns the same record,
    again without I/O, and leaves the file exactly as a direct
    [read_record]. *)
Theorem peek_then_read f w C rest r :
  ff w -> w_fs w (f_path (sf_file f)) = Some C -> sf_peek f = None ->
  drop (N.to_nat (sf_offset f)) C = encode r ++ rest -> rec_ok r -> fits r ->
  exists w1 w2, wsame w w1 /\ wsame w w2 /\
    StoreFile.peek_record f w = (Ok r, set_peek (Some r) f, w1) /\
    StoreFile.peek_record (set_peek (Some r) f) w1 = (Ok r, set_peek (Some r) f, w1) /\
    StoreFile.read_record (set_peek (Some r) f) w1
      = (Ok r, set_offset (sf_offset f + N.of_nat (rlen r)) f, w1) /\
    StoreFile.read_record f w = (Ok r, set_offset (sf_offset f + N.of_nat (rlen r)) f, w2).
Proof.
  intros Hff Hc Hp D Hok Hfit.
  destruct (peek_record_ok f w C rest r Hff Hc Hp D Hok Hfit) as (w1 & W1 & E1).
  destruct (read_record_ok f w C rest r Hff Hc Hp D Hok Hfit) as (w2 & W2 & E2).
  exists w1, w2. split_and!; try done.
  rewrite (read_record_peek _ _ r) by done. destruct f; simpl in *; subst. reflexivity.
Qed.

Lemma peek_then_read_witness :
  exists w1 w2, wsame (one_file_world c5_path (encode (Remove (b "k")))) w1 /\
    wsame (one_file_world c5_path (encode (Remove (b "k")))) w2 /\
    StoreFile.peek_record c5_file (one_file_world c5_path (encode (Remove (b "k"))))
      = (Ok (Remove (b "k")), set_peek (Some (Remove (b "k"))) c5_file, w1) /\
    StoreFile.peek_record (set_peek (Some (Remove (b "k"))) c5_file) w1
      = (Ok (Remove (b "k")), set_peek (Some (Remove (b "k"))) c5_file, w1) /\
    StoreFile.read_record (set_peek (Some (Remove (b "k"))) c5_file) w1
      = (Ok (Remove (b "k")), set_offset (sf_offset c5_file + N.of_nat (rlen (Remove (b "k")))) c5_file, w1) /\
    StoreFile.read_record c5_file (one_file_world c5_path (encode (Remove (b "k"))))
      = (Ok (Remove (b "k")), set_offset (sf_offset c5_file + N.of_nat (rlen (Remove (b "k")))) c5_file, w2).
Proof.
  apply (peek_then_read c5_file _ (encode (Remove (b "k"))) []).
  - intros n; reflexivity.
  - apply one_file_world_at.
  - reflexivity.
  - rewrite app_nil_r. reflexivity.
  - split; simpl; [lia|done].
  - done.
Defined.

(** [insert(k, v)] on a reachable store succeeds; afterwards [lookup k]
    returns [v] and every other key returns what it returned before. *)
Theorem insert_then_lookup base ops w0 st u w k v :
  fresh_world base w0 -> ops_ok ops -> reachable base ops tt w0 = (Ok st, u, w) ->
  rec_ok (Insert k v) ->
  exists st' w', Store.insert k v st w = (Ok tt, st', w') /\
    forall k', result_of (Store.lookup k') st' w' =
               if decide (k' = k) then Ok (Some v) else result_of (Store.lookup k') st w.
Proof.
  intros Hw Hops Er Hr. destruct (reachable_inv _ _ _ _ _ _ Hw Hops Er) as [HI _].
  destruct (store_insert_spec _ _ _ k v HI Hr) as (st' & w' & E & HI' & _).
  exists st', w'. split; [exact E|]. intros k'.
  destruct (store_lookup_spec _ _ _ k' HI) as (w1 & E1 & _).
  destruct (store_lookup_spec _ _ _ k' HI') as (w2 & E2 & _).
  unfold result_of. rewrite E1, E2, model_snoc. cbn [rkey rval].
  destruct (decide (k = k')), (decide (k' = k)); subst; done.
Qed.

Lemma insert_then_lookup_witness :
  exists st' w',
    Store.insert (b "a") (b "9") (reached_store "db" ops_c1 (world0 "db"))
      (reached_world "db" ops_c1 (world0 "db")) = (Ok tt, st', w') /\
    forall k', result_of (Store.lookup k') st' w' =
      if decide (k' = b "a") then Ok (Some (b "9"))
      else result_of (Store.lookup k') (reached_store "db" ops_c1 (world0 "db"))
             (reached_world "db" ops_c1 (world0 "db")).
Proof.
  apply (insert_then_lookup "db"%string ops_c1 (world0 "db"%string) _ tt).
  - apply fresh_world0.
  - repeat constructor; simpl; lia.
  - vm_compute. reflexivity.
  - split; simpl; lia.
Defined.

(** [remove(k)] on a reachable store succeeds; afterwards [lookup k]
    returns [None] and every other key returns what it returned before. *)
Theorem remove_then_lookup base ops w0 st u w k :
  fresh_world base w0 -> ops_ok ops -> reachable base ops tt w0 = (Ok st, u, w) ->
  rec_ok (Remove k) ->
  exists (found : bool) st' w', Store.remove k st w = (Ok found, st', w') /\
    forall k', result_of (Store.lookup k') st' w' =
               if decide (k' = k) then Ok None else result_of (Store.lookup k') st w.
Proof.
  intros Hw Hops Er Hr. destruct (reachable_inv _ _ _ _ _ _ Hw Hops Er) as [HI _].
  destruct (store_remove_spec _ _ _ k HI Hr) as (st' & w' & E & HI' & _).
  eexists _, st', w'. split; [exact E|]. intros k'.
  destruct (store_lookup_spec _ _ _ k' HI) as (w1 & E1 & _).
  destruct (store_lookup_spec _ _ _ k' HI') as (w2 & E2 & _).
  unfold result_of. rewrite E1, E2, model_snoc. cbn [rkey rval].
  destruct (decide (k = k')), (decide (k' = k)); subst; done.
Qed.

Lemma remove_then_lookup_witness :
  exists (found : bool) st' w',
    Store.remove (b "b") (reached_store "db" ops_c1 (world0 "db"))
      (reached_world "db" ops_c1 (world0 "db")) = (Ok found, st', w') /\
    forall k', result_of (Store.lookup k') st' w' =
      if decide (k' = b "b") then Ok None
      else result_of (Store.lookup k') (reached_store "db" ops_c1 (world0 "db"))
             (reached_world "db" ops_c1 (world0 "db")).
Proof.
  apply (remove_then_lookup "db"%string ops_c1 (world0 "db"%string) _ tt).
  - apply fresh_world0.
  - repeat constructor; simpl; lia.
  - vm_compute. reflexivity.
  - split; simpl; [lia|done].
Defined.

Lemma model_not_in L k : k ∉ map rkey L -> model L k = None.
Proof.
  induction L as [|r L IH] using rev_ind; intros Hk; [done|].
  rewrite model_snoc, decide_False.
  - apply IH. intros H. apply Hk. rewrite map_app. apply elem_of_app. now left.
  - intros <-. apply Hk. rewrite map_app. apply elem_of_app. right. constructor.
Qed.

(** [Store::len] of a reachable store is the number of distinct keys of its
    log whose last record is an [Insert]; [Store::is_empty] holds exactly
    when [lookup] returns [None] for every key. *)
Theorem len_counts_live_keys base ops w0 st u w :
  fresh_world base w0 -> ops_ok ops -> reachable base ops tt w0 = (Ok st, u, w) ->
  Store.len st = length (filter (fun k => is_Some (model (map op_record ops) k))
                                (remove_dups (map rkey (map op_record ops)))) /\
  (Store.is_empty st = true <-> forall k, result_of (Store.lookup k) st w = Ok None).
Proof.
  intros Hw Hops Er. destruct (reachable_inv _ _ _ _ _ _ Hw Hops Er) as [HI _].
  pose proof HI as (_ & _ & _ & Hix & _).
  set (L := map op_record ops) in *.
  assert (Hd : dom (st_index st) =
               list_to_set (filter (fun k => is_Some (model L k)) (remove_dups (map rkey L)))).
  { apply leibniz_equiv. intros k. rewrite elem_of_dom, elem_of_list_to_set, list_elem_of_filter,
      elem_of_remove_dups, (index_some_model _ _ _ _ k Hix).
    split.
    - intros Hm. split; [destruct (model L k); [eauto|done]|].
      destruct (decide (k ∈ map rkey L)) as [|Hn]; [done|]. by rewrite model_not_in in Hm.
    - intros [[v Hv] _]. by rewrite Hv. }
  split.
  - unfold Store.len. rewrite <- size_dom, Hd, size_list_to_set; [done|].
    apply NoDup_filter, NoDup_remove_dups.
  - unfold Store.is_empty. rewrite Nat.eqb_eq. unfold Store.len. rewrite map_size_empty_iff.
    split.
    + intros He k. destruct (store_lookup_spec _ _ _ k HI) as (w1 & E1 & _).
      unfold result_of. rewrite E1. specialize (Hix k). rewrite He, lookup_empty in Hix.
      destruct (model L k); done.
    + intros H. apply map_empty. intros k. specialize (H k).
      destruct (store_lookup_spec _ _ _ k HI) as (w1 & E1 & _). unfold result_of in H.
      rewrite E1 in H. injection H as H. specialize (Hix k). rewrite H in Hix.
      destruct (st_index st !! k); done.
Qed.

Lemma len_counts_live_keys_witness :
  Store.len (reached_store "db" ops_c1 (world0 "db")) =
    length (filter (fun k => is_Some (model (map op_record ops_c1) k))
                   (remove_dups (map rkey (map op_record ops_c1)))) /\
  (Store.is_empty (reached_store "db" ops_c1 (world0 "db")) = true <->
   forall k, result_of (Store.lookup k) (reached_store "db" ops_c1 (world0 "db"))
               (reached_world "db" ops_c1 (world0 "db")) = Ok None).
Proof.
  apply (len_counts_live_keys "db"%string ops_c1 (world0 "db"%string) _ tt).
  - apply fresh_world0.
  - repeat constructor; simpl; lia.
  - vm_compute. reflexivity.
Defined.

(** [Store::open] on a base directory that does not exist fails with
    [NotFound] and creates nothing. *)
Theorem open_missing_base base w :
  ff w -> w_dirs w [SBase base] = false ->
  exists w', Store.open base tt w = (Err (EIo NotFound), tt, w') /\
    w_fs w' = w_fs w /\ w_dirs w' = w_dirs w.
Proof.
  intros Hff Hd. unfold Store.open, Store.id_to_file, StoreFile.open, StoreFile.create.
  unfold bind at 1 2. unfold liftW at 1. unfold open_file. rewrite syscall_ff by done.
  cbn [tick w_dirs removelast Store.id_to_path]. rewrite Hd.
  eexists. split_and!; reflexivity.
Qed.

Lemma open_missing_base_witness :
  exists w', Store.open "db" tt (world0 "other") = (Err (EIo NotFound), tt, w') /\
    w_fs w' = w_fs (world0 "other") /\ w_dirs w' = w_dirs (world0 "other").
Proof.
  apply open_missing_base.
  - intros n; reflexivity.
  - vm_compute. reflexivity.
Defined.

Lemma set_offset_twice a b0 f : set_offset a (set_offset b0 f) = set_offset a f.
Proof. now destruct f. Qed.

Lemma collect_state fuel : forall R f w C,
  ff w -> w_fs w (f_path (sf_file f)) = Some C -> sf_peek f = None ->
  drop (N.to_nat (sf_offset f)) C = encode_log R ->
  Forall rec_ok R -> Forall fits R -> (length R < fuel)%nat ->
  exists w', wsame w w' /\
    Store.collect fuel f w = (Ok R, set_offset (sf_offset f + N.of_nat (length (encode_log R))) f, w').
Proof.
  induction fuel as [|fuel IH]; intros R f w C Hff Hc Hp D Hok Hfit Hlen; [lia|].
  simpl. destruct R as [|r R'].
  - destruct (read_record_eof f w C Hff Hc Hp (drop_nil_le _ _ D)) as (w1 & W1 & E1).
    rewrite (bind_ok _ _ _ _ _ _ _ (try_io_eio _ _ _ _ _ _ E1)).
    exists w1. split; [exact W1|]. cbn. rewrite N.add_0_r. now destruct f.
  - apply Forall_cons in Hok as [Hr Hok]. apply Forall_cons in Hfit as [Hfr Hfit].
    rewrite encode_log_cons in D.
    destruct (read_record_ok f w C (encode_log R') r Hff Hc Hp D Hr Hfr) as (w1 & W1 & E1).
    rewrite (bind_ok _ _ _ _ _ _ _ (try_io_ok _ _ _ _ _ _ E1)).
    assert (D1 : drop (N.to_nat (sf_offset f + N.of_nat (rlen r))) C = encode_log R').
    { apply (drop_adv C (encode r)); [exact D|]. now rewrite length_encode. }
    assert (Hl' : (length R' < fuel)%nat) by (simpl in Hlen; lia).
    destruct (IH R' (set_offset (sf_offset f + N.of_nat (rlen r)) f) w1 C
                (ff_wsame _ _ Hff W1) (wsame_at _ _ _ _ W1 Hc) Hp D1 Hok Hfit Hl')
      as (w2 & W2 & E2).
    rewrite (bind_ok _ _ _ _ _ _ _ E2).
    exists w2. split; [exact (wsame_trans _ _ _ W1 W2)|].
    unfold ret. rewrite set_offset_twice. cbn [sf_offset set_offset].
    rewrite encode_log_cons, length_app, length_encode. do 3 f_equal. lia.
Qed.


Lemma iterate_state L st w :
  SInv L st w -> Forall fits L ->
  exists w', Store.iterate_from_reset st w =
    (Ok L, set_files (<[st_id st := iterated (st_id st) (active_path st) (encode_log L)]> (st_files st)) st, w')
    /\ wsame w w'.
Proof.
  intros (Hf & Hok & HW & Hix & Hbase & Hscr & Hff) Hfit.
  unfold Store.iterate_from_reset. rewrite bind_get.
  set (f := at_end (st_id st) (active_path st) (encode_log L)) in *.
  assert (Hff1 : ff (tick w)) by exact (ff_wsame _ _ Hff (wsame_tick w)).
  destruct (collect_state (S (length (contents (tick w) (sf_file (reset_sf f))))) L (reset_sf f) (tick w)
              (encode_log L) Hff1 HW eq_refl eq_refl Hok Hfit) as (w2 & W2 & E2).
  { unfold contents, f. cbn [reset_sf at_end sf_file f_path tick w_fs]. rewrite HW. cbn [default]. pose proof (length_le_encode_log L). unfold id. lia. }
  assert (E : (let* _ := StoreFile.reset in
               bounded (fun w f => Store.collect (S (length (contents w (sf_file f)))))) f w
              = (Ok L, iterated (st_id st) (active_path st) (encode_log L), w2)).
  { rewrite (bind_ok _ _ _ _ _ _ _ (reset_ff f w Hff)). exact E2. }
  rewrite (on_file_run _ _ st _ _ _ _ _ Hf E).
  exists w2. split; [reflexivity|]. exact (wsame_trans _ _ _ (wsame_tick w) W2).
Qed.

Lemma unset_ff id p c w :
  ff w -> w_fs w p = Some c ->
  StoreFile.unset (iterated id p c) w = (Ok tt, at_end id p c, tick (tick w)).
Proof.
  intros Hff Hc. unfold StoreFile.unset, on_handle, zoom, metadata_len, seek_end, bind, get, liftW,
    put, modify, ret, syscall, contents.
  cbn. repeat (rewrite Hff; cbn). rewrite Hc. reflexivity.
Qed.

Lemma iterate_unset_sinv L st w :
  SInv L st w -> Forall fits L ->
  exists st1 w1 w2, Store.iterate_from_reset st w = (Ok L, st1, w1) /\
    Store.file StoreFile.unset st1 w1 = (Ok tt, st, w2) /\ wsame w w2.
Proof.
  intros HI Hfit.
  destruct (iterate_state _ _ _ HI Hfit) as (w1 & E1 & W1).
  pose proof HI as (Hf & _ & HW & _ & _ & _ & Hff).
  eexists _, w1, (tick (tick w1)). split; [exact E1|]. split.
  - unfold Store.file. rewrite bind_get. cbn [st_id set_files].
    rewrite (on_file_run _ _ _ _ _ _ _ _ (lookup_insert_eq _ _ _)
               (unset_ff _ _ _ _ (ff_wsame _ _ Hff W1) (wsame_at _ _ _ _ W1 HW))).
    cbn [st_files set_files]. rewrite insert_insert_eq, insert_id by exact Hf.
    now destruct st.
  - exact (wsame_trans _ _ _ W1 (wsame_trans _ _ _ (wsame_tick _) (wsame_tick _))).
Qed.

(** [store.file().reset()], a full iteration of the active log, then
    [store.file().unset()] (as [main] does before its removals) returns the
    records of the log and leaves the store exactly as it was, the files
    unchanged: mutations that follow append at the end of the log.  The
    records of the log must [fit], or the iteration panics. *)
Theorem iterate_unset_restores base ops w0 st u w :
  fresh_world base w0 -> ops_ok ops -> reachable base ops tt w0 = (Ok st, u, w) ->
  Forall fits (map op_record ops) ->
  exists st1 w1 w2, Store.iterate_from_reset st w = (Ok (map op_record ops), st1, w1) /\
    Store.file StoreFile.unset st1 w1 = (Ok tt, st, w2) /\ wsame w w2.
Proof.
  intros Hw Hops Er Hfit. destruct (reachable_inv _ _ _ _ _ _ Hw Hops Er) as [HI _].
  exact (iterate_unset_sinv _ _ _ HI Hfit).
Qed.

Lemma iterate_unset_restores_witness :
  exists st1 w1 w2,
    Store.iterate_from_reset (reached_store "db" ops_c1 (world0 "db")) (reached_world "db" ops_c1 (world0 "db"))
      = (Ok (map op_record ops_c1), st1, w1) /\
    Store.file StoreFile.unset st1 w1 = (Ok tt, reached_store "db" ops_c1 (world0 "db"), w2) /\
    wsame (reached_world "db" ops_c1 (world0 "db")) w2.
Proof.
  apply (iterate_unset_restores "db"%string ops_c1 (world0 "db"%string) _ tt).
  - apply fresh_world0.
  - repeat constructor; simpl; lia.
  - vm_compute. reflexivity.
  - repeat constructor.
Defined.

(** Writing at the stream position inside an existing file. *)
Lemma write_at_over (W c0 bs : bytes) :
  write_at (W ++ drop (length W) c0) (length W) bs = (W ++ bs) ++ drop (length (W ++ bs)) c0.
Proof.
  unfold write_at. rewrite take_app_length, length_app.
  replace (length W - (length W + length (drop (length W) c0)))%nat with 0%nat by lia.
  cbn [replicate app]. rewrite drop_app_ge by lia.
  replace (length W + length bs - length W)%nat with (length bs) by lia.
  rewrite drop_drop, length_app, <- app_assoc. done.
Qed.

Lemma write_all_over bs h w (W c0 : bytes) :
  ff w -> w_fs w (f_path h) = Some (W ++ drop (length W) c0) -> f_pos h = N.of_nat (length W) ->
  exists w', wupd (f_path h) ((W ++ bs) ++ drop (length (W ++ bs)) c0) w w' /\
    write_all bs h w = (Ok tt, mkFile (f_path h) (f_pos h + N.of_nat (length bs)), w').
Proof.
  intros Hff Hc Hpos. destruct bs as [|x bs'].
  - exists w. rewrite app_nil_r. split; [now apply wupd_nil|].
    cbn. rewrite N.add_0_r. now destruct h.
  - unfold write_all, bind, get, liftW, put. rewrite syscall_ff by done.
    unfold contents. cbn [tick w_fs]. rewrite Hc. cbn [default].
    rewrite Hpos, Nat2N.id. unfold id. rewrite write_at_over.
    eexists. split; [|reflexivity].
    unfold wupd, set_fs, tick. cbn. split_and!; try done.
    + now rewrite decide_True.
    + intros q Hq. now rewrite decide_False.
Qed.

Lemma bind_write_over {B} bs (k : unit -> M StoreFile B) f w (W c0 : bytes) :
  ff w -> w_fs w (f_path (sf_file f)) = Some (W ++ drop (length W) c0) ->
  f_pos (sf_file f) = N.of_nat (length W) ->
  exists w1, wupd (f_path (sf_file f)) ((W ++ bs) ++ drop (length (W ++ bs)) c0) w w1 /\
    bind (on_handle (write_all bs)) k f w =
    k tt (set_file (mkFile (f_path (sf_file f)) (N.of_nat (length (W ++ bs)))) f) w1.
Proof.
  intros Hff Hc Hp. destruct (write_all_over bs (sf_file f) w W c0 Hff Hc Hp) as (w1 & U & E).
  exists w1. split; [done|]. rewrite (bind_ok _ _ _ _ _ _ _ (on_handle_run _ _ _ _ _ _ E)).
  now rewrite Hp, length_app, Nat2N.inj_add.
Qed.

Ltac write_over :=
  match goal with
  | Hff : ff ?w, Hc : w_fs ?w _ = Some (?W ++ drop (length ?W) ?c0)
    |- context [bind (on_handle (write_all ?bs)) ?k ?f ?w] =>
      let w1 := fresh "w" in let U := fresh "U" in let E := fresh "E" in
      destruct (bind_write_over bs k f w W c0 Hff Hc eq_refl) as (w1 & U & E);
      rewrite E; clear E;
      let Hff1 := fresh "Hff" in let Hc1 := fresh "Hc" in
      pose proof (ff_wupd _ _ _ _ Hff U) as Hff1;
      pose proof (wupd_at _ _ _ _ U) as Hc1;
      cbn [sf_file f_path set_file] in U, Hc1
  end.

(** [StoreFile::insert] on a handle whose stream position is 0: the record
    overwrites the start of the file. *)
Lemma insert_over id p c0 off k v w :
  ff w -> w_fs w p = Some c0 -> rec_ok (Insert k v) ->
  exists w', wupd p (encode (Insert k v) ++ drop (rlen (Insert k v)) c0) w w' /\
    StoreFile.insert k v (mkStoreFile id (mkFile p 0) off None) w =
      (Ok (mkIndexEntry id (off + 16 + N.of_nat (length k)) (N.of_nat (length v))),
       mkStoreFile id (mkFile p (N.of_nat (rlen (Insert k v))))
         (off + N.of_nat (rlen (Insert k v))) None, w').
Proof.
  intros Hff Hc Hok. destruct (rec_ok_insert _ _ Hok) as [Ek Ev].
  change (Some c0) with (Some ([] ++ drop (length (@nil Byte.byte)) c0)) in Hc.
  unfold StoreFile.insert. rewrite Ek, Ev. cbv zeta.
  do 5 write_over. unfold flush.
  rewrite !(bind_ok _ _ _ _ tt _ _ (on_handle_run _ _ _ _ _ _ eq_refl)).
  eexists. split.
  2:{ unfold bind, modify, get, ret, set_offset, set_file.
      cbn [sf_id sf_offset sf_file sf_peek f_path f_pos].
      rewrite !length_app, !length_to_be_bytes. unfold rlen. cbn [length].
      do 3 f_equal; [f_equal; lia|]. do 2 f_equal; lia. }
  do 4 (eapply wupd_trans; [eassumption|]).
  replace (encode (Insert k v)) with ((((([] ++ to_be_bytes 8 INSERT) ++ to_be_bytes 4 (N.of_nat (length k)))
      ++ to_be_bytes 4 (N.of_nat (length v))) ++ k) ++ v).
  2:{ unfold encode. rewrite Ek, Ev. now rewrite <- !app_assoc. }
  rewrite <- (length_encode (Insert k v)).
  replace (encode (Insert k v)) with ((((([] ++ to_be_bytes 8 INSERT) ++ to_be_bytes 4 (N.of_nat (length k)))
      ++ to_be_bytes 4 (N.of_nat (length v))) ++ k) ++ v).
  2:{ unfold encode. rewrite Ek, Ev. now rewrite <- !app_assoc. }
  eassumption.
Qed.

Lemma read_past_end off len f w c :
  ff w -> w_fs w (f_path (sf_file f)) = Some c -> len <> 0 -> N.of_nat (length c) < off + len ->
  exists w', wsame w w' /\ StoreFile.read off len f w = (Err (EIo UnexpectedEof), f, w').
Proof.
  intros Hff Hc Hn Hlt. unfold StoreFile.read.
  assert (E1 : stream_position (sf_file f) w = (Ok (f_pos (sf_file f)), sf_file f, tick w)).
  { unfold stream_position, bind, get, liftW. now rewrite syscall_ff. }
  rewrite (bind_ok _ _ _ _ _ _ _ (on_handle_same _ _ _ _ _ E1)).
  assert (Hff1 : ff (tick w)) by exact (ff_wsame _ _ Hff (wsame_tick w)).
  destruct (read_at_eof len off (sf_file f) (tick w) c Hff1 Hc Hn Hlt) as (w2 & W2 & E2).
  exists w2. split; [exact (wsame_trans _ _ _ (wsame_tick w) W2)|].
  unfold bind at 1. rewrite (on_handle_same _ _ _ _ _ E2). done.
Qed.

(** ** Reopening a non-empty log *)

(** [Store::open] on a base directory whose log file already holds records
    starts with an empty index, and its handle's stream position is 0 (the
    file is opened without append mode and never seeked to its end): the
    next [insert] overwrites the start of the log, and [lookup] of the
    inserted key, when its value is not empty, then fails with
    [UnexpectedEof]. *)
Theorem reopen_insert_overwrites base c k v w :
  ff w -> w_dirs w [SBase base] = true ->
  w_fs w [SBase base; SNum 1 ".dat"] = Some c -> c <> [] ->
  rec_ok (Insert k v) -> v <> [] ->
  exists st w1 st2 w2 st3 w3,
    Store.open base tt w = (Ok st, tt, w1) /\ st_index st = ∅ /\
    Store.insert k v st w1 = (Ok tt, st2, w2) /\
    w_fs w2 [SBase base; SNum 1 ".dat"] =
      Some (encode (Insert k v) ++ drop (rlen (Insert k v)) c) /\
    Store.lookup k st2 w2 = (Err (EIo UnexpectedEof), st3, w3).
Proof.
  intros Hff Hd Hc Hne Hok Hv.
  set (P := [SBase base; SNum 1 ".dat"]) in *.
  destruct (create_ff 1 P false w Hff Hd) as (w1 & U & E). cbv zeta in U, E. rewrite Hc in U, E.
  cbn [default] in U, E.
  unfold Store.open, Store.id_to_file, StoreFile.open, Store.id_to_path.
  fold P. rewrite (bind_ok _ _ _ _ _ _ _ E).
  pose proof (ff_wupd _ _ _ _ Hff U) as Hff1. pose proof (wupd_at _ _ _ _ U) as Hc1.
  destruct (insert_over 1 P c (N.of_nat (length c)) k v w1 Hff1 Hc1 Hok) as (w2 & U2 & E2).
  pose proof (ff_wupd _ _ _ _ Hff1 U2) as Hff2.
  destruct (read_past_end (N.of_nat (length c) + 16 + N.of_nat (length k)) (N.of_nat (length v))
              (mkStoreFile 1 (mkFile P (N.of_nat (rlen (Insert k v))))
                 (N.of_nat (length c) + N.of_nat (rlen (Insert k v))) None) w2 _ Hff2 (wupd_at _ _ _ _ U2))
    as (w3 & _ & E3).
  { destruct v; [done|]. cbn. lia. }
  { rewrite length_app, length_drop, length_encode. destruct c; [done|]. unfold rlen. cbn [length]. lia. }
  set (f1 := mkStoreFile 1 (mkFile P 0) (N.of_nat (length c)) None) in *.
  set (st := mkStore 1 base (<[1 := f1]> ∅) ∅).
  exists st, w1. unfold Store.insert. rewrite bind_get.
  assert (Hf : st_files st !! st_id st = Some f1) by (cbn; now rewrite lookup_insert_eq).
  rewrite (bind_ok _ _ _ _ _ _ _ (on_file_run _ _ _ _ _ _ _ _ Hf E2)).
  unfold modify, get, put, bind. cbn [st_id st_files st_index set_files set_index].
  eexists. exists w2. eexists. exists w3.
  split; [reflexivity|]. split; [reflexivity|]. split; [reflexivity|]. split; [exact (wupd_at _ _ _ _ U2)|].
  unfold Store.lookup. rewrite bind_get. cbn [st_index st_files set_index set_files].
  rewrite lookup_insert_eq. cbn [ie_file ie_offset ie_length].
  unfold st. cbn [st_id st_files st_base]. rewrite insert_insert_eq, lookup_insert_eq.
  erewrite bind_ok by reflexivity.
  rewrite (bind_err _ _ _ _ _ _ _ (on_file_run _ _ _ _ _ _ _ _ (lookup_insert_eq _ _ _) E3)).
  reflexivity.
Qed.

Lemma reopen_insert_overwrites_witness :
  exists st w1 st2 w2 st3 w3,
    Store.open "db" tt (one_file_world [SBase "db"; SNum 1 ".dat"] trunc_rem) = (Ok st, tt, w1) /\
    st_index st = ∅ /\
    Store.insert (b "k") (b "v") st w1 = (Ok tt, st2, w2) /\
    w_fs w2 [SBase "db"; SNum 1 ".dat"] =
      Some (encode (Insert (b "k") (b "v")) ++ drop (rlen (Insert (b "k") (b "v"))) trunc_rem) /\
    Store.lookup (b "k") st2 w2 = (Err (EIo UnexpectedEof), st3, w3).
Proof.
  apply (reopen_insert_overwrites "db"%string trunc_rem (b "k") (b "v")).
  - intros n. reflexivity.
  - reflexivity.
  - apply one_file_world_at.
  - discriminate.
  - split; cbn; lia.
  - discriminate.
Defined.

(** ** [main] in [src/bin/main.rs] *)

Lemma create_dir_all_fresh base w :
  ff w -> (forall q, is_prefix [SBase base] q = true -> w_fs w q = None) ->
  exists w1, @liftW unit _ (create_dir_all [SBase base]) tt w = (Ok tt, tt, w1) /\ fresh_world base w1.
Proof.
  intros Hff Hn. unfold liftW, create_dir_all. rewrite syscall_ff by done.
  eexists. split; [reflexivity|]. split; [|split].
  - intros n. apply Hff.
  - cbn. rewrite (bool_decide_true (SBase base = SBase base)) by reflexivity.
    apply orb_true_r.
  - intros q Hq. apply Hn, Hq.
Qed.

Lemma inserts_spec (data : list (bytes * bytes)) : forall log st w,
  SInv log st w -> List.Forall (fun kv => rec_ok (Insert kv.1 kv.2)) data ->
  exists st' w', mapM_ (fun kv => Store.insert kv.1 kv.2) data st w = (Ok tt, st', w') /\
    SInv (log ++ map pair_insert data) st' w'.
Proof.
  induction data as [|kv data IH]; intros log st w HI Hok.
  - exists st, w. rewrite app_nil_r. done.
  - inversion Hok as [|? ? Hk Hok']; subst.
    destruct (store_insert_spec log st w kv.1 kv.2 HI Hk) as (st1 & w1 & E1 & HI1 & _).
    destruct (IH _ _ _ HI1 Hok') as (st2 & w2 & E2 & HI2).
    exists st2, w2. cbn [mapM_]. rewrite (bind_ok _ _ _ _ _ _ _ E1). split; [exact E2|].
    rewrite <- app_assoc in HI2. exact HI2.
Qed.

Lemma main_lookups_spec log st (d : list (bytes * bytes)) : forall w,
  SInv log st w ->
  exists w', mapM (fun kv => let* o := Store.lookup kv.1 in ret (default [] o)) d st w =
    (Ok (map (fun kv => default [] (model log kv.1)) d), st, w') /\ wsame w w'.
Proof.
  induction d as [|kv d IH]; intros w HI.
  - exists w. split; [done|apply wsame_refl].
  - destruct (store_lookup_spec log st w kv.1 HI) as (w1 & E1 & W1).
    destruct (IH w1 (SInv_wsame _ _ _ _ HI W1)) as (w2 & E2 & W2).
    assert (F : (let* o := Store.lookup kv.1 in ret (default [] o)) st w
                = (Ok (default [] (model log kv.1)), st, w1)).
    { now rewrite (bind_ok _ _ _ _ _ _ _ E1). }
    exists w2. cbn [mapM]. rewrite (bind_ok _ _ _ _ _ _ _ F), (bind_ok _ _ _ _ _ _ _ E2).
    split; [reflexivity|exact (wsame_trans _ _ _ W1 W2)].
Qed.

Lemma removes_spec (d : list (bytes * bytes)) : forall log st w,
  SInv log st w -> NoDup (map fst d) ->
  List.Forall (fun kv => rec_ok (Remove kv.1) /\ model log kv.1 <> None) d ->
  exists st' w', mapM (fun kv => Store.remove kv.1) d st w = (Ok (map (fun _ => true) d), st', w') /\
    SInv (log ++ map (fun kv => Remove kv.1) d) st' w'.
Proof.
  induction d as [|kv d IH]; intros log st w HI Hnd Hd.
  - exists st, w. rewrite app_nil_r. done.
  - inversion Hd as [|? ? [Hr Hm] Hd']; subst. cbn [map] in Hnd.
    inversion Hnd as [|? ? Hnin Hnd']; subst.
    destruct (store_remove_spec log st w kv.1 HI Hr) as (st1 & w1 & E1 & HI1 & _).
    assert (Hd1 : List.Forall (fun kv' => rec_ok (Remove kv'.1) /\ model (log ++ [Remove kv.1]) kv'.1 <> None) d).
    { apply List.Forall_forall. intros kv' Hin. destruct (proj1 (List.Forall_forall _ _) Hd' kv' Hin) as [H1 H2].
      split; [exact H1|]. rewrite model_snoc. cbn [rkey]. rewrite decide_False; [exact H2|].
      intros E. apply Hnin. rewrite E. apply list_elem_of_In. now apply in_map. }
    destruct (IH _ _ _ HI1 Hnd' Hd1) as (st2 & w2 & E2 & HI2).
    exists st2, w2. cbn [mapM]. rewrite (bind_ok _ _ _ _ _ _ _ E1), (bind_ok _ _ _ _ _ _ _ E2).
    pose proof HI as (_ & _ & _ & Hix & _).
    rewrite bool_decide_eq_true_2 by (now apply (index_some_model _ _ _ _ _ Hix)).
    split; [reflexivity|]. rewrite <- app_assoc in HI2. exact HI2.
Qed.

Lemma elookup_in_nodup E k v : NoDup (map fst E) -> In (k, v) E -> elookup E k = Some v.
Proof.
  induction E as [|[k' v'] E IH] using rev_ind; intros Hnd Hin; [destruct Hin|].
  apply NoDup_ListNoDup in Hnd. rewrite map_app in Hnd. cbn [map fst] in Hnd.
  rewrite elookup_snoc. apply in_app_or in Hin as [Hin|[Hin|[]]].
  - rewrite decide_False; [now apply IH; [apply NoDup_ListNoDup; eapply NoDup_app_remove_r; exact Hnd|]|].
    intros ->. apply (NoDup_remove_2 (map fst E) [] k Hnd).
    apply in_or_app. left. exact (in_map fst _ _ Hin).
  - injection Hin as -> ->. now rewrite decide_True.
Qed.

Lemma elookup_not_in E k : ~ In k (map fst E) -> elookup E k = None.
Proof.
  induction E as [|[k' v'] E IH] using rev_ind; intros Hk; [done|].
  rewrite elookup_snoc, decide_False.
  - apply IH. intros H. apply Hk. rewrite map_app. apply in_or_app. now left.
  - intros ->. apply Hk. rewrite map_app. apply in_or_app. right. now left.
Qed.

Lemma model_removes_in l (d : list (bytes * bytes)) k :
  In k (map fst d) -> model (l ++ map (fun kv => Remove kv.1) d) k = None.
Proof.
  induction d as [|kv d IH] using rev_ind; intros Hk; [destruct Hk|].
  rewrite !map_app in *. cbn [map] in *. rewrite app_assoc, model_snoc. cbn [rkey rval].
  destruct (decide (kv.1 = k)) as [|Hne]; [done|].
  apply IH. apply in_app_or in Hk as [Hk|[Hk|[]]]; [exact Hk|congruence].
Qed.

Lemma model_removes_out l (d : list (bytes * bytes)) k :
  ~ In k (map fst d) -> model (l ++ map (fun kv => Remove kv.1) d) k = model l k.
Proof.
  induction d as [|kv d IH] using rev_ind; intros Hk; [now rewrite app_nil_r|].
  rewrite !map_app in *. cbn [map] in *. rewrite app_assoc, model_snoc. cbn [rkey rval].
  rewrite decide_False.
  - apply IH. intros H. apply Hk, in_or_app. now left.
  - intros Ek. subst k. apply Hk, in_or_app. right. now left.
Qed.

Lemma found_msgs_nil (d : list (bytes * bytes)) : List.Forall (fun kv => kv.2 <> []) d -> found_msgs d (map snd d) = [].
Proof.
  induction 1 as [|[k v] d Hv _ IH]; [done|]. cbn.
  destruct v as [|x v]; [done|]. rewrite decide_True by done. exact IH.
Qed.

Lemma sorted_msgs_nil i prev l :
  Sorted (fun a b => key_cmp a b = Lt) (prev :: l) -> sorted_msgs i prev l = [].
Proof.
  revert i prev. induction l as [|x l IH]; intros i prev Hs; [done|].
  inversion Hs as [|? ? Hs' Hhd]; subst. inversion Hhd as [|? ? Hlt]; subst.
  destruct prev as [|y prev'].
  - cbn [sorted_msgs]. now apply IH.
  - cbn [sorted_msgs]. rewrite Hlt. now apply IH.
Qed.

Lemma sorted_msgs_start l :
  StronglySorted (fun a b => key_cmp a b = Lt) l -> sorted_msgs 0 [] l = [].
Proof.
  intros Hs. destruct l as [|x l]; [done|]. cbn.
  apply sorted_msgs_nil, StronglySorted_Sorted, Hs.
Qed.

Lemma removed_msgs_nil (d : list (bytes * bytes)) : removed_msgs d (map (fun _ => true) d) = [].
Proof. induction d as [|[k v] d IH]; [done|]. exact IH. Qed.

(** On a fresh base directory, with distinct keys, non-empty values and
    [data1], [data2] shuffles of [data], every run of [main] ends in [Ok]
    and prints none of its diagnostics. *)
Theorem main_checks_pass base limit (data data1 data2 : list (bytes * bytes)) w :
  ff w -> (forall q, is_prefix [SBase base] q = true -> w_fs w q = None) ->
  NoDup (map fst data) -> Permutation data1 data -> Permutation data2 data ->
  List.Forall (fun kv => rec_ok (Insert kv.1 kv.2) /\ fits (Insert kv.1 kv.2) /\ kv.2 <> []) data ->
  exists r w', main base limit data data1 data2 tt w = (Ok r, tt, w') /\ main_msgs data1 data2 r = [].
Proof.
  intros Hff Hnone Hnd Hp1 Hp2 Hd.
  pose proof (proj1 (List.Forall_forall _ _) Hd) as Hd'.
  destruct (create_dir_all_fresh base w Hff Hnone) as (w1 & E1 & Hw1).
  destruct (open_spec base w1 Hw1) as (st0 & w2 & E2 & HI0 & _).
  assert (Hins : List.Forall (fun kv => rec_ok (Insert kv.1 kv.2)) data).
  { apply List.Forall_forall. intros kv Hin. apply (Hd' kv Hin). }
  destruct (inserts_spec data [] st0 w2 HI0 Hins) as (st1 & w3 & E3 & HI1). cbn [app] in HI1.
  assert (Hfit1 : List.Forall fits (map pair_insert data)).
  { apply List.Forall_forall. intros r Hr. apply in_map_iff in Hr as (kv & <- & Hin). apply (Hd' kv Hin). }
  destruct (reduce_spec limit _ st1 w3 HI1 Hfit1) as (E & st2 & w4 & E4 & HI2 & HS & Hfit2 & HE & _).
  assert (Hm : forall kv, In kv data -> model (map pair_insert E) kv.1 = Some kv.2).
  { intros [k v] Hin. cbn [fst snd]. rewrite model_pairs, HE, model_pairs.
    exact (elookup_in_nodup _ _ _ Hnd Hin). }
  destruct (main_lookups_spec _ st2 data1 w4 HI2) as (w5 & E5 & W5).
  pose proof (SInv_wsame _ _ _ _ HI2 W5) as HI2'.
  destruct (iterate_unset_sinv _ st2 w5 HI2' Hfit2) as (st3 & w6 & w7 & E6 & E7 & W7).
  pose proof (SInv_wsame _ _ _ _ HI2' W7) as HI3.
  assert (Hnd2 : NoDup (map fst data2)).
  { apply NoDup_ListNoDup. apply NoDup_ListNoDup in Hnd.
    exact (Permutation_NoDup (Permutation_sym (Permutation_map fst Hp2)) Hnd). }
  assert (Hrem : List.Forall (fun kv => rec_ok (Remove kv.1) /\ model (map pair_insert E) kv.1 <> None) data2).
  { apply List.Forall_forall. intros kv Hin. pose proof (Permutation_in _ Hp2 Hin) as Hin'.
    destruct (Hd' kv Hin') as ([Hk _] & _). split; [split; [exact Hk|exact I]|].
    now rewrite (Hm kv Hin'). }
  destruct (removes_spec data2 _ st2 w7 HI3 Hnd2 Hrem) as (st4 & w8 & E8 & HI4).
  assert (Hfit3 : List.Forall fits (map pair_insert E ++ map (fun kv => Remove kv.1) data2)).
  { apply Forall_app. split; [exact Hfit2|].
    apply List.Forall_forall. intros r Hr. apply in_map_iff in Hr as (kv & <- & _). exact I. }
  destruct (reduce_spec limit _ st4 w8 HI4 Hfit3) as (E' & st5 & w9 & E9 & HI5 & _ & _ & HE' & _).
  assert (HE0 : E' = []).
  { apply elookup_none_nil. intros k. rewrite HE'.
    destruct (in_dec (List.list_eq_dec Byte.byte_eq_dec) k (map fst data2)) as [Hk|Hk].
    - now apply model_removes_in.
    - rewrite model_removes_out by exact Hk. rewrite model_pairs, HE, model_pairs.
      apply elookup_not_in. intros Hk'. apply Hk.
      exact (Permutation_in _ (Permutation_sym (Permutation_map fst Hp2)) Hk'). }
  subst E'. cbn [map] in HI5.
  destruct (iterate_spec [] st5 w9 HI5 (List.Forall_nil _)) as (st6 & w10 & E10 & _).
  exists (map (fun kv => default [] (model (map pair_insert E) kv.1)) data1,
          map rkey (map pair_insert E), map (fun _ : bytes * bytes => true) data2, 0%nat).
  eexists. split.
  - assert (EB : main_body limit data data1 data2 st0 w2 =
      (Ok (map (fun kv => default [] (model (map pair_insert E) kv.1)) data1,
           map rkey (map pair_insert E), map (fun _ : bytes * bytes => true) data2, 0%nat), st6, w10)).
    { unfold main_body.
      rewrite (bind_ok _ _ _ _ _ _ _ E3), (bind_ok _ _ _ _ _ _ _ E4), (bind_ok _ _ _ _ _ _ _ E5),
        (bind_ok _ _ _ _ _ _ _ E6), (bind_ok _ _ _ _ _ _ _ E7), (bind_ok _ _ _ _ _ _ _ E8),
        (bind_ok _ _ _ _ _ _ _ E9), (bind_ok _ _ _ _ _ _ _ E10).
      reflexivity. }
    unfold main. rewrite (bind_ok _ _ _ _ _ _ _ E1), (bind_ok _ _ _ _ _ _ _ E2).
    assert (RB : run_on (T := unit) st0 (main_body limit data data1 data2) tt w2 =
      (Ok (map (fun kv => default [] (model (map pair_insert E) kv.1)) data1,
           map rkey (map pair_insert E), map (fun _ : bytes * bytes => true) data2, 0%nat, st6), tt, w10)).
    { unfold run_on. now rewrite EB. }
    rewrite (bind_ok _ _ _ _ _ _ _ RB). reflexivity.
  - unfold main_msgs.
    assert (F : map (fun kv => default [] (model (map pair_insert E) kv.1)) data1 = map snd data1).
    { apply map_ext_in. intros kv Hin. now rewrite (Hm kv (Permutation_in _ Hp1 Hin)). }
    rewrite F, found_msgs_nil, removed_msgs_nil.
    2:{ apply List.Forall_forall. intros kv Hin. apply (Hd' kv (Permutation_in _ Hp1 Hin)). }
    rewrite map_map. rewrite sorted_msgs_start; [reflexivity|].
    exact (StronglySorted_map (fun a b => key_cmp a b = Lt) fst E HS).
Qed.

Lemma main_checks_pass_witness :
  exists r w', main "db" 64 [(b "a", b "1"); (b "b", b "2")] [(b "b", b "2"); (b "a", b "1")]
                 [(b "a", b "1"); (b "b", b "2")] tt (world0 "other") = (Ok r, tt, w') /\
    main_msgs [(b "b", b "2"); (b "a", b "1")] [(b "a", b "1"); (b "b", b "2")] r = [].
Proof.
  apply (main_checks_pass "db"%string 64 [(b "a", b "1"); (b "b", b "2")]
           [(b "b", b "2"); (b "a", b "1")] [(b "a", b "1"); (b "b", b "2")] (world0 "other"%string)).
  - intros n. reflexivity.
  - intros q _. reflexivity.
  - apply NoDup_ListNoDup. constructor; [intros [H|[]]; discriminate|]. constructor; [intros []|constructor].
  - apply perm_swap.
  - apply Permutation_refl.
  - repeat constructor; cbn; try lia; discriminate.
Defined.

(** ** [Store::reduce] followed by more mutations *)

Lemma model_app_congr A A' B k :
  (forall k, model A k = model A' k) -> model (A ++ B) k = model (A' ++ B) k.
Proof.
  intros H. induction B as [|r B IH] using rev_ind.
  - rewrite !app_nil_r. apply H.
  - rewrite !app_assoc, !model_snoc, IH. done.
Qed.

(** After a successful [reduce], further inserts and removes succeed and
    [lookup] answers as if the whole history, before and after the reduce,
    had been replayed on the original log. *)
Theorem reduce_then_ops base ops1 ops2 w0 st u w limit st' w' :
  fresh_world base w0 -> ops_ok ops1 -> reachable base ops1 tt w0 = (Ok st, u, w) ->
  Store.reduce limit st w = (Ok tt, st', w') -> ops_ok ops2 ->
  exists st'' w'', run_ops ops2 st' w' = (Ok tt, st'', w'') /\
    forall k, result_of (Store.lookup k) st'' w'' = Ok (model (map op_record (ops1 ++ ops2)) k).
Proof.
  intros Hw Hops Er Ed Hops2. destruct (reachable_inv _ _ _ _ _ _ Hw Hops Er) as [HI _].
  destruct (List.Forall_dec fits fits_dec (map op_record ops1)) as [Hfit|Hn].
  2:{ exfalso. exact (fits_or_err _ _ _ _ HI Hn _ _ Ed). }
  destruct (reduce_spec limit _ st w HI Hfit) as (E & st2 & w2 & E2 & HI2 & _ & _ & Hel & _).
  rewrite Ed in E2. injection E2 as <- <-.
  destruct (run_ops_spec ops2 _ _ _ HI2 Hops2) as (st3 & w3 & E3 & HI3 & _).
  exists st3, w3. split; [exact E3|]. intros k.
  destruct (store_lookup_spec _ _ _ k HI3) as (w4 & E4 & _).
  unfold result_of. rewrite E4, map_app. f_equal. apply model_app_congr.
  intros k'. now rewrite model_pairs, Hel.
Qed.

Lemma reduce_then_ops_witness :
  exists st'' w'',
    run_ops [OpInsert (b "a") (b "7"); OpRemove (b "c")]
      (state_of (Store.reduce 20) (reached_store "db" ops_c1 (world0 "db")) (reached_world "db" ops_c1 (world0 "db")))
      (world_of (Store.reduce 20) (reached_store "db" ops_c1 (world0 "db")) (reached_world "db" ops_c1 (world0 "db")))
      = (Ok tt, st'', w'') /\
    forall k, result_of (Store.lookup k) st'' w'' =
      Ok (model (map op_record (ops_c1 ++ [OpInsert (b "a") (b "7"); OpRemove (b "c")])) k).
Proof.
  apply (reduce_then_ops "db"%string ops_c1 _ (world0 "db"%string) (reached_store "db" ops_c1 (world0 "db")) tt
           (reached_world "db" ops_c1 (world0 "db")) 20).
  - apply fresh_world0.
  - repeat constructor; simpl; lia.
  - vm_compute. reflexivity.
  - vm_compute. reflexivity.
  - repeat constructor; simpl; lia.
Defined.

(** ** [split] *)

Lemma length_encode_log_single r : length (encode_log [r]) = rlen r.
Proof. unfold encode_log. cbn [map concat]. now rewrite app_nil_r, length_encode. Qed.

Lemma split_chunks_bound limit len records todo :
  length (encode_log records) = len -> (len <= limit \/ length records = 1)%nat ->
  List.Forall (fun c => (length (encode_log c) <= limit)%nat \/ length c = 1%nat)
    (split_chunks limit len records todo).
Proof.
  revert len records. induction todo as [|r todo IH]; intros len records Hl Hb; cbn [split_chunks].
  - subst len. constructor; [exact Hb|constructor].
  - destruct (limit <? len + rlen r)%nat eqn:Hlt.
    + constructor; [subst len; exact Hb|]. apply IH; [apply length_encode_log_single|now right].
    + apply Nat.ltb_ge in Hlt. apply IH.
      * rewrite encode_log_snoc, length_app, length_encode. lia.
      * left. lia.
Qed.

(** [split] cuts the active log into chunks, in log order, each of at most
    [split_size_bytes] bytes unless it holds a single record, and writes each
    chunk, sorted by key, to its own file of the scratch directory; when the
    records [fit] and the scratch directory holds no file yet ([make_file]
    does not truncate). *)
Theorem split_bounded_chunks base limit id log w :
  ff w -> w_fs w [SBase base; SNum id ".dat"] = Some (encode_log log) ->
  Forall rec_ok log -> Forall fits log ->
  (forall q, is_prefix [SBase base; SNum id ""] q = true -> w_fs w q = None) ->
  exists cs f' w',
    split base limit (at_end id [SBase base; SNum id ".dat"] (encode_log log)) w =
      (Ok (map reset_sf (chunk_files [SBase base; SNum id ""] 0 cs)), f', w') /\
    concat cs = log /\
    List.Forall (fun c => (length (encode_log c) <= limit)%nat \/ length c = 1%nat) cs /\
    (forall j c, cs !! j = Some c ->
       w_fs w' (cpath [SBase base; SNum id ""] j) = Some (encode_log (sort_by_key c))) /\
    w_fs w' [SBase base; SNum id ".dat"] = Some (encode_log log).
Proof.
  intros Hff HP Hok Hfit Hscr.
  destruct (split_ok base limit id (encode_log log) log w Hff HP eq_refl Hok Hscr) as [Hs _].
  destruct (Hs Hfit) as (f' & w' & E & _ & HP' & _ & _ & Hin & _).
  exists (split_chunks limit 0 [] log), f', w'.
  split; [exact E|]. split; [exact (split_chunks_concat _ _ _ _)|].
  split; [apply split_chunks_bound; [reflexivity|left; lia]|].
  split; [exact Hin|exact HP'].
Qed.

Lemma split_bounded_chunks_witness :
  exists cs f' w',
    split "db" 20 (at_end 1 [SBase "db"; SNum 1 ".dat"] (encode_log [Insert (b "a") (b "1"); Insert (b "b") (b "2")]))
      (one_file_world [SBase "db"; SNum 1 ".dat"] (encode_log [Insert (b "a") (b "1"); Insert (b "b") (b "2")])) =
      (Ok (map reset_sf (chunk_files [SBase "db"; SNum 1 ""] 0 cs)), f', w') /\
    concat cs = [Insert (b "a") (b "1"); Insert (b "b") (b "2")] /\
    List.Forall (fun c => (length (encode_log c) <= 20)%nat \/ length c = 1%nat) cs /\
    (forall j c, cs !! j = Some c ->
       w_fs w' (cpath [SBase "db"; SNum 1 ""] j) = Some (encode_log (sort_by_key c))) /\
    w_fs w' [SBase "db"; SNum 1 ".dat"] = Some (encode_log [Insert (b "a") (b "1"); Insert (b "b") (b "2")]).
Proof.
  apply split_bounded_chunks.
  - intros n. reflexivity.
  - apply one_file_world_at.
  - repeat constructor; cbn; lia.
  - repeat constructor; cbn; lia.
  - intros q Hq. cbn. case_decide as Heq; [|reflexivity]. subst q. vm_compute in Hq. discriminate.
Defined.

(** ** [StoreFile::open] and [StoreFile::make] *)

(** [StoreFile::open] keeps the file's contents (creating it empty if it is
    missing), with the offset at the end but the stream position at 0;
    [StoreFile::make] truncates the file to empty. *)
Theorem open_make_files id p w :
  ff w -> w_dirs w (removelast p) = true ->
  (exists w', StoreFile.open id p tt w =
      (Ok (mkStoreFile id (mkFile p 0) (N.of_nat (length (default [] (w_fs w p)))) None), tt, w') /\
    wupd p (default [] (w_fs w p)) w w') /\
  (exists w', StoreFile.make id p tt w = (Ok (mkStoreFile id (mkFile p 0) 0 None), tt, w') /\
    wupd p [] w w').
Proof.
  intros Hff Hd. split.
  - destruct (create_ff id p false w Hff Hd) as (w' & U & E). exists w'. split; [exact E|exact U].
  - destruct (create_ff id p true w Hff Hd) as (w' & U & E). exists w'. split; [exact E|exact U].
Qed.

Lemma open_make_files_witness :
  (exists w', StoreFile.open 1 [SBase "db"; SNum 1 ".dat"] tt (one_file_world [SBase "db"; SNum 1 ".dat"] trunc_rem) =
      (Ok (mkStoreFile 1 (mkFile [SBase "db"; SNum 1 ".dat"] 0)
             (N.of_nat (length (default [] (w_fs (one_file_world [SBase "db"; SNum 1 ".dat"] trunc_rem)
                                              [SBase "db"; SNum 1 ".dat"])))) None), tt, w') /\
    wupd [SBase "db"; SNum 1 ".dat"]
      (default [] (w_fs (one_file_world [SBase "db"; SNum 1 ".dat"] trunc_rem) [SBase "db"; SNum 1 ".dat"]))
      (one_file_world [SBase "db"; SNum 1 ".dat"] trunc_rem) w') /\
  (exists w', StoreFile.make 1 [SBase "db"; SNum 1 ".dat"] tt (one_file_world [SBase "db"; SNum 1 ".dat"] trunc_rem) =
      (Ok (mkStoreFile 1 (mkFile [SBase "db"; SNum 1 ".dat"] 0) 0 None), tt, w') /\
    wupd [SBase "db"; SNum 1 ".dat"] [] (one_file_world [SBase "db"; SNum 1 ".dat"] trunc_rem) w').
Proof.
  apply open_make_files.
  - intros n. reflexivity.
  - reflexivity.
Defined.
